(** * Entrainment adjustment: vertical integration and ascent fractions

    A shallow embedding of [calc_entrain_adjust.ipynb]: the zero-buoyancy
    plume integration of one grid column between the 500 hPa level and the
    lifting condensation level, the area-weighted ascent fractions, and the
    objective handed to the optimiser.

    The notebook computes with IEEE binary64 numbers through numpy, xarray
    and pandas.  The program is written once, over an interface [Arith] of
    the operations it uses, and run at two instances:
    - [binary64], the IEEE doubles of the Standard Library's [SpecFloat]
      (53 bits of precision, round to nearest even, signed zeros, infinities
      and NaN);
    - [exact], the rationals with NaN and the two infinities added, where no
      operation rounds.
    Statements about missing values, slices and masks are proved for
    [binary64]; statements whose content is an identity of real arithmetic
    are proved for [exact] and say so.

    The control run and the loop over the perturbation runs execute the
    same statements on different data; one definition stands for both. *)

From Stdlib Require Import List Bool Arith ZArith Lia QArith Qcanon.
From Stdlib Require Import Floats.SpecFloat.
From Stdlib Require Import Lqa.
Import ListNotations.

Set Implicit Arguments.

(** ** What a Python call does: it returns, or it raises *)

Inductive exn : Type :=
| IndexError   (* an index past the end of an array *)
| KeyError     (* a label that an index cannot place *)
| ValueError.  (* shapes that do not broadcast, argmin of nothing *)

Inductive outcome (A : Type) : Type :=
| Ok (a : A)
| Raise (e : exn).

Arguments Ok {A} a.
Arguments Raise {A} e.

Definition bind {A B : Type} (c : outcome A) (k : A -> outcome B) : outcome B :=
  match c with
  | Ok a => k a
  | Raise e => Raise e
  end.

Notation "x <- c ;; k" := (bind c (fun x => k))
  (at level 61, c at next level, right associativity).

Fixpoint mapM {A B : Type} (f : A -> outcome B) (l : list A) : outcome (list B) :=
  match l with
  | [] => Ok []
  | a :: l' => b <- f a ;; bs <- mapM f l' ;; Ok (b :: bs)
  end.

(** ** The arithmetic the notebook uses *)

Class Arith (num : Type) : Type := {
  nan : num;
  of_Z : Z -> num;
  add : num -> num -> num;
  sub : num -> num -> num;
  mul : num -> num -> num;
  div : num -> num -> num;
  opp : num -> num;
  absv : num -> num;
  ltb : num -> num -> bool;
  leb : num -> num -> bool;
  eqb : num -> num -> bool;
  isnan : num -> bool
}.

Declare Scope num_scope.
Delimit Scope num_scope with num.
Infix "+^" := add (at level 50, left associativity) : num_scope.
Infix "-^" := sub (at level 50, left associativity) : num_scope.
Infix "*^" := mul (at level 40, left associativity) : num_scope.
Infix "/^" := div (at level 40, left associativity) : num_scope.
Infix "<^?" := ltb (at level 70, no associativity) : num_scope.
Infix "<=^?" := leb (at level 70, no associativity) : num_scope.
Infix "==^?" := eqb (at level 70, no associativity) : num_scope.
Open Scope num_scope.

(** *** IEEE binary64 *)

Definition prec64 : Z := 53.
Definition emax64 : Z := 1024.

Definition b64_of_Z (z : Z) : spec_float := binary_normalize prec64 emax64 z 0 false.

Definition b64_isnan (x : spec_float) : bool :=
  match x with
  | S754_nan => true
  | _ => false
  end.

#[export] Instance binary64 : Arith spec_float := {|
  nan := S754_nan;
  of_Z := b64_of_Z;
  add := SFadd prec64 emax64;
  sub := SFsub prec64 emax64;
  mul := SFmul prec64 emax64;
  div := SFdiv prec64 emax64;
  opp := SFopp;
  absv := SFabs;
  ltb := SFltb;
  leb := SFleb;
  eqb := SFeqb;
  isnan := b64_isnan
|}.

(** *** Exact arithmetic: rationals, NaN and the infinities

    The sign of a zero is not kept: [x / 0] takes the sign of [x]. *)

Inductive xnum : Type :=
| XNaN
| XInf (neg : bool)
| XFin (q : Qc).

Definition Qc_negative (q : Qc) : bool :=
  match q ?= 0 with
  | Lt => true
  | _ => false
  end.

Definition Qc_is_zero (q : Qc) : bool :=
  match q ?= 0 with
  | Eq => true
  | _ => false
  end.

Definition xadd (x y : xnum) : xnum :=
  match x, y with
  | XNaN, _ | _, XNaN => XNaN
  | XInf a, XInf b => if Bool.eqb a b then XInf a else XNaN
  | XInf a, XFin _ => XInf a
  | XFin _, XInf b => XInf b
  | XFin p, XFin q => XFin (p + q)
  end.

Definition xopp (x : xnum) : xnum :=
  match x with
  | XNaN => XNaN
  | XInf a => XInf (negb a)
  | XFin q => XFin (- q)
  end.

Definition xsub (x y : xnum) : xnum :=
  match x, y with
  | XNaN, _ | _, XNaN => XNaN
  | XInf a, XInf b => if Bool.eqb a b then XNaN else XInf a
  | XInf a, XFin _ => XInf a
  | XFin _, XInf b => XInf (negb b)
  | XFin p, XFin q => XFin (p - q)
  end.

Definition xmul (x y : xnum) : xnum :=
  match x, y with
  | XNaN, _ | _, XNaN => XNaN
  | XInf a, XInf b => XInf (xorb a b)
  | XInf a, XFin q | XFin q, XInf a =>
      if Qc_is_zero q then XNaN else XInf (xorb a (Qc_negative q))
  | XFin p, XFin q => XFin (p * q)
  end.

Definition xdiv (x y : xnum) : xnum :=
  match x, y with
  | XNaN, _ | _, XNaN => XNaN
  | XInf _, XInf _ => XNaN
  | XInf a, XFin q => XInf (xorb a (Qc_negative q))
  | XFin _, XInf _ => XFin 0
  | XFin p, XFin q =>
      if Qc_is_zero q
      then (if Qc_is_zero p then XNaN else XInf (Qc_negative p))
      else XFin (p / q)
  end.

Definition xabs (x : xnum) : xnum :=
  match x with
  | XNaN => XNaN
  | XInf _ => XInf false
  | XFin q => XFin (if Qc_negative q then - q else q)
  end.

Definition xcompare (x y : xnum) : option comparison :=
  match x, y with
  | XNaN, _ | _, XNaN => None
  | XInf a, XInf b =>
      Some (match a, b with
            | true, false => Lt
            | false, true => Gt
            | _, _ => Eq
            end)
  | XInf a, XFin _ => Some (if a then Lt else Gt)
  | XFin _, XInf b => Some (if b then Gt else Lt)
  | XFin p, XFin q => Some (p ?= q)
  end.

Definition xltb (x y : xnum) : bool :=
  match xcompare x y with
  | Some Lt => true
  | _ => false
  end.

Definition xleb (x y : xnum) : bool :=
  match xcompare x y with
  | Some (Lt | Eq) => true
  | _ => false
  end.

Definition xeqb (x y : xnum) : bool :=
  match xcompare x y with
  | Some Eq => true
  | _ => false
  end.

Definition xisnan (x : xnum) : bool :=
  match x with
  | XNaN => true
  | _ => false
  end.

Definition Qc_of_Z (z : Z) : Qc := Q2Qc (inject_Z z).

(** The sum of the rationals [u lo], ..., [u (lo + n - 1)]. *)
Definition Qsum (u : nat -> Qc) (lo n : nat) : Qc :=
  fold_left Qcplus (map u (seq lo n)) 0%Qc.

#[export] Instance exact : Arith xnum := {|
  nan := XNaN;
  of_Z := fun z => XFin (Qc_of_Z z);
  add := xadd;
  sub := xsub;
  mul := xmul;
  div := xdiv;
  opp := xopp;
  absv := xabs;
  ltb := xltb;
  leb := xleb;
  eqb := xeqb;
  isnan := xisnan
|}.

Close Scope Q_scope.
Open Scope nat_scope.

(** ** numpy, pandas and xarray: the library calls of the notebook

    These follow the libraries' implementations: [np.diff], [np.trapz],
    [np.argmin] and [np.nansum] of numpy, [Index.get_slice_bound] and
    [Index.slice_indexer] of pandas (which [DataArray.sel] with a [slice]
    of labels calls) and [DataArray.integrate] of xarray.

    numpy adds fewer than eight terms in turn, and so does [np_sum] for
    any number of terms.  From eight terms on, numpy keeps eight partial
    sums over a contiguous array and adds them in pairs, and the result can
    differ from the sum in turn in the last bits.  What is proved below of
    a binary64 sum is therefore either restricted to fewer than eight
    terms, or holds in every order of the additions (a sum of nothing, a
    NaN among the terms, terms 0.0 and 1.0, two sums of the same terms),
    or is stated in exact arithmetic, where the order does not matter. *)

Section Libraries.

Context {num : Type} {A : Arith num}.

Definition zero : num := of_Z 0.
Definition one : num := of_Z 1.
Definition two : num := of_Z 2.
Definition half : num := one /^ two.

(** [a[lo:hi]] for [0 <= lo], [0 <= hi]. *)
Definition isel_slice {T : Type} (l : list T) (lo hi : nat) : list T :=
  firstn (hi - lo) (skipn lo l).

(** [a[1:] - a[:-1]] *)
Fixpoint np_diff (x : list num) : list num :=
  match x with
  | a :: (b :: _) as t => (b -^ a) :: np_diff t
  | _ => []
  end.

(** [a[1:] + a[:-1]] *)
Fixpoint pair_sums (y : list num) : list num :=
  match y with
  | a :: (b :: _) as t => (b +^ a) :: pair_sums t
  | _ => []
  end.

Fixpoint map2 {T U V : Type} (f : T -> U -> V) (l : list T) (m : list U) : list V :=
  match l, m with
  | a :: l', b :: m' => f a b :: map2 f l' m'
  | _, _ => []
  end.

(** Elementwise product of two one-dimensional arrays under numpy's
    broadcasting: equal lengths, or one of them of length one. *)
Definition broadcast_mul (d s : list num) : outcome (list num) :=
  if length d =? length s then Ok (map2 mul d s)
  else match d, s with
       | [a], _ => Ok (map (fun v => a *^ v) s)
       | _, [b] => Ok (map (fun u => u *^ b) d)
       | _, _ => Raise ValueError
       end.

(** [np.add.reduce]: 0.0 for an empty array, else the terms added in turn. *)
Definition np_sum (l : list num) : num :=
  match l with
  | [] => zero
  | a :: l' => fold_left add l' a
  end.

(** The sum of [u lo], ..., [u (lo + n - 1)] written out: nothing gives
    0.0, one term gives that term, and each further term is added to the
    sum of the terms before it. *)
Fixpoint sum_in_turn (u : nat -> num) (lo n : nat) : num :=
  match n with
  | 0 => zero
  | S n' =>
      match n' with
      | 0 => u lo
      | S _ => sum_in_turn u lo n' +^ u (lo + n')
      end
  end.

(** [np.nansum]: NaN replaced by zero, then summed. *)
Definition np_nansum (l : list num) : num :=
  np_sum (map (fun v => if isnan v then zero else v) l).

(** [np.trapz(y, x=x)]: [(d * (y[1:] + y[:-1]) / 2.0).sum()] with [d = diff(x)]. *)
Definition np_trapz (y x : list num) : outcome num :=
  p <- broadcast_mul (np_diff x) (pair_sums y) ;;
  Ok (np_sum (map (fun t => t /^ two) p)).

(** [DataArray.integrate]: [sum(dx * 0.5 * (y[1:] + y[:-1]), skipna=False)];
    the values and their coordinate have one length. *)
Definition xr_integrate (y x : list num) : num :=
  np_sum (map2 (fun dx s => dx *^ half *^ s) (np_diff x) (pair_sums y)).

(** [np.argmin]: the first position of the least value; a NaN counts as
    least and ends the scan. *)
Fixpoint argmin_scan (best_i : nat) (best : num) (i : nat) (l : list num) : nat :=
  match l with
  | [] => best_i
  | v :: l' =>
      if best <=^? v then argmin_scan best_i best (S i) l'
      else if isnan v then i
      else argmin_scan i v (S i) l'
  end.

Definition np_argmin (l : list num) : outcome nat :=
  match l with
  | [] => Raise ValueError
  | v :: l' => if isnan v then Ok 0 else Ok (argmin_scan 0 v 1 l')
  end.

(** pandas: the position of a label in an index with distinct labels. *)
Fixpoint get_loc (axis : list num) (label : num) : option nat :=
  match axis with
  | [] => None
  | a :: axis' =>
      if a ==^? label then Some 0
      else option_map S (get_loc axis' label)
  end.

Fixpoint is_monotonic_increasing (axis : list num) : bool :=
  match axis with
  | a :: (b :: _) as t => (a <=^? b) && is_monotonic_increasing t
  | _ => true
  end.

Fixpoint is_monotonic_decreasing (axis : list num) : bool :=
  match axis with
  | a :: (b :: _) as t => (b <=^? a) && is_monotonic_decreasing t
  | _ => true
  end.

Inductive side : Type := Left | Right.

(** The order in which numpy sorts and searches floats: NaN stands after
    every number. *)
Definition np_less (a b : num) : bool :=
  (a <^? b) || (isnan b && negb (isnan a)).

(** The comparison [np.searchsorted] makes on a side: the elements that
    pass it stand before the insertion point of [label]. *)
Definition side_test (sd : side) (label a : num) : bool :=
  match sd with
  | Left => np_less a label
  | Right => negb (np_less label a)
  end.

(** [np.searchsorted] on an increasing array: the number of elements
    before the insertion point. *)
Fixpoint searchsorted (axis : list num) (label : num) (sd : side) : nat :=
  match axis with
  | [] => 0
  | a :: axis' =>
      if side_test sd label a
      then S (searchsorted axis' label sd)
      else 0
  end.

Definition opposite (sd : side) : side :=
  match sd with
  | Left => Right
  | Right => Left
  end.

(** [Index._searchsorted_monotonic] *)
Definition searchsorted_monotonic (axis : list num) (label : num) (sd : side)
  : outcome nat :=
  if is_monotonic_increasing axis then Ok (searchsorted axis label sd)
  else if is_monotonic_decreasing axis
       then Ok (length axis - searchsorted (rev axis) label (opposite sd))
       else Raise KeyError.

(** [Index.get_slice_bound]: the label's own position when the index has
    it (one past it on the right side), the insertion point otherwise. *)
Definition get_slice_bound (axis : list num) (label : num) (sd : side) : outcome nat :=
  match get_loc axis label with
  | Some i => Ok (match sd with Left => i | Right => S i end)
  | None => searchsorted_monotonic axis label sd
  end.

(** [Index.slice_indexer(start, stop)]: the positions of [slice(start, stop)]. *)
Definition slice_indexer (axis : list num) (start stop : num) : outcome (nat * nat) :=
  lo <- get_slice_bound axis start Left ;;
  hi <- get_slice_bound axis stop Right ;;
  Ok (lo, hi).

(** [arr.where(c)] at one point *)
Definition where_ (c : bool) (v : num) : num := if c then v else nan.

End Libraries.

(** ** The notebook *)

Section Notebook.

Context {num : Type} {A : Arith num}.

(** *** Constants *)

(** [plev_FT = 50000.]: the free-tropospheric reference level, in Pa. *)
Definition plev_FT : num := of_Z 50000.

(** The upper end [100000.] of [slice(pressure, 100000.)]: the surface
    reference, in Pa. *)
Definition p_surface : num := of_Z 100000.

(** The bounds and the iteration cap handed to [dual_annealing]. *)
Definition ehat_bounds : num * num := (of_Z 1 /^ of_Z 10, of_Z 2 /^ of_Z 10).
Definition maxiter : nat := 1000.

(** *** One column of the pressure-weighted virtual temperature

    A column is the list of the values of a field at the levels of
    [plev_array], in the order of that axis. *)

(** [arr.sel(plev = slice(lo, hi))] on one column *)
Definition sel_plev {T : Type} (plev_array : list num) (col : list T) (lo hi : num)
  : outcome (list T) :=
  b <- slice_indexer plev_array lo hi ;;
  Ok (isel_slice col (fst b) (snd b)).

(** The body of the loop over [plev_index] for one field [fld]
    ([virtual_temp_by_p] for [part1], [1/pfull] for [part2]). *)
Definition part_at (plev_array fld : list num) (plev_index : nat) : outcome num :=
  let pressure := nth plev_index plev_array nan in
  parti <- sel_plev plev_array fld pressure p_surface ;;
  plevi <- sel_plev plev_array plev_array pressure p_surface ;;
  if pressure ==^? last plev_array nan
  then match parti with
       | [] => Raise IndexError
       | v :: _ => Ok v
       end
  else Ok (xr_integrate parti plevi).

Definition part (plev_array fld : list num) : outcome (list num) :=
  mapM (part_at plev_array fld) (seq 0 (length plev_array)).

Definition virtual_temp_by_p (virtual_temp pfull : list num) : list num :=
  map2 div virtual_temp pfull.

Definition inv_pfull (pfull : list num) : list num :=
  map (fun p => one /^ p) pfull.

(** [virtual_temperature_pressure_weighted = part1/part2] *)
Definition virtual_temperature_pressure_weighted
  (plev_array virtual_temp pfull : list num) : outcome (list num) :=
  part1 <- part plev_array (virtual_temp_by_p virtual_temp pfull) ;;
  part2 <- part plev_array (inv_pfull pfull) ;;
  Ok (map2 div part1 part2).

(** *** The integrand

    [dhdp = (virtual_temp/virtual_temperature_pressure_weighted)
            *(-Lv*sat_def)/(pfull*np.log(pfull/ps))]
    at one level; [Lv] and the logarithm come from metpy and numpy. *)

Variable Lv : num.
Variable log : num -> num.

Definition dhdp_at (tv tvw sd p ps : num) : num :=
  ((tv /^ tvw) *^ (opp Lv *^ sd)) /^ (p *^ log (p /^ ps)).

Definition dhdp (virtual_temp tvw sat_def pfull : list num) (ps : num) : list num :=
  map (fun k => dhdp_at (nth k virtual_temp nan) (nth k tvw nan)
                        (nth k sat_def nan) (nth k pfull nan) ps)
      (seq 0 (length pfull)).

(** *** The adjustment of one column *)

(** [np.argmin(np.abs(plev_array - p))] *)
Definition nearest_level (plev_array : list num) (p : num) : outcome nat :=
  np_argmin (map (fun pk => absv (pk -^ p)) plev_array).

(** The body of the loop over [month], [lati], [loni]: [dhdp_col] is the
    column of [dhdp] and [lcli] the column's LCL pressure. *)
Definition adjustment (plev_array dhdp_col : list num) (lcli : num) : outcome num :=
  plev_FT_index <- nearest_level plev_array plev_FT ;;
  lcl_plev <- nearest_level plev_array lcli ;;
  dhdp_500_to_lcl <- sel_plev plev_array dhdp_col plev_FT (nth lcl_plev plev_array nan) ;;
  let plev_500_to_lcl := isel_slice plev_array plev_FT_index (lcl_plev + 1) in
  np_trapz dhdp_500_to_lcl plev_500_to_lcl.

(** [np.trapz] on the positional slices [lo..hi] of the column and of the
    axis, over the positions of the whole column. *)
Definition trapezoid (plev_array dhdp_col : list num) (lo hi : nat) : num :=
  np_sum (map (fun i => ((nth (S i) plev_array nan -^ nth i plev_array nan)
                          *^ (nth (S i) dhdp_col nan +^ nth i dhdp_col nan)) /^ two)
              (seq lo (hi - lo))).

(** The trapezoidal rule in the words of the specification: the area of
    the trapezoid between level [j] and the next one, with the pressures
    of the axis as abscissae, and the areas from level [lo] to level [hi]
    added in turn. *)
Definition trapezoid_area (plev_array dhdp_col : list num) (j : nat) : num :=
  ((nth (S j) plev_array nan -^ nth j plev_array nan)
   *^ (nth (S j) dhdp_col nan +^ nth j dhdp_col nan)) /^ two.

Definition trapezoidal_rule (plev_array dhdp_col : list num) (lo hi : nat) : num :=
  sum_in_turn (trapezoid_area plev_array dhdp_col) lo (hi - lo).

End Notebook.

(** ** Area-weighted fractions *)

Section Fractions.

Context {num : Type} {A : Arith num}.

(** The sizes of the [month], [lat] and [lon] axes that the fields of one
    experiment share.  A field over the grid is a function of the three
    positions; [weights] is a function of the latitude position alone and
    the land mask of [regionmask] a function of latitude and longitude.
    xarray combines fields by the names of their axes, so a field that
    lacks an axis is the same along it.  Every field the notebook hands to
    the three functions below has the three axes: this is their branch
    [np.ndim(...) == 3]. *)
Record grid : Type := { n_month : nat; n_lat : nat; n_lon : nat }.

Definition field3 : Type := nat -> nat -> nat -> num.

Definition points (g : grid) : list (nat * nat * nat) :=
  flat_map (fun m =>
    flat_map (fun la =>
      map (fun lo => (m, la, lo)) (seq 0 (n_lon g)))
      (seq 0 (n_lat g)))
    (seq 0 (n_month g)).

Definition at_point (f : field3) (pt : nat * nat * nat) : num :=
  let '(m, la, lo) := pt in f m la lo.

(** [arr.sum()] of xarray on a field of floats: NaN skipped. *)
Definition xr_sum (g : grid) (f : field3) : num :=
  np_nansum (map (at_point f) (points g)).

(** [weights.where(landmask.notnull()==False)]: the weight of the latitude
    where the mask is null, NaN where the mask holds a value. *)
Definition masked_weights (weights : nat -> num) (landmask : field3) : field3 :=
  fun m la lo => where_ (isnan (landmask m la lo)) (weights la).

(** [(weights * ones(len(month))).T * ones(len(lon))] *)
Definition weights_3Darray (weights : nat -> num) (landmask : field3) : field3 :=
  fun m la lo => (masked_weights weights landmask m la lo *^ one) *^ one.

(** [weights_3Darray.where(instab_index > 0)] *)
Definition instab_weights (hsfc hsat500 : field3) (weights : nat -> num)
  (landmask : field3) : field3 :=
  fun m la lo =>
    let instab_index := hsfc m la lo -^ hsat500 m la lo in
    where_ (zero <^? instab_index) (weights_3Darray weights landmask m la lo).

Definition proportion_overcome_conv_threshold (g : grid) (hsfc hsat500 : field3)
  (weights : nat -> num) (landmask : field3) : num :=
  xr_sum g (instab_weights hsfc hsat500 weights landmask)
  /^ xr_sum g (weights_3Darray weights landmask).

(** [weights_3Darray.where(wap500 < 0)] *)
Definition ascent_weights (wap500 : field3) (weights : nat -> num)
  (landmask : field3) : field3 :=
  fun m la lo =>
    where_ (wap500 m la lo <^? zero) (weights_3Darray weights landmask m la lo).

Definition calc_ascent_frac (g : grid) (wap500 : field3)
  (weights : nat -> num) (landmask : field3) : num :=
  xr_sum g (ascent_weights wap500 weights landmask)
  /^ xr_sum g (weights_3Darray weights landmask).

(** [weights_3Darray.where(arr.notnull()==True)] *)
Definition coverage_weights (arr : field3) (weights : nat -> num)
  (landmask : field3) : field3 :=
  fun m la lo =>
    where_ (negb (isnan (arr m la lo))) (weights_3Darray weights landmask m la lo).

Definition calc_prop (g : grid) (arr : field3)
  (weights : nat -> num) (landmask : field3) : num :=
  xr_sum g (coverage_weights arr weights landmask)
  /^ xr_sum g (weights_3Darray weights landmask).

(** *** The mask of the calibration

    [regionmask] gives a number on land and NaN elsewhere, over [lat] and
    [lon].  The notebook turns it into a field that is 0 where a point is
    left out and NaN where it is kept:
    [xr.ones_like(wap500_ctrl).where(landmask.notnull()==False)
       .where(adjustment_ctrl.notnull()==True)], then
    [xr.zeros_like(landmask).where(landmask != 1)]. *)
Definition kept_points (land : nat -> nat -> num) (adjustment_ctrl : field3) : field3 :=
  fun m la lo =>
    where_ (negb (isnan (adjustment_ctrl m la lo)))
           (where_ (isnan (land la lo)) one).

Definition calibration_landmask (land : nat -> nat -> num) (adjustment_ctrl : field3)
  : field3 :=
  fun m la lo =>
    where_ (negb (kept_points land adjustment_ctrl m la lo ==^? one)) zero.

(** [arr.where(landmask.notnull()==False)] *)
Definition on_kept (landmask : field3) (f : field3) : field3 :=
  fun m la lo => where_ (isnan (landmask m la lo)) (f m la lo).

(** *** The objective

    The fields carry units: metpy's [moist_static_energy] gives [hsfc] and
    [hsat500] in kJ/kg, and the notebook gives [adjustment] the units J/kg.
    In [hsfc - adjustment*ehat] pint brings the product to the units of
    [hsfc] before it subtracts; [to_hsfc_units] is that conversion of a
    magnitude.  [instab_index = hsfc - hsat500] and the comparisons with 0
    are then on magnitudes in one unit. *)

Variable to_hsfc_units : num -> num.

(** [hsfc - adjustment*ehat], the first argument that [func] hands to
    [proportion_overcome_conv_threshold]. *)
Definition entrained (ehat : num) (hsfc adjustment_f : field3) : field3 :=
  fun m la lo => hsfc m la lo -^ to_hsfc_units (adjustment_f m la lo *^ ehat).

Definition func (g : grid) (weights : nat -> num) (landmask : field3)
  (ehat : num) (hsfc adjustment_f hsat500 wap500 : field3) : num :=
  let index :=
    proportion_overcome_conv_threshold g
      (entrained ehat hsfc adjustment_f)
      hsat500 weights landmask in
  let alpha_up := calc_ascent_frac g wap500 weights landmask in
  absv (alpha_up -^ index).

(** The objective as [dual_annealing] is given it: the four fields
    restricted to the kept points. *)
Definition calibration_objective (g : grid) (weights : nat -> num)
  (land : nat -> nat -> num) (hsfc_ctrl adjustment_ctrl hsat500_ctrl wap500_ctrl : field3)
  (ehat : num) : num :=
  let landmask := calibration_landmask land adjustment_ctrl in
  func g weights landmask ehat
       (on_kept landmask hsfc_ctrl) (on_kept landmask adjustment_ctrl)
       (on_kept landmask hsat500_ctrl) (on_kept landmask wap500_ctrl).

End Fractions.

(** ** What the proofs use of an arithmetic

    NaN is absorbing and unordered; away from NaN the comparisons are those
    of a total order.  Both [binary64] and [exact] satisfy these laws. *)

Class ArithLaws {num : Type} (A : Arith num) : Prop := {
  isnan_spec : forall x, isnan x = true <-> x = nan;
  add_nan_l : forall x, nan +^ x = nan;
  add_nan_r : forall x, x +^ nan = nan;
  sub_nan_l : forall x, nan -^ x = nan;
  sub_nan_r : forall x, x -^ nan = nan;
  mul_nan_l : forall x, nan *^ x = nan;
  mul_nan_r : forall x, x *^ nan = nan;
  div_nan_l : forall x, nan /^ x = nan;
  div_nan_r : forall x, x /^ nan = nan;
  absv_nan : absv nan = nan;
  of_Z_not_nan : forall z, isnan (of_Z z) = false;
  add_zero_zero : zero +^ zero = zero;
  div_zero_zero : zero /^ zero = nan;
  leb_spec : forall a b, (a <=^? b) = (a <^? b) || (a ==^? b);
  ltb_not_nan : forall a b, (a <^? b) = true -> isnan a = false /\ isnan b = false;
  eqb_not_nan : forall a b, (a ==^? b) = true -> isnan a = false /\ isnan b = false;
  eqb_refl : forall a, isnan a = false -> (a ==^? a) = true;
  eqb_sym : forall a b, (a ==^? b) = (b ==^? a);
  ltb_total : forall a b, isnan a = false -> isnan b = false ->
    (a <^? b) = true \/ (a ==^? b) = true \/ (b <^? a) = true;
  ltb_irrefl : forall a, (a <^? a) = false;
  ltb_trans : forall a b c, (a <^? b) = true -> (b <^? c) = true -> (a <^? c) = true;
  ltb_eqb_trans : forall a b c, (a <^? b) = true -> (b ==^? c) = true -> (a <^? c) = true;
  eqb_ltb_trans : forall a b c, (a ==^? b) = true -> (b <^? c) = true -> (a <^? c) = true;
  ltb_not_eqb : forall a b, (a <^? b) = true -> (a ==^? b) = false
}.

(** The place of a binary64 number in the order of [SFcompare], as a
    triple compared from left to right. *)
Definition b64_key (x : spec_float) : Z * Z * Z :=
  match x with
  | S754_zero _ => (0, 0, 0)
  | S754_nan => (0, 0, 0)
  | S754_infinity false => (2, 0, 0)
  | S754_infinity true => (-2, 0, 0)
  | S754_finite false m e => (1, e, Zpos m)
  | S754_finite true m e => (-1, - e, Zneg m)
  end%Z.

Definition lex3 (a b : Z * Z * Z) : comparison :=
  let '(a1, a2, a3) := a in
  let '(b1, b2, b3) := b in
  match (a1 ?= b1)%Z with
  | Eq => match (a2 ?= b2)%Z with
          | Eq => (a3 ?= b3)%Z
          | c => c
          end
  | c => c
  end.


(** ** Axes in increasing order *)

Section Axes.
Context {num : Type} {A : Arith num}.
Fixpoint strictly_increasing (axis : list num) : bool :=
  match axis with
  | a :: (b :: _) as t => (a <^? b) && strictly_increasing t
  | _ => true
  end.

(** The value the loop over [plev_index] stores at position [k] when every
    slice is found. *)
Definition part_value (plev_array fld : list num) (k : nat) : num :=
  let n := length plev_array in
  if k =? n - 1 then nth k fld nan
  else xr_integrate (isel_slice fld k n) (isel_slice plev_array k n).
End Axes.

(** ** Signs of binary64 numbers *)

Definition b64_negative (x : spec_float) : bool :=
  match x with
  | S754_infinity true | S754_finite true _ _ => true
  | _ => false
  end.

Definition b64_positive (x : spec_float) : bool :=
  match x with
  | S754_infinity false | S754_finite false _ _ => true
  | _ => false
  end.

Definition b64_finite (x : spec_float) : bool :=
  match x with
  | S754_finite _ _ _ => true
  | _ => false
  end.

(** ** Pressure axes of doubles *)

Definition b64_valid (x : spec_float) : bool := valid_binary prec64 emax64 x.

(** The pressure axis as the notebook needs it: doubles in strictly
    increasing order, the top of the atmosphere first. *)
Definition pressure_axis (plev_array : list spec_float) : bool :=
  strictly_increasing plev_array && forallb b64_valid plev_array.

(** ** Counting the points of a grid *)

Definition count_points (g : grid) (c : nat -> nat -> nat -> bool) : nat :=
  length (filter (fun pt : nat * nat * nat => let '(m, la, lo) := pt in c m la lo)
                 (points g)).

(** ** Sample columns and grids *)

(** Four levels, in Pa, with the 500 hPa level second. *)
Definition ex_plev : list spec_float := map of_Z [25000; 50000; 85000; 100000]%Z.

Definition ex_dhdp : list spec_float := map of_Z [1; 2; 3; 4]%Z.

(** The integrand missing at the 500 hPa level. *)
Definition ex_dhdp_nan : list spec_float := [of_Z 1; nan; of_Z 3; of_Z 4].

Definition ex_virtual_temp : list spec_float := map of_Z [250; 260; 280; 290]%Z.

Definition ex_sat_def : list spec_float := [of_Z 1; of_Z 1; nan; of_Z 1].

(** The same levels from the surface upwards, and an axis with a level
    beyond 1000 hPa. *)
Definition ex_plev_decreasing : list spec_float :=
  map of_Z [100000; 85000; 50000; 25000]%Z.

Definition ex_plev_beyond : list spec_float :=
  map of_Z [50000; 100000; 102500]%Z.

Definition ex_plev_exact : list xnum := map of_Z [25000; 50000; 85000; 100000]%Z.

Definition ex_virtual_temp_exact : list xnum := map of_Z [250; 260; 280; 290]%Z.

(** One month, one latitude, two longitudes. *)
Definition ex_grid : grid := {| n_month := 1; n_lat := 1; n_lon := 2 |}.

(** Vertical velocity missing at the first point, upward at the second. *)
Definition ex_wap : field3 (num := spec_float) :=
  fun _ _ lo => if lo =? 0 then nan else opp one.

Definition ex_wap_exact : field3 (num := xnum) :=
  fun _ _ lo => if lo =? 0 then one else opp one.

Definition ex_ones : field3 (num := spec_float) := fun _ _ _ => one.

Definition ex_land : nat -> nat -> spec_float := fun _ _ => zero.

(** A virtual temperature missing at the bottom level, and a pressure of
    0 Pa there. *)
Definition ex_virtual_temp_missing : list spec_float :=
  [of_Z 250; of_Z 260; of_Z 280; nan].

Definition ex_pfull_zero : list spec_float := map of_Z [25000; 50000; 85000; 0]%Z.


(** A conversion from J/kg to kJ/kg: the magnitude divided by 1000. *)
Definition ex_to_kJ : spec_float -> spec_float := fun v => v /^ of_Z 1000.

(** Two points with a moist static energy of 346 kJ/kg at the surface and
    an adjustment of 25000 J/kg; the saturation value at 500 hPa is
    340 kJ/kg at the first and 345 kJ/kg at the second, and the air rises
    at the first and sinks at the second. *)
Definition ex_hsfc_kJ : field3 (num := spec_float) := fun _ _ _ => of_Z 346.

Definition ex_adjustment_J : field3 (num := spec_float) := fun _ _ _ => of_Z 25000.

Definition ex_hsat_kJ : field3 (num := spec_float) :=
  fun _ _ lo => if lo =? 0 then of_Z 340 else of_Z 345.

Definition ex_wap_updown : field3 (num := spec_float) :=
  fun _ _ lo => if lo =? 0 then opp one else one.

(** ** Selections by label: one level, and the band of latitudes *)

(** [l = 20]: the latitude, in degrees, that bounds the tropics. *)
Module Tropics.
Definition l : Z := 20.
End Tropics.

Section Selections.
Context {num : Type} {A : Arith num}.

(** [arr.sel(plev = label)] on one column: the value at the position of
    the label; a label that the axis lacks raises. *)
Definition sel_level (plev_array col : list num) (label : num) : outcome num :=
  match get_loc plev_array label with
  | Some i => Ok (nth i col nan)
  | None => Raise KeyError
  end.

(** [hlcl[month, lati, loni] = h_ctrl.sel(..., plev = h_ctrl.plev[lcl_plev])]
    on one column of the moist static energy. *)
Definition hlcl (plev_array h_col : list num) (lcli : num) : outcome num :=
  lcl_plev <- nearest_level plev_array lcli ;;
  sel_level plev_array h_col (nth lcl_plev plev_array nan).

(** [arr.sel(lat = slice(-l, l))] on the values of a field along the
    latitude axis. *)
Definition sel_lat {T : Type} (lat_axis : list num) (row : list T) : outcome (list T) :=
  sel_plev lat_axis row (of_Z (- Tropics.l)) (of_Z Tropics.l).

(** An axis from the largest label to the smallest. *)
Fixpoint strictly_decreasing (axis : list num) : bool :=
  match axis with
  | a :: (b :: _) as t => (b <^? a) && strictly_decreasing t
  | _ => true
  end.

(** An axis without a missing label. *)
Definition no_nan (axis : list num) : bool := forallb (fun a => negb (isnan a)) axis.

(** The labels of an axis in decreasing order that stand before the
    bound of a slice at a label that is a number. *)
Definition above_test (sd : side) (label a : num) : bool :=
  match sd with
  | Left => label <^? a
  | Right => label <=^? a
  end.

(** The labels that [slice(start, stop)] asks for. *)
Definition in_slice (start stop a : num) : bool := (start <=^? a) && (a <=^? stop).

End Selections.

(** Latitudes from south to north, and from north to south. *)
Definition ex_lat : list spec_float := map of_Z [-30; -20; -10; 0; 10; 20; 30]%Z.

Definition ex_lat_decreasing : list spec_float := map of_Z [30; 20; 10; 0; -10; -20; -30]%Z.

(** An axis without the 500 hPa level. *)
Definition ex_plev_no_reference : list spec_float := map of_Z [25000; 45000; 85000]%Z.

(** A double that stands for a real number: neither NaN nor infinite. *)
Definition b64_real (x : spec_float) : bool :=
  match x with
  | S754_zero _ | S754_finite _ _ _ => true
  | _ => false
  end.

(** A point that the mask keeps. *)
Definition kept {num : Type} {A : Arith num} (landmask : field3) (m la lo : nat) : bool :=
  isnan (landmask m la lo).

(** Two longitudes, the first over land. *)
Definition ex_coast : nat -> nat -> spec_float :=
  fun _ lo => if lo =? 0 then zero else nan.

(** Instability that rises with the longitude, and its threshold. *)
Definition ex_hsfc : field3 (num := spec_float) :=
  fun _ _ lo => of_Z (Z.of_nat lo).

Definition ex_hsat : field3 (num := spec_float) := fun _ _ _ => half.

(** Weights and fields in exact arithmetic. *)
Definition ex_weights_exact : nat -> xnum := fun _ => one.

(** A column of the integrand in exact arithmetic, and the pressures of
    [ex_plev_exact] as rationals. *)
Definition ex_dhdp_exact : list xnum := map of_Z [1; 2; 3; 4]%Z.

Definition ex_levels : nat -> Qc :=
  fun j => Qc_of_Z (nth j [25000; 50000; 85000; 100000]%Z 0%Z).

Definition ex_values : nat -> Qc :=
  fun j => Qc_of_Z (nth j [1; 2; 3; 4]%Z 0%Z).

Definition ex_temps : nat -> Qc :=
  fun j => Qc_of_Z (nth j [250; 260; 280; 290]%Z 0%Z).

(** ** The loop over the columns of one experiment *)

Section ColumnLoop.
Context {num : Type} {A : Arith num}.

(** [months = np.arange(1,13,1)]: the labels of the twelve months. *)
Definition months : list Z := [1; 2; 3; 4; 5; 6; 7; 8; 9; 10; 11; 12]%Z.

(** The position of a label on an axis of whole numbers with distinct
    labels, as the month axis is. *)
Fixpoint get_loc_Z (axis : list Z) (label : Z) : option nat :=
  match axis with
  | [] => None
  | a :: axis' =>
      if (a =? label)%Z then Some 0
      else option_map S (get_loc_Z axis' label)
  end.

(** A label that [sel] does not find raises. *)
Definition located (o : option nat) : outcome nat :=
  match o with
  | Some i => Ok i
  | None => Raise KeyError
  end.

(** The body of the loop over [month], [lati] and [loni].  The fields are
    given by position: [dhdp_cols m la lo] and [h_cols m la lo] are the
    columns of [dhdp] and of [h_ctrl] at the positions [m], [la], [lo] of
    their axes, whose labels are [month_axis], [lat] and [lon]; [lcl_p], on
    the same axes, is read by position, and the columns are selected by
    label.  The two values are those stored in [adjustment] and [hlcl]. *)
Definition column_at (month_axis : list Z) (lat lon plev_array : list num)
  (dhdp_cols h_cols : nat -> nat -> nat -> list num) (lcl_p : field3)
  (plev_FT_index month lati loni : nat) : outcome (num * num) :=
  lcli <- (if month <? length month_axis then Ok (lcl_p month lati loni)
           else Raise IndexError) ;;
  lcl_plev <- nearest_level plev_array lcli ;;
  m <- located (get_loc_Z month_axis (Z.of_nat month + 1)) ;;
  la <- located (get_loc lat (nth lati lat nan)) ;;
  lo <- located (get_loc lon (nth loni lon nan)) ;;
  dhdp_500_to_lcl <-
    sel_plev plev_array (dhdp_cols m la lo) plev_FT (nth lcl_plev plev_array nan) ;;
  a <- np_trapz dhdp_500_to_lcl (isel_slice plev_array plev_FT_index (lcl_plev + 1)) ;;
  h <- sel_level plev_array (h_cols m la lo) (nth lcl_plev plev_array nan) ;;
  Ok (a, h).

(** [for month in range(12): for lati in range(len(lat)):
     for loni in range(len(lon)): ...], with [plev_FT_index] found before
    the loop; the values of [adjustment] and [hlcl] in the order of the
    loop. *)
Definition column_loop (month_axis : list Z) (lat lon plev_array : list num)
  (dhdp_cols h_cols : nat -> nat -> nat -> list num) (lcl_p : field3)
  : outcome (list (num * num)) :=
  plev_FT_index <- nearest_level plev_array plev_FT ;;
  mapM (fun pt : nat * nat * nat =>
          let '(month, lati, loni) := pt in
          column_at month_axis lat lon plev_array dhdp_cols h_cols lcl_p
                    plev_FT_index month lati loni)
       (points {| n_month := 12; n_lat := length lat; n_lon := length lon |}).

End ColumnLoop.

(** Two longitudes at one latitude; columns that do not depend on the
    point; months numbered from 0. *)
Definition ex_lon : list spec_float := map of_Z [0; 180]%Z.

Definition ex_lat_one : list spec_float := [zero].

Definition ex_months_from_zero : list Z := [0; 1; 2; 3; 4; 5; 6; 7; 8; 9; 10; 11]%Z.

Unset Implicit Arguments.

(** * Proofs *)

(** ** Rounding in [SpecFloat]

    [binary_round_aux] shifts a mantissa to the exponent of its format and
    rounds it to nearest even.  Three facts about it serve below: it never
    answers NaN, it keeps a mantissa from rounding to zero when the
    exponent is within range, and so the difference of two different valid
    numbers is not zero. *)

Section Binary64NotNaN.
Variables prec emax : Z.

Lemma shr_1_nonneg mrs : (0 <= shr_m mrs)%Z -> (0 <= shr_m (shr_1 mrs))%Z.
Proof.
  destruct mrs as [m r s]. destruct m as [|[p|p|]|p]; simpl; intros H; lia.
Qed.

Lemma iter_pos_shr_1_nonneg p : forall mrs,
  (0 <= shr_m mrs)%Z -> (0 <= shr_m (iter_pos shr_1 p mrs))%Z.
Proof.
  induction p as [p IH|p IH|]; intros mrs H; simpl.
  - apply IH, IH, shr_1_nonneg, H.
  - apply IH, IH, H.
  - apply shr_1_nonneg, H.
Qed.

Lemma shr_nonneg mrs e n :
  (0 <= shr_m mrs)%Z -> (0 <= shr_m (fst (shr mrs e n)))%Z.
Proof.
  intros H. destruct n; simpl; auto. apply iter_pos_shr_1_nonneg, H.
Qed.

Lemma shr_record_of_loc_m m l : shr_m (shr_record_of_loc m l) = m.
Proof. destruct l as [|[]]; reflexivity. Qed.

Lemma shr_fexp_nonneg m e l :
  (0 <= m)%Z -> (0 <= shr_m (fst (shr_fexp prec emax m e l)))%Z.
Proof.
  intros H. unfold shr_fexp. apply shr_nonneg. rewrite shr_record_of_loc_m. exact H.
Qed.

Lemma round_nearest_even_nonneg m l : (0 <= m)%Z -> (0 <= round_nearest_even m l)%Z.
Proof.
  intros H. destruct l as [|[]]; simpl; try assumption; try lia.
  destruct (Z.even m); lia.
Qed.

Lemma binary_round_aux_not_nan sx mx ex lx :
  (0 <= mx)%Z -> b64_isnan (binary_round_aux prec emax sx mx ex lx) = false.
Proof.
  intros H. unfold binary_round_aux.
  pose proof (shr_fexp_nonneg mx ex lx H) as H1.
  destruct (shr_fexp prec emax mx ex lx) as [mrs' e'].
  simpl in H1.
  pose proof (shr_fexp_nonneg _ e' loc_Exact
                (round_nearest_even_nonneg _ (loc_of_shr_record mrs') H1)) as H2.
  destruct (shr_fexp prec emax _ e' loc_Exact) as [mrs'' e''].
  simpl in H2.
  destruct (shr_m mrs'') as [|m|m]; [reflexivity| |lia].
  destruct (e'' <=? emax - prec)%Z; reflexivity.
Qed.

Lemma binary_normalize_not_nan m e szero :
  b64_isnan (binary_normalize prec emax m e szero) = false.
Proof.
  destruct m as [|m|m]; [reflexivity| |]; simpl; unfold binary_round;
    destruct (shl_align m e _) as [mz ez]; apply binary_round_aux_not_nan; lia.
Qed.

Lemma SFdiv_finite_not_nan sx mx ex sy my ey :
  b64_isnan (SFdiv prec emax (S754_finite sx mx ex) (S754_finite sy my ey)) = false.
Proof.
  simpl. unfold SFdiv_core_binary.
  set (s := (ex - ey - _)%Z).
  set (m' := match s with Zpos _ => Z.shiftl (Zpos mx) s | Z0 => Zpos mx | Zneg _ => 0%Z end).
  assert (Hm : (0 <= m')%Z).
  { subst m'. destruct s; try lia. apply Z.shiftl_nonneg. lia. }
  pose proof (Z_div_mod m' (Zpos my) ltac:(lia)) as Hd.
  destruct (Z.div_eucl m' (Zpos my)) as [q r].
  apply binary_round_aux_not_nan.
  destruct Hd as [Hd Hr]. nia.
Qed.
End Binary64NotNaN.

(** A right shift by [p] divides the mantissa by [2 ^ p]; a mantissa of
    [d] digits shifted by [d - prec] keeps [prec] digits. *)

Section Binary64Nonzero.
Variables prec emax : Z.
Hypothesis prec_pos : (0 < prec)%Z.

Lemma digits2_pos_lower (m : positive) :
  (2 ^ (Zpos (digits2_pos m) - 1) <= Zpos m)%Z.
Proof.
  induction m as [m IH|m IH|]; cbn [digits2_pos].
  - rewrite Pos2Z.inj_succ. replace (Z.succ (Zpos (digits2_pos m)) - 1)%Z
      with (Z.succ (Zpos (digits2_pos m) - 1)) by lia.
    rewrite Z.pow_succ_r by lia. lia.
  - rewrite Pos2Z.inj_succ. replace (Z.succ (Zpos (digits2_pos m)) - 1)%Z
      with (Z.succ (Zpos (digits2_pos m) - 1)) by lia.
    rewrite Z.pow_succ_r by lia. lia.
  - simpl. lia.
Qed.

Lemma digits2_pos_upper (m : positive) :
  (Zpos m < 2 ^ Zpos (digits2_pos m))%Z.
Proof.
  induction m as [m IH|m IH|]; cbn [digits2_pos].
  - rewrite Pos2Z.inj_succ, Z.pow_succ_r by lia. lia.
  - rewrite Pos2Z.inj_succ, Z.pow_succ_r by lia. lia.
  - simpl. lia.
Qed.

Lemma shr_1_div2 mrs : (0 <= shr_m mrs)%Z -> shr_m (shr_1 mrs) = (shr_m mrs / 2)%Z.
Proof.
  intros H. rewrite <- Z.div2_div.
  destruct mrs as [m r s]. destruct m as [|[p|p|]|p]; simpl in *; try reflexivity; lia.
Qed.

Lemma iter_pos_shr_1_div p : forall mrs,
  (0 <= shr_m mrs)%Z ->
  shr_m (iter_pos shr_1 p mrs) = (shr_m mrs / 2 ^ Zpos p)%Z.
Proof.
  induction p as [p IH|p IH|]; intros mrs H; cbn [iter_pos].
  - rewrite IH by (apply iter_pos_shr_1_nonneg, shr_1_nonneg, H).
    rewrite IH by (apply shr_1_nonneg, H).
    rewrite shr_1_div2 by exact H.
    assert (E : (2 ^ Zpos p~1 = 2 * (2 ^ Zpos p * 2 ^ Zpos p))%Z).
    { rewrite <- Z.pow_add_r, <- Z.pow_succ_r by lia. f_equal. lia. }
    rewrite E, <- !Z.div_div by lia. reflexivity.
  - rewrite IH by (apply iter_pos_shr_1_nonneg, H).
    rewrite IH by exact H.
    assert (E : (2 ^ Zpos p~0 = 2 ^ Zpos p * 2 ^ Zpos p)%Z).
    { rewrite <- Z.pow_add_r by lia. f_equal. lia. }
    rewrite E, <- !Z.div_div by lia. reflexivity.
  - rewrite shr_1_div2 by exact H. reflexivity.
Qed.

(** Shifting a positive mantissa to its format exponent keeps it positive,
    when the exponent it comes with is not below the least one. *)
Lemma shr_fexp_pos (m : positive) (e : Z) (l : location) :
  (emin prec emax <= e)%Z ->
  (0 < shr_m (fst (shr_fexp prec emax (Zpos m) e l)))%Z /\
  (emin prec emax <= snd (shr_fexp prec emax (Zpos m) e l))%Z.
Proof.
  intros He. unfold shr_fexp, shr, fexp. cbn [Zdigits2].
  set (d := Zpos (digits2_pos m)).
  destruct (Z.max (d + e - prec) (emin prec emax) - e)%Z as [|n|n] eqn:En; cbn [fst snd].
  - rewrite shr_record_of_loc_m. split; lia.
  - rewrite iter_pos_shr_1_div by (rewrite shr_record_of_loc_m; lia).
    rewrite shr_record_of_loc_m. split; [|lia].
    assert (Hn : Zpos n = (d - prec)%Z) by lia.
    pose proof (digits2_pos_lower m) as Hl. fold d in Hl.
    apply Z.div_str_pos. split; [lia|].
    eapply Z.le_trans; [|exact Hl].
    apply Z.pow_le_mono_r; lia.
  - rewrite shr_record_of_loc_m. split; lia.
Qed.

Lemma round_nearest_even_pos m l : (0 < m)%Z -> (0 < round_nearest_even m l)%Z.
Proof.
  intros H. destruct l as [|[]]; simpl; try assumption; try lia.
  destruct (Z.even m); lia.
Qed.

Lemma binary_round_aux_nonzero sx (m : positive) ex lx :
  (emin prec emax <= ex)%Z ->
  match binary_round_aux prec emax sx (Zpos m) ex lx with
  | S754_finite s _ _ | S754_infinity s => s = sx
  | _ => False
  end.
Proof.
  intros He. unfold binary_round_aux.
  destruct (shr_fexp_pos m ex lx He) as [H1 H1e].
  destruct (shr_fexp prec emax (Zpos m) ex lx) as [mrs' e']. cbn [fst snd] in H1, H1e.
  pose proof (round_nearest_even_pos _ (loc_of_shr_record mrs') H1) as Hr.
  destruct (round_nearest_even (shr_m mrs') (loc_of_shr_record mrs')) as [|m1|m1]; try lia.
  destruct (shr_fexp_pos m1 e' loc_Exact H1e) as [H2 _].
  destruct (shr_fexp prec emax (Zpos m1) e' loc_Exact) as [mrs'' e'']. cbn [fst] in H2.
  destruct (shr_m mrs'') as [|m2|m2]; try lia.
  destruct (e'' <=? emax - prec)%Z; reflexivity.
Qed.

Lemma fexp_ge_emin e : (emin prec emax <= fexp prec emax e)%Z.
Proof. unfold fexp. lia. Qed.

Lemma binary_round_nonzero sx (m : positive) e :
  (emin prec emax <= e)%Z ->
  match binary_round prec emax sx m e with
  | S754_finite s _ _ | S754_infinity s => s = sx
  | _ => False
  end.
Proof.
  intros He. unfold binary_round, shl_align.
  destruct (fexp prec emax (Zpos (digits2_pos m) + e) - e)%Z eqn:Ed;
    apply binary_round_aux_nonzero; try exact He.
  pose proof (fexp_ge_emin (Zpos (digits2_pos m) + e)). lia.
Qed.

End Binary64Nonzero.

Section Binary64Sub.
Variables prec emax : Z.
Hypothesis prec_pos : (0 < prec)%Z.

Lemma Pos_iter_xO_value (m d : positive) :
  Zpos (Pos.iter xO m d) = (Zpos m * 2 ^ Zpos d)%Z.
Proof.
  induction d as [|d IH] using Pos.peano_ind.
  - simpl. lia.
  - rewrite Pos.iter_succ, Pos2Z.inj_xO, IH, Pos2Z.inj_succ, Z.pow_succ_r by lia. lia.
Qed.

Lemma shl_align_value (m : positive) (e e' : Z) :
  (e' <= e)%Z -> Zpos (fst (shl_align m e e')) = (Zpos m * 2 ^ (e - e'))%Z.
Proof.
  intros H. unfold shl_align. destruct (e' - e)%Z as [|d|d] eqn:E; cbn [fst]; try lia.
  - replace (e - e')%Z with 0%Z by lia. lia.
  - rewrite Pos_iter_xO_value. f_equal. f_equal. lia.
Qed.

Lemma valid_finite_bounds (s : bool) (m : positive) (e : Z) :
  valid_binary prec emax (S754_finite s m e) = true ->
  (emin prec emax <= e)%Z /\ (Zpos (digits2_pos m) <= prec)%Z /\
  ((emin prec emax < e)%Z -> Zpos (digits2_pos m) = prec).
Proof.
  simpl. unfold bounded, canonical_mantissa, fexp. intros H.
  apply andb_true_iff in H. destruct H as [H _]. apply Z.eqb_eq in H. lia.
Qed.

(** The difference of a valid number and a greater valid positive number
    is negative: it does not round to zero. *)
Lemma SFsub_below_negative (x : spec_float) (my : positive) (ey : Z) :
  valid_binary prec emax x = true ->
  valid_binary prec emax (S754_finite false my ey) = true ->
  SFltb x (S754_finite false my ey) = true ->
  b64_negative (SFsub prec emax x (S754_finite false my ey)) = true.
Proof.
  intros Vx Vy Hlt. destruct x as [sx|[|]| |sx mx ex]; try discriminate; try reflexivity.
  destruct (valid_finite_bounds _ _ _ Vx) as (Hex & Hdx & Hnx).
  destruct (valid_finite_bounds _ _ _ Vy) as (Hey & Hdy & Hny).
  cbn [SFsub].
  set (ez := Z.min ex ey).
  assert (Hez : (emin prec emax <= ez)%Z) by (subst ez; lia).
  set (z := (cond_Zopp sx (Zpos (fst (shl_align mx ex ez)))
             - cond_Zopp false (Zpos (fst (shl_align my ey ez))))%Z).
  assert (Hz : (z < 0)%Z).
  { subst z. rewrite !shl_align_value by (subst ez; lia).
    pose proof (Z.pow_pos_nonneg 2 (ex - ez) ltac:(lia) ltac:(subst ez; lia)) as P1.
    pose proof (Z.pow_pos_nonneg 2 (ey - ez) ltac:(lia) ltac:(subst ez; lia)) as P2.
    destruct sx; cbn [cond_Zopp]; [nia|].
    unfold SFltb in Hlt. cbn [SFcompare] in Hlt.
    destruct (Z.compare_spec ex ey) as [E|E|E]; try discriminate.
    - rewrite Pos.compare_cont_spec in Hlt. cbn [Pos.switch_Eq] in Hlt.
      destruct (Pos.compare_spec mx my) as [C|C|C]; try discriminate.
      subst ez. rewrite E, Z.min_id, Z.sub_diag, Z.pow_0_r, !Z.mul_1_r. lia.
    - subst ez. rewrite Z.min_l, Z.sub_diag by lia. rewrite Z.pow_0_r, Z.mul_1_r.
      specialize (Hny ltac:(lia)).
      pose proof (digits2_pos_upper mx) as U.
      pose proof (digits2_pos_lower my) as Lo. rewrite Hny in Lo.
      assert (Hp : (2 ^ Zpos (digits2_pos mx) <= 2 ^ prec)%Z)
        by (apply Z.pow_le_mono_r; lia).
      assert (H2 : (2 * 2 ^ (prec - 1) = 2 ^ prec)%Z).
      { rewrite <- Z.pow_succ_r by lia. f_equal. lia. }
      assert (H3 : (2 <= 2 ^ (ey - ex))%Z).
      { replace 2%Z with (2 ^ 1)%Z at 1 by reflexivity. apply Z.pow_le_mono_r; lia. }
      nia. }
  destruct z as [|p|p] eqn:Ez; try lia.
  cbn [binary_normalize].
  pose proof (binary_round_nonzero prec emax prec_pos true p ez Hez) as R.
  destruct (binary_round prec emax true p ez); try contradiction; subst; reflexivity.
Qed.

End Binary64Sub.

Section Binary64Exact.
Variables prec emax : Z.
Hypothesis prec_pos : (0 < prec)%Z.

Lemma digits2_pos_unique (m : positive) (d : Z) :
  (2 ^ (d - 1) <= Zpos m < 2 ^ d)%Z -> Zpos (digits2_pos m) = d.
Proof.
  intros [Hl Hu].
  pose proof (digits2_pos_lower m) as Ll. pose proof (digits2_pos_upper m) as Lu.
  assert (Hd : (1 <= d)%Z).
  { destruct (Z.le_gt_cases d 0) as [Hd|Hd]; [exfalso|lia].
    destruct (Z.eq_dec d 0) as [->|Hn]; [simpl in Hu; lia|].
    rewrite Z.pow_neg_r in Hu by lia. lia. }
  assert (H1 : (Zpos (digits2_pos m) - 1 < d)%Z).
  { apply (Z.pow_lt_mono_r_iff 2); lia. }
  assert (H2 : (d - 1 < Zpos (digits2_pos m))%Z).
  { apply (Z.pow_lt_mono_r_iff 2); lia. }
  lia.
Qed.

Lemma digits2_pos_shift (N m : positive) (a : Z) :
  (0 <= a)%Z -> Zpos m = (Zpos N * 2 ^ a)%Z ->
  Zpos (digits2_pos m) = (Zpos (digits2_pos N) + a)%Z.
Proof.
  intros Ha Hm. apply digits2_pos_unique. rewrite Hm.
  pose proof (digits2_pos_lower N) as Ll. pose proof (digits2_pos_upper N) as Lu.
  pose proof (Z.pow_pos_nonneg 2 a ltac:(lia) Ha) as Hp.
  replace (Zpos (digits2_pos N) + a - 1)%Z with (Zpos (digits2_pos N) - 1 + a)%Z by lia.
  rewrite !Z.pow_add_r by lia. split; nia.
Qed.

(** Shifting out zeros is exact: it leaves the quotient and raises no
    flag. *)
Lemma iter_pos_shr_1_exact (p : positive) : forall (m q : positive),
  Zpos m = (Zpos q * 2 ^ Zpos p)%Z ->
  iter_pos shr_1 p {| shr_m := Zpos m; shr_r := false; shr_s := false |}
  = {| shr_m := Zpos q; shr_r := false; shr_s := false |}.
Proof.
  assert (Step : forall m q : positive, Zpos m = (Zpos q * 2)%Z ->
            shr_1 {| shr_m := Zpos m; shr_r := false; shr_s := false |}
            = {| shr_m := Zpos q; shr_r := false; shr_s := false |}).
  { intros m q H. destruct m as [m|m|]; try lia.
    simpl. f_equal. lia. }
  induction p as [p IH|p IH|]; intros m q H; cbn [iter_pos].
  - pose proof (Z.pow_pos_nonneg 2 (Zpos p) ltac:(lia) ltac:(lia)) as Hp.
    assert (E : (2 ^ Zpos p~1 = 2 * (2 ^ Zpos p * 2 ^ Zpos p))%Z).
    { rewrite <- Z.pow_add_r, <- Z.pow_succ_r by lia. f_equal. lia. }
    rewrite E in H.
    rewrite (Step m (Z.to_pos (Zpos q * 2 ^ Zpos p * 2 ^ Zpos p))) by (rewrite Z2Pos.id; nia).
    rewrite (IH _ (Z.to_pos (Zpos q * 2 ^ Zpos p))) by (rewrite !Z2Pos.id; nia).
    apply IH. rewrite Z2Pos.id; nia.
  - pose proof (Z.pow_pos_nonneg 2 (Zpos p) ltac:(lia) ltac:(lia)) as Hp.
    assert (E : (2 ^ Zpos p~0 = 2 ^ Zpos p * 2 ^ Zpos p)%Z).
    { rewrite <- Z.pow_add_r by lia. f_equal. lia. }
    rewrite E in H.
    rewrite (IH m (Z.to_pos (Zpos q * 2 ^ Zpos p))) by (rewrite !Z2Pos.id; nia).
    apply IH. rewrite Z2Pos.id; nia.
  - apply Step. rewrite H. reflexivity.
Qed.

(** Rounding a mantissa that is [q] followed by [n] zeros, with [q] of
    full precision, gives [q] at the exponent raised by [n]. *)
Lemma binary_round_aux_exact (mz q : positive) (ez n : Z) :
  (0 <= n)%Z -> Zpos mz = (Zpos q * 2 ^ n)%Z ->
  Zpos (digits2_pos q) = prec ->
  (emin prec emax <= ez + n)%Z -> (ez + n <= emax - prec)%Z ->
  binary_round_aux prec emax false (Zpos mz) ez loc_Exact
  = S754_finite false q (ez + n).
Proof.
  intros Hn Hm Hq Hlo Hhi.
  assert (Hd : Zpos (digits2_pos mz) = (prec + n)%Z).
  { rewrite (digits2_pos_shift q mz n Hn Hm), Hq. reflexivity. }
  assert (S1 : shr_fexp prec emax (Zpos mz) ez loc_Exact
               = ({| shr_m := Zpos q; shr_r := false; shr_s := false |}, (ez + n)%Z)).
  { unfold shr_fexp, fexp. cbn [Zdigits2 shr_record_of_loc]. rewrite Hd.
    replace (Z.max (prec + n + ez - prec) (emin prec emax) - ez)%Z with n by lia.
    unfold shr. destruct n as [|n|n]; try lia.
    - f_equal; [|lia]. f_equal. rewrite Z.pow_0_r in Hm. lia.
    - rewrite (iter_pos_shr_1_exact n mz q Hm). reflexivity. }
  assert (S2 : shr_fexp prec emax (Zpos q) (ez + n) loc_Exact
               = ({| shr_m := Zpos q; shr_r := false; shr_s := false |}, (ez + n)%Z)).
  { unfold shr_fexp, fexp. cbn [Zdigits2 shr_record_of_loc]. rewrite Hq.
    replace (Z.max (prec + (ez + n) - prec) (emin prec emax) - (ez + n))%Z with 0%Z by lia.
    reflexivity. }
  unfold binary_round_aux. rewrite S1. cbn [shr_m loc_of_shr_record round_nearest_even].
  rewrite S2. cbn [shr_m].
  apply Z.leb_le in Hhi. rewrite Hhi. reflexivity.
Qed.

(** [binary_round] of [N * 2 ^ a] at exponent [e] is the one number of
    full precision with that value. *)
Lemma binary_round_shifted (N m q : positive) (a e : Z) :
  let d := Zpos (digits2_pos N) in
  (0 <= a)%Z -> (d <= prec)%Z ->
  Zpos m = (Zpos N * 2 ^ a)%Z ->
  Zpos q = (Zpos N * 2 ^ (prec - d))%Z ->
  (emin prec emax <= d + a + e - prec)%Z -> (d + a + e - prec <= emax - prec)%Z ->
  binary_round prec emax false m e = S754_finite false q (d + a + e - prec).
Proof.
  intros d Ha Hd Hm Hq Hlo Hhi.
  assert (Dm : Zpos (digits2_pos m) = (d + a)%Z) by (apply digits2_pos_shift; assumption).
  assert (Dq : Zpos (digits2_pos q) = prec).
  { rewrite (digits2_pos_shift N q (prec - d)) by (try assumption; lia). fold d. lia. }
  unfold binary_round. rewrite Dm. unfold fexp.
  replace (Z.max (d + a + e - prec) (emin prec emax)) with (d + a + e - prec)%Z by lia.
  unfold shl_align.
  destruct (d + a + e - prec - e)%Z as [|n|n] eqn:En.
  - replace (d + a + e - prec)%Z with (e + 0)%Z by lia.
    apply binary_round_aux_exact; try lia.
    rewrite Hm, Hq, Z.pow_0_r, Z.mul_1_r. replace a with (prec - d)%Z by lia. reflexivity.
  - replace (d + a + e - prec)%Z with (e + Zpos n)%Z by lia.
    apply binary_round_aux_exact; try lia.
    rewrite Hm, Hq. rewrite <- Z.mul_assoc, <- Z.pow_add_r by lia.
    replace a with (prec - d + Zpos n)%Z by lia. reflexivity.
  - replace (d + a + e - prec)%Z with (d + a + e - prec + 0)%Z at 2 by lia.
    apply binary_round_aux_exact; try lia.
    cbn [fst]. rewrite Pos_iter_xO_value, Hm, Hq, Z.pow_0_r, Z.mul_1_r.
    rewrite <- Z.mul_assoc, <- Z.pow_add_r by lia.
    replace (prec - d)%Z with (a + Zpos n)%Z by lia. reflexivity.
Qed.

End Binary64Exact.

(** ** Whole numbers in binary64

    Below [2 ^ 53] every whole number is a double and adding 1.0 is exact,
    so a sum of ones counts. *)

Lemma digits2_pos_le_prec64 (k : positive) :
  (Zpos k < 2 ^ 53)%Z -> (Zpos (digits2_pos k) <= 53)%Z.
Proof.
  intros H. pose proof (digits2_pos_lower k) as L.
  destruct (Z.le_gt_cases (Zpos (digits2_pos k)) 53) as [Hd|Hd]; [exact Hd|exfalso].
  assert (P : (2 ^ 53 <= 2 ^ (Zpos (digits2_pos k) - 1))%Z)
    by (apply Z.pow_le_mono_r; lia).
  lia.
Qed.

Lemma b64_of_Z_pos (k : positive) :
  (Zpos k < 2 ^ 53)%Z ->
  b64_of_Z (Zpos k)
  = S754_finite false (Z.to_pos (Zpos k * 2 ^ (53 - Zpos (digits2_pos k))))
                (Zpos (digits2_pos k) - 53).
Proof.
  intros H. pose proof (digits2_pos_le_prec64 k H) as Hd.
  unfold b64_of_Z. cbn [binary_normalize].
  pose proof (Z.pow_pos_nonneg 2 (53 - Zpos (digits2_pos k)) ltac:(lia) ltac:(lia)) as Hp.
  rewrite (binary_round_shifted prec64 emax64 k k
             (Z.to_pos (Zpos k * 2 ^ (53 - Zpos (digits2_pos k)))) 0 0).
  - f_equal; unfold prec64; lia.
  - lia.
  - exact Hd.
  - rewrite Z.pow_0_r. lia.
  - rewrite Z2Pos.id by nia. reflexivity.
  - unfold emin, prec64, emax64. lia.
  - unfold prec64, emax64. lia.
Qed.

Lemma b64_add_one (k : Z) :
  (0 <= k)%Z -> (k + 1 < 2 ^ 53)%Z ->
  SFadd prec64 emax64 (b64_of_Z k) (b64_of_Z 1) = b64_of_Z (k + 1).
Proof.
  intros H0 Hk. destruct k as [|k|k]; [reflexivity| |lia].
  assert (Hk' : (Zpos k < 2 ^ 53)%Z) by lia.
  pose proof (digits2_pos_le_prec64 k Hk') as Hd.
  set (d := Zpos (digits2_pos k)) in *.
  assert (Hd1 : (1 <= d)%Z) by (subst d; lia).
  pose proof (Z.pow_pos_nonneg 2 (53 - d) ltac:(lia) ltac:(lia)) as Hp.
  rewrite (b64_of_Z_pos k Hk'). fold d.
  change (b64_of_Z 1) with (S754_finite false 4503599627370496 (-52)).
  cbn [SFadd cond_Zopp].
  replace (Z.min (d - 53) (-52)) with (-52)%Z by lia.
  rewrite !shl_align_value by lia.
  rewrite Z2Pos.id by nia.
  replace (d - 53 - -52)%Z with (d - 1)%Z by lia.
  replace (-52 - -52)%Z with 0%Z by lia.
  rewrite <- Z.mul_assoc, <- Z.pow_add_r by lia.
  replace (53 - d + (d - 1))%Z with 52%Z by lia.
  rewrite Z.pow_0_r, Z.mul_1_r.
  change 4503599627370496%Z with (2 ^ 52)%Z.
  replace (Zpos k * 2 ^ 52 + 2 ^ 52)%Z with (Zpos (k + 1) * 2 ^ 52)%Z by lia.
  assert (Hk1 : (Zpos (k + 1) < 2 ^ 53)%Z) by lia.
  pose proof (digits2_pos_le_prec64 (k + 1) Hk1) as Hd'.
  set (d' := Zpos (digits2_pos (k + 1))) in *.
  assert (Hd1' : (1 <= d')%Z) by (subst d'; lia).
  pose proof (Z.pow_pos_nonneg 2 (53 - d') ltac:(lia) ltac:(lia)) as Hp'.
  replace (Zpos k + 1)%Z with (Zpos (k + 1)) by lia.
  rewrite (b64_of_Z_pos (k + 1) Hk1). fold d'.
  destruct (Zpos (k + 1) * 2 ^ 52)%Z as [|z|z] eqn:Ez; try lia.
  cbn [binary_normalize].
  rewrite (binary_round_shifted prec64 emax64 (k + 1) z
             (Z.to_pos (Zpos (k + 1) * 2 ^ (53 - d'))) 52 (-52)).
  - f_equal; fold d'; unfold prec64; lia.
  - lia.
  - exact Hd'.
  - rewrite <- Ez. reflexivity.
  - rewrite Z2Pos.id by nia. reflexivity.
  - fold d'. unfold emin, prec64, emax64. lia.
  - fold d'. unfold prec64, emax64. lia.
Qed.

Lemma b64_add_zero (k : Z) :
  (0 <= k)%Z -> SFadd prec64 emax64 (b64_of_Z k) (b64_of_Z 0) = b64_of_Z k.
Proof.
  intros H. change (b64_of_Z 0) with (S754_zero false).
  destruct k as [|k|k]; [reflexivity| |lia].
  unfold b64_of_Z. cbn [binary_normalize].
  pose proof (binary_round_nonzero prec64 emax64 eq_refl false k 0) as R.
  destruct (binary_round prec64 emax64 false k 0) as [s|s| |s m e];
    try reflexivity; exfalso; apply R; unfold emin, prec64, emax64; lia.
Qed.

(** ** The order of binary64 numbers *)

Lemma SFcompare_key (x y : spec_float) :
  SFcompare x y =
  if b64_isnan x || b64_isnan y then None else Some (lex3 (b64_key x) (b64_key y)).
Proof.
  destruct x as [[|]|[|]| |[|] mx ex], y as [[|]|[|]| |[|] my ey];
    simpl; try reflexivity.
  rewrite Z.compare_opp, (Z.compare_antisym ex ey).
  destruct (ex ?= ey)%Z; reflexivity.
Qed.

Ltac lex3_solve :=
  repeat match goal with
  | |- context [(?a ?= ?b)%Z] => destruct (Z.compare_spec a b)
  | H : context [(?a ?= ?b)%Z] |- _ => destruct (Z.compare_spec a b)
  end; try discriminate; try reflexivity; try lia.

Lemma lex3_lt_trans a b c : lex3 a b = Lt -> lex3 b c = Lt -> lex3 a c = Lt.
Proof.
  destruct a as [[a1 a2] a3], b as [[b1 b2] b3], c as [[c1 c2] c3]; unfold lex3.
  intros H1 H2. lex3_solve.
Qed.

Lemma lex3_eq a b : lex3 a b = Eq <-> a = b.
Proof.
  destruct a as [[a1 a2] a3], b as [[b1 b2] b3]; unfold lex3. split.
  - intros H. lex3_solve. congruence.
  - intros H. inversion H; subst. rewrite !Z.compare_refl. reflexivity.
Qed.

Lemma lex3_antisym a b : lex3 b a = CompOpp (lex3 a b).
Proof.
  destruct a as [[a1 a2] a3], b as [[b1 b2] b3]; unfold lex3.
  rewrite (Z.compare_antisym a1 b1), (Z.compare_antisym a2 b2), (Z.compare_antisym a3 b3).
  destruct (a1 ?= b1)%Z, (a2 ?= b2)%Z, (a3 ?= b3)%Z; reflexivity.
Qed.

Lemma b64_ltb_key x y :
  SFltb x y = true <->
  b64_isnan x = false /\ b64_isnan y = false /\ lex3 (b64_key x) (b64_key y) = Lt.
Proof.
  unfold SFltb. rewrite SFcompare_key.
  destruct (b64_isnan x), (b64_isnan y); simpl;
    try (split; [discriminate | intros (? & ? & ?); discriminate]).
  destruct (lex3 (b64_key x) (b64_key y)); split; try discriminate; auto.
  all: intros (_ & _ & ?); discriminate.
Qed.

Lemma b64_eqb_key x y :
  SFeqb x y = true <->
  b64_isnan x = false /\ b64_isnan y = false /\ b64_key x = b64_key y.
Proof.
  unfold SFeqb. rewrite SFcompare_key, <- lex3_eq.
  destruct (b64_isnan x), (b64_isnan y); simpl;
    try (split; [discriminate | intros (? & ? & ?); discriminate]).
  destruct (lex3 (b64_key x) (b64_key y)); split; try discriminate; auto.
  all: intros (_ & _ & ?); discriminate.
Qed.

Lemma b64_isnan_spec x : b64_isnan x = true <-> x = S754_nan.
Proof. destruct x; simpl; split; congruence. Qed.

Lemma bool_eq_iff (a b : bool) : (a = true <-> b = true) -> a = b.
Proof. destruct a, b; intros [H1 H2]; auto; try (symmetry; auto); discriminate (H1 eq_refl) || discriminate (H2 eq_refl). Qed.

(** ** Both arithmetics satisfy the laws *)

#[export] Instance binary64_laws : ArithLaws binary64.
Proof.
  constructor; simpl.
  - exact b64_isnan_spec.
  - reflexivity.
  - intros []; reflexivity.
  - reflexivity.
  - intros []; reflexivity.
  - reflexivity.
  - intros []; reflexivity.
  - reflexivity.
  - intros []; reflexivity.
  - reflexivity.
  - intros z. apply binary_normalize_not_nan.
  - reflexivity.
  - reflexivity.
  - intros a b. unfold SFleb, SFltb, SFeqb.
    destruct (SFcompare a b) as [[]|]; reflexivity.
  - intros a b H. apply b64_ltb_key in H. tauto.
  - intros a b H. apply b64_eqb_key in H. tauto.
  - intros a H. apply b64_eqb_key. auto.
  - intros a b. apply bool_eq_iff. rewrite !b64_eqb_key. intuition congruence.
  - intros a b Ha Hb. rewrite !b64_ltb_key, b64_eqb_key, <- lex3_eq.
    rewrite (lex3_antisym (b64_key a) (b64_key b)).
    destruct (lex3 (b64_key a) (b64_key b)); simpl; auto.
  - intros a. destruct (SFltb a a) eqn:H; auto.
    apply b64_ltb_key in H. destruct H as (_ & _ & H).
    assert (E : lex3 (b64_key a) (b64_key a) = Eq) by (apply lex3_eq; reflexivity).
    congruence.
  - intros a b c. rewrite !b64_ltb_key. intros (? & ? & ?) (? & ? & ?).
    repeat split; auto. eapply lex3_lt_trans; eauto.
  - intros a b c. rewrite !b64_ltb_key, b64_eqb_key. intros (? & ? & ?) (? & ? & E).
    repeat split; auto. rewrite <- E. assumption.
  - intros a b c. rewrite !b64_ltb_key, b64_eqb_key. intros (? & ? & E) (? & ? & ?).
    repeat split; auto. rewrite E. assumption.
  - intros a b H. destruct (SFeqb a b) eqn:E; auto.
    apply b64_ltb_key in H. apply b64_eqb_key in E.
    destruct H as (_ & _ & H), E as (_ & _ & E).
    apply lex3_eq in E. congruence.
Qed.

Lemma xcompare_opp x y :
  xcompare y x = option_map CompOpp (xcompare x y).
Proof.
  destruct x as [|[|]|p], y as [|[|]|q]; simpl; try reflexivity.
  f_equal. unfold Qccompare. rewrite Qcompare_antisym. reflexivity.
Qed.

Lemma xcompare_lt_trans x y z :
  xcompare x y = Some Lt -> xcompare y z = Some Lt -> xcompare x z = Some Lt.
Proof.
  destruct x as [|[|]|p], y as [|[|]|q], z as [|[|]|r]; simpl; try discriminate; auto.
  intros H1 H2. injection H1 as H1. injection H2 as H2. f_equal.
  apply Qclt_alt. apply Qclt_alt in H1. apply Qclt_alt in H2.
  eapply Qclt_trans; eauto.
Qed.

Lemma xcompare_eq x y : xcompare x y = Some Eq -> x = y.
Proof.
  destruct x as [|[|]|p], y as [|[|]|q]; simpl; try discriminate; auto.
  intros H. injection H as H. apply Qceq_alt in H. congruence.
Qed.

Lemma xcompare_refl x : xisnan x = false -> xcompare x x = Some Eq.
Proof.
  destruct x as [|[|]|p]; simpl; try discriminate; auto.
  intros _. f_equal. apply Qceq_alt. reflexivity.
Qed.

Lemma xcompare_none x y : xcompare x y = None <-> xisnan x = true \/ xisnan y = true.
Proof.
  destruct x as [|[|]|p], y as [|[|]|q]; simpl; split; auto; try discriminate;
    intros [H|H]; discriminate.
Qed.

#[export] Instance exact_laws : ArithLaws exact.
Proof.
  constructor; simpl.
  - intros []; simpl; split; congruence.
  - reflexivity.
  - intros []; reflexivity.
  - reflexivity.
  - intros []; reflexivity.
  - reflexivity.
  - intros []; reflexivity.
  - reflexivity.
  - intros []; reflexivity.
  - reflexivity.
  - intros z. reflexivity.
  - reflexivity.
  - reflexivity.
  - intros a b. unfold xleb, xltb, xeqb. destruct (xcompare a b) as [[]|]; reflexivity.
  - intros a b. unfold xltb. destruct (xcompare a b) as [[]|] eqn:E; try discriminate.
    intros _. destruct a, b; simpl in *; auto; discriminate.
  - intros a b. unfold xeqb. destruct (xcompare a b) as [[]|] eqn:E; try discriminate.
    intros _. destruct a, b; simpl in *; auto; discriminate.
  - intros a H. unfold xeqb. rewrite xcompare_refl; auto.
  - intros a b. unfold xeqb. rewrite (xcompare_opp a b).
    destruct (xcompare a b) as [[]|]; reflexivity.
  - intros a b Ha Hb. unfold xltb, xeqb. rewrite (xcompare_opp a b).
    destruct (xcompare a b) as [[]|] eqn:E; simpl; auto.
    apply xcompare_none in E. destruct E; congruence.
  - intros a. unfold xltb. destruct (xcompare a a) as [[]|] eqn:E; auto.
    destruct a as [|[|]|p]; simpl in E; try discriminate.
    injection E as E. apply Qclt_alt in E. exfalso. apply (Qclt_not_eq _ _ E). reflexivity.
  - intros a b c. unfold xltb.
    destruct (xcompare a b) as [[]|] eqn:E1; try discriminate.
    destruct (xcompare b c) as [[]|] eqn:E2; try discriminate.
    rewrite (xcompare_lt_trans _ _ _ E1 E2). reflexivity.
  - intros a b c. unfold xltb, xeqb.
    destruct (xcompare a b) as [[]|] eqn:E1; try discriminate.
    destruct (xcompare b c) as [[]|] eqn:E2; try discriminate.
    apply xcompare_eq in E2. subst. rewrite E1. reflexivity.
  - intros a b c. unfold xltb, xeqb.
    destruct (xcompare a b) as [[]|] eqn:E1; try discriminate.
    apply xcompare_eq in E1. subst. auto.
  - intros a b. unfold xltb, xeqb. destruct (xcompare a b) as [[]|]; auto; discriminate.
Qed.

(** ** Slices, differences and the trapezoid sum *)

Section LibraryFacts.
Context {num : Type} {A : Arith num} {L : ArithLaws A}.

Lemma isel_slice_nth {T : Type} (d : T) (l : list T) (lo hi : nat) :
  hi <= length l ->
  isel_slice l lo hi = map (fun i => nth i l d) (seq lo (hi - lo)).
Proof.
  unfold isel_slice. revert lo hi. induction l as [|a l IH]; intros lo hi Hhi; simpl in *.
  - assert (hi = 0) by lia. subst. simpl. destruct lo; reflexivity.
  - destruct lo as [|lo].
    + simpl. rewrite Nat.sub_0_r. destruct hi as [|hi]; simpl; [reflexivity|].
      f_equal. specialize (IH 0 hi ltac:(lia)). simpl in IH.
      rewrite Nat.sub_0_r in IH. rewrite IH, <- seq_shift, map_map. reflexivity.
    + destruct hi as [|hi]; [reflexivity|].
      simpl. rewrite (IH lo hi ltac:(lia)), <- seq_shift, map_map. reflexivity.
Qed.

Lemma isel_slice_empty {T : Type} (l : list T) (lo hi : nat) :
  hi <= lo -> isel_slice l lo hi = [].
Proof.
  intros H. unfold isel_slice. replace (hi - lo) with 0 by lia. reflexivity.
Qed.

Lemma np_diff_map_seq (g : nat -> num) (s n : nat) :
  np_diff (map g (seq s n)) = map (fun i => g (S i) -^ g i) (seq s (n - 1)).
Proof.
  revert s. induction n as [|n IH]; intros s; [reflexivity|].
  destruct n as [|n]; [reflexivity|].
  change (np_diff (map g (seq s (S (S n)))))
    with ((g (S s) -^ g s) :: np_diff (map g (seq (S s) (S n)))).
  rewrite IH. cbn [Nat.sub]. rewrite !Nat.sub_0_r. reflexivity.
Qed.

Lemma pair_sums_map_seq (g : nat -> num) (s n : nat) :
  pair_sums (map g (seq s n)) = map (fun i => g (S i) +^ g i) (seq s (n - 1)).
Proof.
  revert s. induction n as [|n IH]; intros s; [reflexivity|].
  destruct n as [|n]; [reflexivity|].
  change (pair_sums (map g (seq s (S (S n)))))
    with ((g (S s) +^ g s) :: pair_sums (map g (seq (S s) (S n)))).
  rewrite IH. cbn [Nat.sub]. rewrite !Nat.sub_0_r. reflexivity.
Qed.

Lemma map2_map_seq {T U V : Type} (f : T -> U -> V) (g : nat -> T) (h : nat -> U) s n :
  map2 f (map g (seq s n)) (map h (seq s n)) = map (fun i => f (g i) (h i)) (seq s n).
Proof.
  revert s. induction n as [|n IH]; intros s; simpl; [reflexivity|].
  f_equal. apply IH.
Qed.

(** The differences and the pair sums of a positional slice, read off the
    whole array. *)
Lemma np_diff_slice (x : list num) (lo hi : nat) :
  hi < length x ->
  np_diff (isel_slice x lo (hi + 1)) =
  map (fun i => nth (S i) x nan -^ nth i x nan) (seq lo (hi - lo)).
Proof.
  intros H. rewrite (isel_slice_nth nan) by lia. rewrite np_diff_map_seq.
  f_equal. f_equal. lia.
Qed.

Lemma pair_sums_slice (y : list num) (lo hi : nat) :
  hi < length y ->
  pair_sums (isel_slice y lo (hi + 1)) =
  map (fun i => nth (S i) y nan +^ nth i y nan) (seq lo (hi - lo)).
Proof.
  intros H. rewrite (isel_slice_nth nan) by lia. rewrite pair_sums_map_seq.
  f_equal. f_equal. lia.
Qed.

(** [np.trapz] of two slices over the same positions is the trapezoid sum
    over these positions. *)
Lemma np_trapz_slices (x y : list num) (lo hi : nat) :
  hi < length x -> length y = length x ->
  np_trapz (isel_slice y lo (hi + 1)) (isel_slice x lo (hi + 1))
  = Ok (trapezoid x y lo hi).
Proof.
  intros Hx Hy. unfold np_trapz, trapezoid.
  rewrite np_diff_slice by assumption.
  rewrite pair_sums_slice by lia.
  unfold broadcast_mul. rewrite !length_map, Nat.eqb_refl.
  rewrite map2_map_seq. simpl. rewrite map_map. reflexivity.
Qed.

(** [np_sum] adds the terms in turn. *)
Lemma np_sum_snoc (a b : num) (l : list num) :
  np_sum ((a :: l) ++ [b]) = np_sum (a :: l) +^ b.
Proof. cbn [app np_sum]. rewrite fold_left_app. reflexivity. Qed.

Lemma np_sum_in_turn (u : nat -> num) (lo n : nat) :
  np_sum (map u (seq lo n)) = sum_in_turn u lo n.
Proof.
  destruct n as [|n]; [reflexivity|].
  induction n as [|n IH]; [reflexivity|].
  change (sum_in_turn u lo (S (S n))) with (sum_in_turn u lo (S n) +^ u (lo + S n)).
  rewrite <- IH, (seq_S (S n)), map_app.
  change (seq lo (S n)) with (lo :: seq (S lo) n). cbn [map].
  apply np_sum_snoc.
Qed.

Lemma trapezoid_in_turn (x y : list num) (lo hi : nat) :
  trapezoid x y lo hi = trapezoidal_rule x y lo hi.
Proof. apply (np_sum_in_turn (trapezoid_area x y)). Qed.

(** The integral of xarray over one level is 0.0: without its branch for
    the last level, the loop over the levels would store 0.0 twice there
    and divide 0.0 by 0.0. *)
Lemma xr_integrate_one_level (v p : num) : xr_integrate [v] [p] = zero.
Proof. reflexivity. Qed.

(** With at most one level in each slice there is nothing to add up. *)
Lemma np_trapz_short (y x : list num) :
  length y <= 1 -> length x <= 1 -> np_trapz y x = Ok zero.
Proof.
  intros Hy Hx. destruct y as [|a [|b y]]; simpl in Hy; try lia;
    destruct x as [|c [|d x]]; simpl in Hx; try lia; reflexivity.
Qed.


(** *** Consequences of the order laws *)

Lemma leb_not_ltb (a b : num) : (a <=^? b) = true -> (b <^? a) = false.
Proof.
  rewrite leb_spec. intros H. destruct (b <^? a) eqn:E; [|reflexivity].
  apply orb_true_iff in H. destruct H as [H|H].
  - pose proof (ltb_trans _ _ _ H E) as C. rewrite ltb_irrefl in C. discriminate.
  - pose proof (ltb_eqb_trans _ _ _ E H) as C. rewrite ltb_irrefl in C. discriminate.
Qed.

Lemma ltb_leb (a b : num) : (a <^? b) = true -> (a <=^? b) = true.
Proof. intros H. rewrite leb_spec, H. reflexivity. Qed.

Lemma not_leb_ltb (a b : num) :
  isnan a = false -> isnan b = false -> (a <=^? b) = false -> (b <^? a) = true.
Proof.
  intros Ha Hb H. rewrite leb_spec in H. apply orb_false_iff in H. destruct H as [H1 H2].
  destruct (ltb_total a b Ha Hb) as [C|[C|C]]; congruence.
Qed.

Lemma ltb_nan_r (a b : num) : isnan b = true -> (a <^? b) = false.
Proof.
  intros H. destruct (a <^? b) eqn:E; [|reflexivity].
  apply ltb_not_nan in E. destruct E. congruence.
Qed.

Lemma leb_nan_r (a b : num) : isnan b = true -> (a <=^? b) = false.
Proof.
  intros H. rewrite leb_spec, (ltb_nan_r a b H). simpl.
  destruct (a ==^? b) eqn:E; [|reflexivity].
  apply eqb_not_nan in E. destruct E. congruence.
Qed.

Lemma ltb_leb_trans (a b c : num) :
  (a <^? b) = true -> (b <=^? c) = true -> (a <^? c) = true.
Proof.
  intros H1 H2. rewrite leb_spec in H2. apply orb_true_iff in H2. destruct H2.
  - eapply ltb_trans; eauto.
  - eapply ltb_eqb_trans; eauto.
Qed.

Lemma isnan_nan : isnan nan = true.
Proof. apply isnan_spec. reflexivity. Qed.

Lemma ltb_nan_l (a b : num) : isnan a = true -> (a <^? b) = false.
Proof.
  intros H. destruct (a <^? b) eqn:E; [|reflexivity].
  apply ltb_not_nan in E. destruct E. congruence.
Qed.

Lemma leb_nan_l (a b : num) : isnan a = true -> (a <=^? b) = false.
Proof.
  intros H. rewrite leb_spec, (ltb_nan_l a b H). simpl.
  destruct (a ==^? b) eqn:E; [|reflexivity].
  apply eqb_not_nan in E. destruct E. congruence.
Qed.

Lemma not_ltb_leb (a b : num) :
  isnan a = false -> isnan b = false -> (a <^? b) = false -> (b <=^? a) = true.
Proof.
  intros Ha Hb H. rewrite leb_spec.
  destruct (ltb_total a b Ha Hb) as [C|[C|C]].
  - congruence.
  - rewrite eqb_sym, C. apply orb_true_r.
  - rewrite C. reflexivity.
Qed.

(** *** The comparisons of [np.searchsorted] *)

(** For a label that is a number they are [<] on the left side and [<=]
    on the right side. *)
Lemma side_test_number (sd : side) (label a : num) :
  isnan label = false ->
  side_test sd label a = match sd with Left => a <^? label | Right => a <=^? label end.
Proof.
  intros Hl. unfold side_test, np_less. rewrite Hl. destruct sd; cbn [andb negb].
  - apply orb_false_r.
  - rewrite andb_true_r. destruct (isnan a) eqn:Ha.
    + rewrite orb_true_r, (leb_nan_l a label Ha). reflexivity.
    + rewrite orb_false_r. destruct (label <^? a) eqn:E; cbn [negb].
      * destruct (a <=^? label) eqn:E2; [|reflexivity].
        apply leb_not_ltb in E2. congruence.
      * symmetry. apply not_ltb_leb; assumption.
Qed.

(** A NaN label stands after every number. *)
Lemma side_test_nan (sd : side) (label a : num) :
  isnan label = true ->
  side_test sd label a = match sd with Left => negb (isnan a) | Right => true end.
Proof.
  intros Hl. unfold side_test, np_less. rewrite Hl. destruct sd; cbn [andb negb].
  - rewrite (ltb_nan_r a label Hl). reflexivity.
  - rewrite (ltb_nan_l label a Hl), andb_false_r. reflexivity.
Qed.

(** *** Increasing axes *)

Lemma strictly_increasing_tail (a : num) (axis : list num) :
  strictly_increasing (a :: axis) = true -> strictly_increasing axis = true.
Proof.
  destruct axis as [|b t]; [reflexivity|].
  cbn [strictly_increasing]. intros H. apply andb_true_iff in H. tauto.
Qed.

Lemma strictly_increasing_head (a : num) (axis : list num) (j : nat) :
  strictly_increasing (a :: axis) = true -> j < length axis ->
  (a <^? nth j axis nan) = true.
Proof.
  revert a j. induction axis as [|b t IH]; intros a j H Hj; simpl in Hj; [lia|].
  cbn [strictly_increasing] in H. apply andb_true_iff in H. destruct H as [Hab Ht].
  destruct j as [|j]; [exact Hab|].
  simpl. eapply ltb_trans; [exact Hab|]. apply IH; [exact Ht | lia].
Qed.

Lemma strictly_increasing_nth (axis : list num) (i j : nat) :
  strictly_increasing axis = true -> i < j -> j < length axis ->
  (nth i axis nan <^? nth j axis nan) = true.
Proof.
  revert i j. induction axis as [|a t IH]; intros i j H Hij Hj; simpl in Hj; [lia|].
  destruct j as [|j]; [lia|]. destruct i as [|i].
  - simpl. apply strictly_increasing_head; [assumption | lia].
  - simpl. apply IH; [eapply strictly_increasing_tail; eauto | lia | lia].
Qed.

Lemma strictly_increasing_monotonic (axis : list num) :
  strictly_increasing axis = true -> is_monotonic_increasing axis = true.
Proof.
  induction axis as [|a t IH]; [reflexivity|].
  destruct t as [|b t]; [reflexivity|].
  cbn [strictly_increasing is_monotonic_increasing].
  intros H. apply andb_true_iff in H. destruct H as [Hab Ht].
  rewrite (ltb_leb _ _ Hab). simpl. apply IH. exact Ht.
Qed.

(** On an increasing axis a level is found at its own position. *)
Lemma get_loc_nth (axis : list num) (i : nat) :
  strictly_increasing axis = true -> i < length axis ->
  isnan (nth i axis nan) = false ->
  get_loc axis (nth i axis nan) = Some i.
Proof.
  revert i. induction axis as [|a t IH]; intros i H Hi Hn; simpl in Hi; [lia|].
  destruct i as [|i]; simpl.
  - simpl in Hn. rewrite (eqb_refl _ Hn). reflexivity.
  - assert (Hlt : (a <^? nth i t nan) = true)
      by (apply strictly_increasing_head; [assumption | lia]).
    rewrite (ltb_not_eqb _ _ Hlt).
    rewrite IH; [reflexivity | eapply strictly_increasing_tail; eauto | lia | exact Hn].
Qed.

Lemma strictly_increasing_not_nan (axis : list num) (i : nat) :
  strictly_increasing axis = true -> 2 <= length axis -> i < length axis ->
  isnan (nth i axis nan) = false.
Proof.
  intros H H2 Hi. destruct i as [|i].
  - assert (E : (nth 0 axis nan <^? nth 1 axis nan) = true)
      by (apply strictly_increasing_nth; [assumption | lia | lia]).
    apply ltb_not_nan in E. tauto.
  - assert (E : (nth 0 axis nan <^? nth (S i) axis nan) = true)
      by (apply strictly_increasing_nth; [assumption | lia | lia]).
    apply ltb_not_nan in E. tauto.
Qed.

Lemma slice_indexer_levels (axis : list num) (i j : nat) :
  strictly_increasing axis = true -> i < length axis -> j < length axis ->
  isnan (nth i axis nan) = false -> isnan (nth j axis nan) = false ->
  slice_indexer axis (nth i axis nan) (nth j axis nan) = Ok (i, S j).
Proof.
  intros H Hi Hj Hni Hnj. unfold slice_indexer, get_slice_bound.
  rewrite !get_loc_nth by assumption. reflexivity.
Qed.

End LibraryFacts.

(** ** [np.argmin] *)

Section ArgminFacts.
Context {num : Type} {A : Arith num} {L : ArithLaws A}.

Lemma skipn_cons_nth (d : list num) (i : nat) (v : num) (l : list num) :
  skipn i d = v :: l -> nth i d nan = v /\ skipn (S i) d = l /\ i < length d.
Proof.
  revert i. induction d as [|a d IH]; intros i H.
  - destruct i; discriminate.
  - destruct i as [|i].
    + simpl in H. injection H as -> ->. simpl. repeat split. lia.
    + simpl in H. apply IH in H. destruct H as (H1 & H2 & H3).
      simpl. repeat split; auto. lia.
Qed.

(** What the scan of [np.argmin] keeps true: [best] is the value at
    [best_i], no value seen so far is below it, and no value before
    [best_i] is as low. *)
Lemma argmin_scan_spec (d : list num) :
  forall (l : list num) (best_i i : nat) (best : num),
    skipn i d = l -> i <= length d -> best_i < i ->
    nth best_i d nan = best -> isnan best = false ->
    (forall j, j < i -> (nth j d nan <^? best) = false) ->
    (forall j, j < best_i -> (nth j d nan <=^? best) = false) ->
    let r := argmin_scan best_i best i l in
    r < length d /\
    (forall j, j < length d -> (nth j d nan <^? nth r d nan) = false) /\
    (forall j, j < r -> (nth j d nan <=^? nth r d nan) = false).
Proof.
  induction l as [|v l IH]; intros best_i i best Hl Hi Hb Hbest Hnan Hlow Hfirst.
  - simpl. assert (length d <= i).
    { rewrite <- (firstn_skipn i d), Hl, app_nil_r, length_firstn. lia. }
    assert (i = length d) by lia. subst i.
    rewrite Hbest. repeat split; [lia | assumption | assumption].
  - apply skipn_cons_nth in Hl. destruct Hl as (Hv & Hl & Hlen).
    cbn [argmin_scan]. destruct (best <=^? v) eqn:Hle.
    + apply IH; auto; try lia.
      intros j Hj. destruct (Nat.eq_dec j i) as [->|Hne].
      * rewrite Hv. apply leb_not_ltb. exact Hle.
      * apply Hlow. lia.
    + destruct (isnan v) eqn:Hvn.
      * rewrite Hv. repeat split; [exact Hlen | |].
        -- intros j _. apply ltb_nan_r. exact Hvn.
        -- intros j _. apply leb_nan_r. exact Hvn.
      * assert (Hvb : (v <^? best) = true) by (apply not_leb_ltb; assumption).
        assert (Hnew : forall j, j < i -> (nth j d nan <=^? v) = false).
        { intros j Hj. destruct (nth j d nan <=^? v) eqn:E; [|reflexivity].
          pose proof (leb_not_ltb _ _ E) as C0.
          rewrite leb_spec in E. apply orb_true_iff in E. destruct E as [E|E].
          - pose proof (ltb_trans _ _ _ E Hvb) as C. rewrite Hlow in C by lia. discriminate.
          - pose proof (eqb_ltb_trans _ _ _ E Hvb) as C. rewrite Hlow in C by lia. discriminate. }
        apply IH; auto; try lia.
        intros j Hj. destruct (Nat.eq_dec j i) as [->|Hne].
        -- rewrite Hv. apply ltb_irrefl.
        -- destruct (nth j d nan <^? v) eqn:E; [|reflexivity].
           apply ltb_leb in E. rewrite Hnew in E by lia. discriminate.
Qed.

Lemma np_argmin_spec (d : list num) :
  d <> [] ->
  exists r, np_argmin d = Ok r /\ r < length d /\
    (forall j, j < length d -> (nth j d nan <^? nth r d nan) = false) /\
    (forall j, j < r -> (nth j d nan <=^? nth r d nan) = false).
Proof.
  destruct d as [|v l]; [congruence|]. intros _. cbn [np_argmin].
  destruct (isnan v) eqn:Hv.
  - exists 0. repeat split; [simpl; lia | | intros j Hj; lia].
    intros j _. apply ltb_nan_r. exact Hv.
  - eexists. split; [reflexivity|].
    apply (argmin_scan_spec (v :: l) l 0 1 v);
      auto; try (simpl; lia).
    intros j Hj. assert (j = 0) by lia. subst. apply ltb_irrefl.
Qed.

Lemma nearest_level_spec (plev_array : list num) (p : num) :
  plev_array <> [] ->
  exists k, nearest_level plev_array p = Ok k /\ k < length plev_array /\
    (forall j, j < length plev_array ->
       (absv (nth j plev_array nan -^ p) <^? absv (nth k plev_array nan -^ p)) = false) /\
    (forall j, j < k ->
       (absv (nth j plev_array nan -^ p) <=^? absv (nth k plev_array nan -^ p)) = false).
Proof.
  intros Hne. unfold nearest_level.
  set (f := fun pk : num => absv (pk -^ p)).
  destruct (np_argmin_spec (map f plev_array)) as (r & Hr & Hlen & H1 & H2).
  { destruct plev_array; [congruence | discriminate]. }
  rewrite length_map in Hlen, H1.
  assert (Hnth : forall j, j < length plev_array ->
            nth j (map f plev_array) nan = f (nth j plev_array nan)).
  { intros j Hj. rewrite (nth_indep _ nan (f nan)) by (rewrite length_map; exact Hj).
    apply map_nth. }
  exists r. repeat split; auto.
  - intros j Hj. specialize (H1 j Hj). rewrite !Hnth in H1 by assumption. exact H1.
  - intros j Hj. specialize (H2 j Hj). rewrite !Hnth in H2 by lia. exact H2.
Qed.

End ArgminFacts.

(** ** The adjustment of a column, in any arithmetic *)

Section ColumnFacts.
Context {num : Type} {A : Arith num} {L : ArithLaws A}.

Lemma plev_FT_not_nan : isnan plev_FT = false.
Proof. apply of_Z_not_nan. Qed.

Lemma nth_error_nth_nan (l : list num) (i : nat) (v : num) :
  nth_error l i = Some v -> i < length l /\ nth i l nan = v.
Proof.
  intros H. split.
  - apply nth_error_Some. congruence.
  - apply nth_error_nth. exact H.
Qed.

(** Every level of an increasing axis that holds the reference level is a
    number. *)
Lemma level_not_nan (plev_array : list num) (i k : nat) :
  strictly_increasing plev_array = true ->
  nth_error plev_array i = Some plev_FT ->
  k < length plev_array ->
  isnan (nth k plev_array nan) = false.
Proof.
  intros H Hi Hk. apply nth_error_nth_nan in Hi. destruct Hi as [Hlen Hv].
  destruct (Nat.le_gt_cases 2 (length plev_array)) as [H2|H1].
  - apply strictly_increasing_not_nan; assumption.
  - assert (k = i) by lia. subst k. rewrite Hv. apply plev_FT_not_nan.
Qed.

(** [sel(plev = slice(plev_FT, plev_array[k]))] is the positional slice
    from the reference level to level [k], both included. *)
Lemma sel_plev_reference_to_level {T : Type} (plev_array : list num) (col : list T)
  (i k : nat) :
  strictly_increasing plev_array = true ->
  nth_error plev_array i = Some plev_FT ->
  k < length plev_array ->
  sel_plev plev_array col plev_FT (nth k plev_array nan) = Ok (isel_slice col i (S k)).
Proof.
  intros H Hi Hk. unfold sel_plev.
  pose proof (level_not_nan _ _ _ H Hi Hk) as Hnk.
  destruct (nth_error_nth_nan _ _ _ Hi) as [Hlen Hv].
  rewrite <- Hv at 1.
  rewrite slice_indexer_levels; auto.
  rewrite Hv. apply plev_FT_not_nan.
Qed.

Lemma adjustment_trapezoid (plev_array dhdp_col : list num) (lcli : num) (i k : nat) :
  strictly_increasing plev_array = true ->
  length dhdp_col = length plev_array ->
  nearest_level plev_array plev_FT = Ok i ->
  nth_error plev_array i = Some plev_FT ->
  nearest_level plev_array lcli = Ok k ->
  k < length plev_array ->
  adjustment plev_array dhdp_col lcli = Ok (trapezoid plev_array dhdp_col i k).
Proof.
  intros H Hlen Hi Hvi Hk Hklt. unfold adjustment.
  rewrite Hi, Hk. cbn [bind].
  rewrite (sel_plev_reference_to_level _ _ _ _ H Hvi Hklt). cbn [bind].
  rewrite <- Nat.add_1_r. apply np_trapz_slices; assumption.
Qed.

(** With the nearest level at or above the reference level the two slices
    hold at most one level. *)
Lemma adjustment_short (plev_array dhdp_col : list num) (lcli : num) (i k : nat) :
  strictly_increasing plev_array = true ->
  nearest_level plev_array plev_FT = Ok i ->
  nth_error plev_array i = Some plev_FT ->
  nearest_level plev_array lcli = Ok k ->
  k <= i ->
  adjustment plev_array dhdp_col lcli = Ok zero.
Proof.
  intros H Hi Hvi Hk Hki. unfold adjustment.
  rewrite Hi, Hk. cbn [bind].
  destruct (nth_error_nth_nan _ _ _ Hvi) as [Hlen _].
  rewrite (sel_plev_reference_to_level _ _ _ k H Hvi) by lia. cbn [bind].
  apply np_trapz_short; unfold isel_slice; rewrite length_firstn; lia.
Qed.

(** *** NaN in a sum *)

Lemma fold_left_add_nan (l : list num) : fold_left add l nan = nan.
Proof.
  induction l as [|a l IH]; [reflexivity|]. simpl. rewrite add_nan_l. exact IH.
Qed.

Lemma fold_left_add_In_nan (l : list num) : forall acc,
  In nan l -> fold_left add l acc = nan.
Proof.
  induction l as [|a l IH]; intros acc Hin; [destruct Hin|].
  simpl. destruct Hin as [->|Hin].
  - rewrite add_nan_r. apply fold_left_add_nan.
  - apply IH. exact Hin.
Qed.

Lemma np_sum_In_nan (l : list num) : In nan l -> np_sum l = nan.
Proof.
  destruct l as [|a l]; [intros []|]. intros [->|Hin]; simpl.
  - apply fold_left_add_nan.
  - apply fold_left_add_In_nan. exact Hin.
Qed.

(** A NaN anywhere among at least two levels makes the trapezoid sum NaN. *)
Lemma trapezoid_nan (plev_array dhdp_col : list num) (lo hi j : nat) :
  lo < hi -> lo <= j <= hi -> isnan (nth j dhdp_col nan) = true ->
  trapezoid plev_array dhdp_col lo hi = nan.
Proof.
  intros Hlt Hj Hn. apply isnan_spec in Hn. unfold trapezoid.
  apply np_sum_In_nan.
  set (f := fun i => _). 
  destruct (Nat.eq_dec j hi) as [->|Hne].
  - replace nan with (f (hi - 1)).
    + apply in_map, in_seq. lia.
    + unfold f. replace (S (hi - 1)) with hi by lia.
      rewrite Hn, add_nan_l, mul_nan_r, div_nan_l. reflexivity.
  - replace nan with (f j).
    + apply in_map, in_seq. lia.
    + unfold f. rewrite Hn, add_nan_r, mul_nan_r, div_nan_l. reflexivity.
Qed.

Variable Lv : num.
Variable log : num -> num.

Lemma dhdp_at_nan (tv tvw sd p ps : num) :
  isnan sd = true \/ isnan tvw = true -> dhdp_at Lv log tv tvw sd p ps = nan.
Proof.
  unfold dhdp_at. intros [H|H]; apply isnan_spec in H; subst.
  - rewrite mul_nan_r, mul_nan_r, div_nan_l. reflexivity.
  - rewrite div_nan_r, mul_nan_l, div_nan_l. reflexivity.
Qed.

Lemma length_dhdp (virtual_temp tvw sat_def pfull : list num) (ps : num) :
  length (dhdp Lv log virtual_temp tvw sat_def pfull ps) = length pfull.
Proof. unfold dhdp. rewrite length_map, length_seq. reflexivity. Qed.

Lemma nth_dhdp (virtual_temp tvw sat_def pfull : list num) (ps : num) (k : nat) :
  k < length pfull ->
  nth k (dhdp Lv log virtual_temp tvw sat_def pfull ps) nan
  = dhdp_at Lv log (nth k virtual_temp nan) (nth k tvw nan)
                   (nth k sat_def nan) (nth k pfull nan) ps.
Proof.
  intros Hk. unfold dhdp.
  set (f := fun k => _).
  rewrite (nth_indep _ nan (f 0)) by (rewrite length_map, length_seq; exact Hk).
  rewrite map_nth, seq_nth by exact Hk. reflexivity.
Qed.

End ColumnFacts.

(** ** The loop over the levels, in any arithmetic *)

Section BottomLevelFacts.
Context {num : Type} {A : Arith num} {L : ArithLaws A}.

Lemma last_nth (l : list num) : last l nan = nth (length l - 1) l nan.
Proof.
  induction l as [|a l IH]; [reflexivity|].
  destruct l as [|b l]; [reflexivity|].
  change (last (a :: b :: l) nan) with (last (b :: l) nan). rewrite IH.
  cbn [length]. rewrite !Nat.sub_succ, !Nat.sub_0_r. reflexivity.
Qed.

Lemma get_loc_Some (axis : list num) (label : num) (i : nat) :
  get_loc axis label = Some i ->
  i < length axis /\ (nth i axis nan ==^? label) = true.
Proof.
  revert i. induction axis as [|a t IH]; intros i H; [discriminate|].
  simpl in H. destruct (a ==^? label) eqn:E.
  - injection H as <-. simpl. split; [lia | exact E].
  - destruct (get_loc t label) as [j|] eqn:Ej; [|discriminate].
    injection H as <-. destruct (IH j eq_refl) as [H1 H2]. simpl. split; [lia | exact H2].
Qed.

Lemma searchsorted_right_all (axis : list num) (p : num) :
  (forall j, j < length axis -> (nth j axis nan <=^? p) = true) ->
  searchsorted axis p Right = length axis.
Proof.
  induction axis as [|a t IH]; intros H; [reflexivity|].
  pose proof (H 0 ltac:(simpl; lia)) as H0. simpl in H0.
  assert (Hp : isnan p = false).
  { rewrite leb_spec in H0. apply orb_true_iff in H0. destruct H0 as [H0|H0].
    - apply ltb_not_nan in H0. tauto.
    - apply eqb_not_nan in H0. tauto. }
  cbn [searchsorted length]. rewrite (side_test_number Right p a Hp), H0.
  f_equal. apply IH.
  intros j Hj. apply (H (S j)). simpl. lia.
Qed.

Section Surface.
Variable plev_array : list num.
Hypothesis Hinc : strictly_increasing plev_array = true.
Hypothesis Hne : plev_array <> [].
Hypothesis Hlast : (last plev_array nan <=^? p_surface) = true.

Variable n : nat.
Hypothesis Hn : length plev_array = n.

Lemma axis_length_pos : 0 < n.
Proof. rewrite <- Hn. destruct plev_array; [congruence | simpl; lia]. Qed.

Lemma last_not_nan : isnan (nth (n - 1) plev_array nan) = false.
Proof.
  pose proof Hlast as H. rewrite last_nth, leb_spec, Hn in H.
  apply orb_true_iff in H. destruct H as [H|H].
  - apply ltb_not_nan in H. tauto.
  - apply eqb_not_nan in H. tauto.
Qed.

Lemma surface_level_not_nan (k : nat) : k < n -> isnan (nth k plev_array nan) = false.
Proof.
  intros Hk. destruct (Nat.eq_dec k (n - 1)) as [->|Hne'].
  - apply last_not_nan.
  - apply strictly_increasing_not_nan; [exact Hinc | lia | lia].
Qed.

Lemma levels_below_surface (j : nat) :
  j < n -> (nth j plev_array nan <=^? p_surface) = true.
Proof.
  intros Hj. pose proof Hlast as H. rewrite last_nth, Hn in H.
  destruct (Nat.eq_dec j (n - 1)) as [->|Hne']; [exact H|].
  apply ltb_leb. eapply ltb_leb_trans; [|exact H].
  apply strictly_increasing_nth; [exact Hinc | lia | lia].
Qed.

(** The right bound of [slice(pressure, 100000.)] is the end of the axis. *)
Lemma surface_bound : get_slice_bound plev_array p_surface Right = Ok n.
Proof.
  unfold get_slice_bound. destruct (get_loc plev_array p_surface) as [i|] eqn:E.
  - apply get_loc_Some in E. destruct E as [Hi He]. rewrite Hn in Hi.
    destruct (Nat.eq_dec i (n - 1)) as [->|Hne'].
    + f_equal. pose proof axis_length_pos. lia.
    + exfalso.
      assert (Hlt : (nth i plev_array nan <^? nth (n - 1) plev_array nan) = true)
        by (apply strictly_increasing_nth; [exact Hinc | lia | lia]).
      pose proof Hlast as H. rewrite last_nth, Hn in H.
      rewrite eqb_sym in He.
      pose proof (eqb_ltb_trans _ _ _ He Hlt) as C.
      apply leb_not_ltb in H. congruence.
  - unfold searchsorted_monotonic.
    rewrite (strictly_increasing_monotonic _ Hinc).
    rewrite searchsorted_right_all; [rewrite Hn; reflexivity|]. rewrite Hn. exact levels_below_surface.
Qed.

Lemma slice_to_surface (k : nat) :
  k < n -> slice_indexer plev_array (nth k plev_array nan) p_surface = Ok (k, n).
Proof.
  intros Hk. unfold slice_indexer, get_slice_bound at 1.
  rewrite get_loc_nth; [|exact Hinc|lia|apply surface_level_not_nan; exact Hk].
  cbn [bind]. rewrite surface_bound. reflexivity.
Qed.

(** At the last level one level is in range, and the loop takes the value
    of the field there. *)
Lemma sel_plev_bottom (fld : list num) :
  length fld = n ->
  sel_plev plev_array fld (nth (n - 1) plev_array nan) p_surface
  = Ok [nth (n - 1) fld nan].
Proof.
  intros Hf. pose proof axis_length_pos as Hpos. unfold sel_plev.
  rewrite slice_to_surface by lia. cbn [bind fst snd].
  rewrite (isel_slice_nth nan) by lia.
  replace (n - (n - 1)) with 1 by lia. reflexivity.
Qed.

Lemma part_at_bottom (fld : list num) :
  length fld = n -> part_at plev_array fld (n - 1) = Ok (nth (n - 1) fld nan).
Proof.
  intros Hf. unfold part_at.
  rewrite (sel_plev_bottom fld Hf). cbn [bind].
  rewrite (sel_plev_bottom plev_array Hn). cbn [bind].
  rewrite last_nth, Hn. rewrite eqb_refl by apply last_not_nan. reflexivity.
Qed.

Lemma part_at_above (fld : list num) (k : nat) :
  k < n - 1 ->
  part_at plev_array fld k
  = Ok (xr_integrate (isel_slice fld k n) (isel_slice plev_array k n)).
Proof.
  intros Hk. unfold part_at, sel_plev.
  rewrite slice_to_surface by lia. cbn [bind fst snd].
  rewrite last_nth, Hn.
  rewrite ltb_not_eqb; [reflexivity|].
  apply strictly_increasing_nth; [exact Hinc | lia | lia].
Qed.

Lemma mapM_ok {T U : Type} (f : T -> outcome U) (g : T -> U) (l : list T) :
  (forall x, In x l -> f x = Ok (g x)) -> mapM f l = Ok (map g l).
Proof.
  induction l as [|a l IH]; intros H; [reflexivity|].
  simpl. rewrite (H a) by (left; reflexivity). cbn [bind].
  rewrite IH by (intros x Hx; apply H; right; exact Hx). reflexivity.
Qed.

Lemma part_ok (fld : list num) :
  length fld = n -> part plev_array fld = Ok (map (part_value plev_array fld) (seq 0 n)).
Proof.
  intros Hf. unfold part. rewrite Hn. apply mapM_ok.
  intros k Hk. apply in_seq in Hk. unfold part_value. rewrite Hn.
  destruct (Nat.eqb_spec k (n - 1)) as [->|Hne'].
  - apply part_at_bottom. exact Hf.
  - apply part_at_above. lia.
Qed.

End Surface.

Lemma nth_map2 {T U V : Type} (f : T -> U -> V) (l : list T) (m : list U)
  (dt : T) (du : U) (dv : V) (k : nat) :
  k < length l -> k < length m ->
  nth k (map2 f l m) dv = f (nth k l dt) (nth k m du).
Proof.
  revert m k. induction l as [|a l IH]; intros m k Hl Hm; simpl in Hl; [lia|].
  destruct m as [|b m]; simpl in Hm; [lia|].
  destruct k as [|k]; [reflexivity|]. simpl. apply IH; lia.
Qed.

Lemma length_map2 {T U V : Type} (f : T -> U -> V) (l : list T) (m : list U) :
  length l = length m -> length (map2 f l m) = length l.
Proof.
  revert m. induction l as [|a l IH]; intros [|c m] H; simpl in H; try discriminate;
    [reflexivity|].
  simpl. f_equal. apply IH. lia.
Qed.

(** The pressure-weighted virtual temperature of the bottom level is the
    ratio of the two values of that level. *)
Lemma bottom_level_generic (plev_array virtual_temp pfull : list num) :
  strictly_increasing plev_array = true ->
  plev_array <> [] ->
  (last plev_array nan <=^? p_surface) = true ->
  length virtual_temp = length plev_array ->
  length pfull = length plev_array ->
  let b := length plev_array - 1 in
  let tv := nth b virtual_temp nan in
  let p := nth b pfull nan in
  sel_plev plev_array plev_array (nth b plev_array nan) p_surface
    = Ok [nth b plev_array nan] /\
  part_at plev_array (virtual_temp_by_p virtual_temp pfull) b = Ok (tv /^ p) /\
  part_at plev_array (inv_pfull pfull) b = Ok (one /^ p) /\
  exists tvw, virtual_temperature_pressure_weighted plev_array virtual_temp pfull = Ok tvw /\
              nth b tvw nan = (tv /^ p) /^ (one /^ p).
Proof.
  intros Hinc Hne Hlast Htv Hp b tv p.
  pose proof (axis_length_pos plev_array Hinc Hne Hlast _ eq_refl) as Hn.
  assert (H1 : length (virtual_temp_by_p virtual_temp pfull) = length plev_array).
  { unfold virtual_temp_by_p. rewrite length_map2; lia. }
  assert (H2 : length (inv_pfull pfull) = length plev_array)
    by (unfold inv_pfull; rewrite length_map; exact Hp).
  assert (E1 : nth b (virtual_temp_by_p virtual_temp pfull) nan = tv /^ p).
  { unfold virtual_temp_by_p. apply nth_map2; subst b; lia. }
  assert (E2 : nth b (inv_pfull pfull) nan = one /^ p).
  { unfold inv_pfull. rewrite (nth_indep _ nan (one /^ nan)) by (rewrite length_map; subst b; lia).
    apply (map_nth (fun q => one /^ q)). }
  split; [apply (sel_plev_bottom plev_array Hinc Hne Hlast _ eq_refl); reflexivity|].
  split; [rewrite <- E1; apply (part_at_bottom plev_array Hinc Hne Hlast _ eq_refl); exact H1|].
  split; [rewrite <- E2; apply (part_at_bottom plev_array Hinc Hne Hlast _ eq_refl); exact H2|].
  unfold virtual_temperature_pressure_weighted.
  rewrite (part_ok _ Hinc Hne Hlast _ eq_refl _ H1), (part_ok _ Hinc Hne Hlast _ eq_refl _ H2). cbn [bind].
  eexists. split; [reflexivity|].
  rewrite (nth_map2 _ _ _ nan nan) by (rewrite length_map, length_seq; subst b; lia).
  set (f1 := part_value _ (virtual_temp_by_p _ _)). set (f2 := part_value _ (inv_pfull _)).
  rewrite (nth_indep _ nan (f1 0)) by (rewrite length_map, length_seq; subst b; lia).
  rewrite (nth_indep (map f2 _) nan (f2 0)) by (rewrite length_map, length_seq; subst b; lia).
  rewrite !map_nth, !seq_nth by (subst b; lia).
  unfold f1, f2, part_value. cbn [Nat.add]. fold b. rewrite Nat.eqb_refl.
  rewrite E1, E2. reflexivity.
Qed.

End BottomLevelFacts.

(** ** Masks and sums over the grid, in any arithmetic *)

Section FractionFacts.
Context {num : Type} {A : Arith num} {L : ArithLaws A}.

Lemma zero_not_nan : isnan zero = false.
Proof. apply of_Z_not_nan. Qed.

Lemma one_not_nan : isnan one = false.
Proof. apply of_Z_not_nan. Qed.

Lemma in_points (g : grid) (m la lo : nat) :
  In (m, la, lo) (points g) <-> m < n_month g /\ la < n_lat g /\ lo < n_lon g.
Proof.
  unfold points. rewrite in_flat_map. split.
  - intros (m' & Hm & H). apply in_flat_map in H. destruct H as (la' & Hla & H).
    apply in_map_iff in H. destruct H as (lo' & E & Hlo). injection E as <- <- <-.
    apply in_seq in Hm, Hla, Hlo. lia.
  - intros (Hm & Hla & Hlo). exists m. split; [apply in_seq; lia|].
    apply in_flat_map. exists la. split; [apply in_seq; lia|].
    apply in_map_iff. exists lo. split; [reflexivity | apply in_seq; lia].
Qed.

(** A point that the mask flags has no weight: NaN, which the sums skip. *)
Lemma flagged_weight (weights : nat -> num) (landmask : field3) (m la lo : nat) :
  isnan (landmask m la lo) = false ->
  weights_3Darray weights landmask m la lo = nan.
Proof.
  intros H. unfold weights_3Darray, masked_weights, where_. rewrite H.
  rewrite !mul_nan_l. reflexivity.
Qed.

Lemma kept_weight (weights : nat -> num) (landmask : field3) (m la lo : nat) :
  isnan (landmask m la lo) = true ->
  weights_3Darray weights landmask m la lo = (weights la *^ one) *^ one.
Proof.
  intros H. unfold weights_3Darray, masked_weights, where_. rewrite H. reflexivity.
Qed.

Lemma fold_left_add_zeros (l : list num) :
  (forall v, In v l -> v = zero) -> fold_left add l zero = zero.
Proof.
  induction l as [|a l IH]; intros H; [reflexivity|].
  simpl. rewrite (H a) by (left; reflexivity). rewrite add_zero_zero.
  apply IH. intros v Hv. apply H. right. exact Hv.
Qed.

Lemma np_sum_zeros (l : list num) : (forall v, In v l -> v = zero) -> np_sum l = zero.
Proof.
  destruct l as [|a l]; intros H; [reflexivity|].
  simpl. rewrite (H a) by (left; reflexivity).
  apply fold_left_add_zeros. intros v Hv. apply H. right. exact Hv.
Qed.

Lemma np_nansum_all_nan (l : list num) :
  (forall v, In v l -> isnan v = true) -> np_nansum l = zero.
Proof.
  intros H. unfold np_nansum. apply np_sum_zeros.
  intros v Hv. apply in_map_iff in Hv. destruct Hv as (u & <- & Hu).
  rewrite (H u Hu). reflexivity.
Qed.

(** The sum of a field that is NaN all over the grid is 0.0. *)
Lemma xr_sum_all_nan (g : grid) (f : field3) :
  (forall m la lo, m < n_month g -> la < n_lat g -> lo < n_lon g ->
     isnan (f m la lo) = true) ->
  xr_sum g f = zero.
Proof.
  intros H. unfold xr_sum. apply np_nansum_all_nan.
  intros v Hv. apply in_map_iff in Hv. destruct Hv as ([[m la] lo] & <- & Hin).
  apply in_points in Hin. simpl. apply H; tauto.
Qed.

(** The mask of the calibration flags a point exactly when it is land or
    when the control adjustment is missing there. *)
Lemma calibration_landmask_flags (land : nat -> nat -> num) (adjustment_ctrl : field3)
  (m la lo : nat) :
  isnan (calibration_landmask land adjustment_ctrl m la lo) = false <->
  isnan (land la lo) = false \/ isnan (adjustment_ctrl m la lo) = true.
Proof.
  unfold calibration_landmask, kept_points, where_.
  destruct (isnan (adjustment_ctrl m la lo)) eqn:Ea, (isnan (land la lo)) eqn:El; simpl.
  - assert (E : (nan ==^? one) = false).
    { destruct (nan ==^? one) eqn:E; [|reflexivity].
      apply eqb_not_nan in E. rewrite isnan_nan in E. destruct E. discriminate. }
    rewrite E. simpl. rewrite zero_not_nan. tauto.
  - assert (E : (nan ==^? one) = false).
    { destruct (nan ==^? one) eqn:E; [|reflexivity].
      apply eqb_not_nan in E. rewrite isnan_nan in E. destruct E. discriminate. }
    rewrite E. simpl. rewrite zero_not_nan. tauto.
  - rewrite eqb_refl by apply one_not_nan. simpl. rewrite isnan_nan.
    split; [discriminate | intros [H|H]; discriminate].
  - assert (E : (nan ==^? one) = false).
    { destruct (nan ==^? one) eqn:E; [|reflexivity].
      apply eqb_not_nan in E. rewrite isnan_nan in E. destruct E. discriminate. }
    rewrite E. simpl. rewrite zero_not_nan. tauto.
Qed.

(** With every point flagged both fractions are 0/0 and the objective is NaN. *)
Lemma all_flagged_generic (to_hsfc_units : num -> num)
  (g : grid) (weights : nat -> num) (landmask : field3)
  (ehat : num) (hsfc adjustment_f hsat500 wap500 : field3) :
  (forall m la lo, m < n_month g -> la < n_lat g -> lo < n_lon g ->
     isnan (landmask m la lo) = false) ->
  xr_sum g (weights_3Darray weights landmask) = zero /\
  calc_ascent_frac g wap500 weights landmask = zero /^ zero /\
  proportion_overcome_conv_threshold g
    (entrained to_hsfc_units ehat hsfc adjustment_f)
    hsat500 weights landmask = zero /^ zero /\
  func to_hsfc_units g weights landmask ehat hsfc adjustment_f hsat500 wap500 = nan.
Proof.
  intros H.
  assert (Hw : forall m la lo, m < n_month g -> la < n_lat g -> lo < n_lon g ->
            weights_3Darray weights landmask m la lo = nan)
    by (intros; apply flagged_weight; auto).
  assert (Hden : xr_sum g (weights_3Darray weights landmask) = zero).
  { apply xr_sum_all_nan. intros. rewrite Hw by assumption. apply isnan_nan. }
  assert (Ha : calc_ascent_frac g wap500 weights landmask = zero /^ zero).
  { unfold calc_ascent_frac. rewrite Hden. f_equal.
    apply xr_sum_all_nan. intros. unfold ascent_weights, where_.
    rewrite Hw by assumption. destruct (_ <^? _); apply isnan_nan. }
  assert (Hi : proportion_overcome_conv_threshold g
            (entrained to_hsfc_units ehat hsfc adjustment_f)
            hsat500 weights landmask = zero /^ zero).
  { unfold proportion_overcome_conv_threshold. rewrite Hden. f_equal.
    apply xr_sum_all_nan. intros. unfold instab_weights, where_.
    rewrite Hw by assumption. destruct (_ <^? _); apply isnan_nan. }
  repeat split; auto.
  unfold func. rewrite Ha, Hi, div_zero_zero, sub_nan_l. apply absv_nan.
Qed.

End FractionFacts.

(** ** Facts of exact arithmetic *)

Lemma Qc_is_zero_false (q : Qc) : q <> 0%Qc -> Qc_is_zero q = false.
Proof.
  intros H. unfold Qc_is_zero. destruct (q ?= 0)%Qc eqn:E; try reflexivity.
  apply Qceq_alt in E. contradiction.
Qed.

Lemma xadd_zero_l (x : xnum) : xadd (XFin 0%Qc) x = x.
Proof. destruct x as [| |q]; simpl; try reflexivity. rewrite Qcplus_0_l. reflexivity. Qed.

Lemma Qc_of_Z_0 : Qc_of_Z 0 = 0%Qc.
Proof. apply Qc_is_canon. reflexivity. Qed.

Lemma Qc_of_Z_1 : Qc_of_Z 1 = 1%Qc.
Proof. apply Qc_is_canon. reflexivity. Qed.


Lemma exact_zero : zero (A := exact) = XFin 0%Qc.
Proof. unfold zero. simpl. rewrite Qc_of_Z_0. reflexivity. Qed.

Lemma exact_one : one (A := exact) = XFin 1%Qc.
Proof. unfold one. simpl. rewrite Qc_of_Z_1. reflexivity. Qed.

Lemma exact_np_sum (l : list xnum) : np_sum l = fold_left xadd l (XFin 0%Qc).
Proof.
  destruct l as [|a l]; [apply exact_zero|].
  unfold np_sum. cbn [fold_left]. rewrite xadd_zero_l. reflexivity.
Qed.

(** The value a sum takes for a term: NaN counts as nothing. *)
Lemma exact_nansum_fold (l : list xnum) :
  np_nansum l =
  fold_left xadd (map (fun v => if xisnan v then XFin 0%Qc else v) l) (XFin 0%Qc).
Proof.
  unfold np_nansum. rewrite exact_np_sum. reflexivity.
Qed.

Lemma exact_fraction_sums {P : Type} (pts : list P) (c : P -> bool) (w : P -> xnum) :
  (forall p, In p pts -> w p = XNaN \/ exists q, w p = XFin q /\ (0 <= q)%Qc) ->
  exists s1 s2,
    np_nansum (map (fun p => where_ (c p) (w p)) pts) = XFin s1 /\
    np_nansum (map w pts) = XFin s2 /\ (0 <= s1)%Qc /\ (s1 <= s2)%Qc.
Proof.
  intros H. rewrite !exact_nansum_fold, !map_map.
  assert (G : forall a1 a2, (0 <= a1)%Qc -> (a1 <= a2)%Qc ->
    exists s1 s2,
      fold_left xadd
        (map (fun p => if xisnan (where_ (c p) (w p)) then XFin 0%Qc
                       else where_ (c p) (w p)) pts) (XFin a1) = XFin s1 /\
      fold_left xadd
        (map (fun p => if xisnan (w p) then XFin 0%Qc else w p) pts) (XFin a2) = XFin s2 /\
      (0 <= s1)%Qc /\ (s1 <= s2)%Qc).
  { induction pts as [|p pts IH]; intros a1 a2 H0 H12.
    - exists a1, a2. simpl. auto.
    - cbn [map fold_left].
      assert (Hp := H p (or_introl eq_refl)).
      assert (Hrest : forall p0, In p0 pts ->
                w p0 = XNaN \/ exists q, w p0 = XFin q /\ (0 <= q)%Qc)
        by (intros p0 Hp0; apply H; right; exact Hp0).
      destruct Hp as [Hp|(q & Hp & Hq)]; rewrite Hp.
      + unfold where_. simpl. destruct (c p); simpl;
          apply (IH Hrest); rewrite ?Qcplus_0_r; auto.
      + unfold where_. destruct (c p); simpl.
        * apply (IH Hrest).
          -- replace 0%Qc with (0 + 0)%Qc by ring. apply Qcplus_le_compat; assumption.
          -- apply Qcplus_le_compat; [assumption | apply Qcle_refl].
        * apply (IH Hrest).
          -- rewrite Qcplus_0_r. assumption.
          -- rewrite Qcplus_0_r. eapply Qcle_trans; [exact H12|].
             rewrite <- (Qcplus_0_r a2) at 1.
             apply Qcplus_le_compat; [apply Qcle_refl | assumption]. }
  apply G; apply Qcle_refl.
Qed.

Lemma exact_ratio_unit (s1 s2 : Qc) :
  (0 <= s1)%Qc -> (s1 <= s2)%Qc -> XFin s2 <> zero (A := exact) ->
  exists q, xdiv (XFin s1) (XFin s2) = XFin q /\ (0 <= q)%Qc /\ (q <= 1)%Qc.
Proof.
  intros H0 H12 Hnz.
  assert (Hs2 : s2 <> 0%Qc).
  { intros E. apply Hnz. rewrite exact_zero, E. reflexivity. }
  assert (Hpos : (0 < s2)%Qc).
  { destruct (Qcle_lt_or_eq _ _ (Qcle_trans _ _ _ H0 H12)) as [Hlt|Heq];
      [exact Hlt | congruence]. }
  exists (s1 / s2)%Qc. simpl. rewrite (Qc_is_zero_false _ Hs2).
  split; [reflexivity|]. split.
  - apply (Qcmult_lt_0_le_reg_r _ _ s2 Hpos).
    rewrite Qcmult_0_l, Qcmult_comm, Qcmult_div_r by exact Hs2. exact H0.
  - apply (Qcmult_lt_0_le_reg_r _ _ s2 Hpos).
    rewrite Qcmult_1_l, Qcmult_comm, Qcmult_div_r by exact Hs2. exact H12.
Qed.


Lemma exact_bottom_ratio (t q : Qc) :
  q <> 0%Qc ->
  xdiv (xdiv (XFin t) (XFin q)) (xdiv (one (A := exact)) (XFin q)) = XFin t.
Proof.
  intros Hq. rewrite exact_one. cbn [xdiv]. rewrite (Qc_is_zero_false _ Hq).
  assert (Hinv : (1 / q)%Qc <> 0%Qc).
  { intros E. apply (f_equal (fun x => (q * x)%Qc)) in E.
    rewrite Qcmult_div_r, Qcmult_0_r in E by exact Hq. revert E. apply Q_apart_0_1. }
  cbn [xdiv]. rewrite (Qc_is_zero_false _ Hinv). f_equal. field. split; [exact Hq|].
  apply Q_apart_0_1.
Qed.

(** ** The reference index in binary64 *)

Lemma b64_sub_finite_not_nan (x y : spec_float) :
  b64_isnan x = false -> b64_finite y = true ->
  b64_isnan (SFsub prec64 emax64 x y) = false.
Proof.
  intros Hx Hy. destruct y as [| | |sy my ey]; try discriminate.
  destruct x as [sx|sx| |sx mx ex]; try discriminate; try reflexivity.
  cbn [SFsub]. apply binary_normalize_not_nan.
Qed.

Lemma b64_zero_leb_abs (v : spec_float) :
  b64_isnan v = false -> SFleb (S754_zero false) (SFabs v) = true.
Proof. destruct v as [s|s| |s m e]; try discriminate; reflexivity. Qed.

Lemma b64_zero_ltb_abs_negative (v : spec_float) :
  b64_negative v = true -> SFltb (S754_zero false) (SFabs v) = true.
Proof. destruct v as [s|[|]| |[|] m e]; try discriminate; reflexivity. Qed.

Lemma forallb_nth {T : Type} (f : T -> bool) (l : list T) (d : T) (k : nat) :
  forallb f l = true -> k < length l -> f (nth k l d) = true.
Proof.
  intros H Hk. rewrite forallb_forall in H. apply H. apply nth_In. exact Hk.
Qed.

(** On an increasing axis of valid doubles the index of the level nearest
    to 50000 Pa is the position of the level 50000 Pa. *)
Lemma b64_reference_index (plev_array : list spec_float) (i : nat) :
  strictly_increasing plev_array = true ->
  forallb b64_valid plev_array = true ->
  nth_error plev_array i = Some plev_FT ->
  nearest_level plev_array plev_FT = Ok i.
Proof.
  intros Hinc Hval Hvi.
  destruct (nth_error_nth_nan _ _ _ Hvi) as [Hil Hiv].
  assert (Hne : plev_array <> []) by (intros E; rewrite E in Hvi; destruct i; discriminate).
  destruct (nearest_level_spec plev_array plev_FT Hne) as (r & Hr & Hrl & Hmin & Hfirst).
  rewrite Hr. f_equal.
  assert (Hdi : absv (nth i plev_array nan -^ plev_FT) = S754_zero false)
    by (rewrite Hiv; reflexivity).
  destruct (Nat.lt_trichotomy r i) as [H|[H|H]]; [exfalso|exact H|exfalso].
  - specialize (Hmin i Hil). rewrite Hdi in Hmin.
    assert (Hlt : (nth r plev_array nan <^? plev_FT) = true).
    { rewrite <- Hiv. apply (strictly_increasing_nth plev_array r i); assumption. }
    assert (Hneg : b64_negative (nth r plev_array nan -^ plev_FT) = true).
    { exact (SFsub_below_negative prec64 emax64 eq_refl
               (nth r plev_array nan) 6871947673600000%positive (-37)%Z
               (forallb_nth _ _ nan r Hval Hrl) eq_refl Hlt). }
    apply b64_zero_ltb_abs_negative in Hneg.
    change (S754_zero false <^? absv (nth r plev_array nan -^ plev_FT)) with
      (SFltb (S754_zero false) (SFabs (nth r plev_array nan -^ plev_FT))) in Hmin.
    congruence.
  - specialize (Hfirst i H). rewrite Hdi in Hfirst.
    assert (Hlt : (plev_FT <^? nth r plev_array nan) = true).
    { rewrite <- Hiv. apply (strictly_increasing_nth plev_array i r); assumption. }
    assert (Hn : b64_isnan (nth r plev_array nan -^ plev_FT) = false).
    { apply b64_sub_finite_not_nan; [|reflexivity].
      apply ltb_not_nan in Hlt. tauto. }
    apply b64_zero_leb_abs in Hn.
    change (S754_zero false <=^? absv (nth r plev_array nan -^ plev_FT)) with
      (SFleb (S754_zero false) (SFabs (nth r plev_array nan -^ plev_FT))) in Hfirst.
    congruence.
Qed.

(** ** Counting with unit weights in binary64 *)

Lemma b64_fold_count {P : Type} (pts : list P) (c : P -> bool) : forall a : Z,
  (0 <= a)%Z -> (a + Z.of_nat (length pts) < 2 ^ 53)%Z ->
  fold_left (add (Arith := binary64))
    (map (fun p => if isnan (where_ (c p) (one (A := binary64))) then zero
                   else where_ (c p) one) pts)
    (of_Z a)
  = of_Z (a + Z.of_nat (length (filter c pts))).
Proof.
  induction pts as [|p pts IH]; intros a Ha Hb.
  - simpl. rewrite Z.add_0_r. reflexivity.
  - cbn [map fold_left filter]. cbn [length] in Hb. rewrite Nat2Z.inj_succ in Hb.
    destruct (c p).
    + replace (of_Z a +^ (if isnan (where_ true one) then zero else where_ true one))
        with (of_Z (Arith := binary64) (a + 1))
        by (symmetry; apply b64_add_one; lia).
      rewrite IH by lia.
      cbn [length]. rewrite Nat2Z.inj_succ. f_equal. lia.
    + replace (of_Z a +^ (if isnan (where_ false one) then zero else where_ false one))
        with (of_Z (Arith := binary64) a)
        by (symmetry; apply b64_add_zero; lia).
      apply IH; lia.
Qed.

Lemma b64_nansum_count {P : Type} (pts : list P) (c : P -> bool) :
  (Z.of_nat (length pts) < 2 ^ 53)%Z ->
  np_nansum (map (fun p => where_ (c p) (one (A := binary64))) pts)
  = of_Z (Z.of_nat (length (filter c pts))).
Proof.
  intros Hb. unfold np_nansum. rewrite map_map. destruct pts as [|p pts]; [reflexivity|].
  cbn [map np_sum filter]. cbn [length] in Hb. rewrite Nat2Z.inj_succ in Hb.
  destruct (c p).
  - change (if isnan (where_ true one) then zero else where_ true one)
      with (of_Z (Arith := binary64) 1).
    rewrite (b64_fold_count pts c 1) by lia.
    cbn [length]. rewrite Nat2Z.inj_succ. f_equal. lia.
  - change (if isnan (where_ false one) then zero else where_ false one)
      with (of_Z (Arith := binary64) 0).
    rewrite (b64_fold_count pts c 0) by lia. reflexivity.
Qed.


(** ** Signs of rationals *)

Lemma Qc_negative_spec (q : Qc) :
  (Qc_negative q = true -> (q < 0)%Qc) /\ (Qc_negative q = false -> (0 <= q)%Qc).
Proof.
  unfold Qc_negative. destruct (q ?= 0)%Qc eqn:E; split; intros H; try discriminate.
  - apply Qceq_alt in E. rewrite E. apply Qcle_refl.
  - exact E.
  - apply Qclt_le_weak. apply Qcgt_alt. exact E.
Qed.

(** ** Sums of rationals *)

Lemma this_plus (x y : Qc) : (this (x + y)%Qc == this x + this y)%Q.
Proof. unfold Qcplus, Q2Qc. cbn [this]. apply Qred_correct. Qed.

Lemma this_mult (x y : Qc) : (this (x * y)%Qc == this x * this y)%Q.
Proof. unfold Qcmult, Q2Qc. cbn [this]. apply Qred_correct. Qed.

Lemma this_opp (x : Qc) : (this (- x)%Qc == - this x)%Q.
Proof. unfold Qcopp, Q2Qc. cbn [this]. apply Qred_correct. Qed.

Lemma this_minus (x y : Qc) : (this (x - y)%Qc == this x - this y)%Q.
Proof. unfold Qcminus. rewrite this_plus, this_opp. reflexivity. Qed.

(** Linear arithmetic on canonical rationals, through the rationals. *)
Ltac qc_lra :=
  unfold Qcle, Qclt in *;
  repeat match goal with
  | H : context [this (_ + _)%Qc] |- _ => rewrite this_plus in H
  | H : context [this (_ * _)%Qc] |- _ => rewrite this_mult in H
  | H : context [this (_ - _)%Qc] |- _ => rewrite this_minus in H
  | H : context [this (- _)%Qc] |- _ => rewrite this_opp in H
  | |- context [this (_ + _)%Qc] => rewrite this_plus
  | |- context [this (_ * _)%Qc] => rewrite this_mult
  | |- context [this (_ - _)%Qc] => rewrite this_minus
  | |- context [this (- _)%Qc] => rewrite this_opp
  end;
  change (this 0%Qc) with 0%Q in *; change (this 1%Qc) with 1%Q in *;
  lra.

Lemma exact_np_sum_fin {I : Type} (u : I -> Qc) (l0 : list I) :
  np_sum (map (fun i => XFin (u i)) l0) = XFin (fold_left Qcplus (map u l0) 0%Qc).
Proof.
  rewrite exact_np_sum. generalize 0%Qc.
  induction l0 as [|i l0 IH]; intros a; [reflexivity|].
  cbn [map fold_left xadd]. apply IH.
Qed.

Lemma Qsum_bounds {I : Type} (u v : I -> Qc) (lo hi : Qc) (l0 : list I) :
  (forall i, In i l0 -> (lo * v i <= u i)%Qc /\ (u i <= hi * v i)%Qc) ->
  forall au av, (lo * av <= au)%Qc -> (au <= hi * av)%Qc ->
  (lo * fold_left Qcplus (map v l0) av <= fold_left Qcplus (map u l0) au)%Qc /\
  (fold_left Qcplus (map u l0) au <= hi * fold_left Qcplus (map v l0) av)%Qc.
Proof.
  induction l0 as [|i l0 IH]; intros H au av H1 H2; [split; assumption|].
  cbn [map fold_left]. destruct (H i (or_introl eq_refl)) as [Hi1 Hi2].
  apply IH.
  - intros j Hj. apply H. right. exact Hj.
  - qc_lra.
  - qc_lra.
Qed.

Lemma Qsum_pos {I : Type} (v : I -> Qc) (l0 : list I) :
  (forall i, In i l0 -> (0 < v i)%Qc) ->
  forall a, (0 <= a)%Qc -> (l0 <> [] \/ (0 < a)%Qc) ->
  (0 < fold_left Qcplus (map v l0) a)%Qc.
Proof.
  induction l0 as [|i l0 IH]; intros H a Ha Hne.
  - destruct Hne as [Hne|Hne]; [congruence | exact Hne].
  - cbn [map fold_left]. pose proof (H i (or_introl eq_refl)) as Hi.
    apply IH.
    + intros j Hj. apply H. right. exact Hj.
    + qc_lra.
    + right. qc_lra.
Qed.

Lemma Qsum_telescope (x : nat -> Qc) (n s : nat) : forall a,
  fold_left Qcplus (map (fun j => (x (S j) - x j)%Qc) (seq s n)) a
  = (a + (x (s + n)%nat - x s))%Qc.
Proof.
  revert s. induction n as [|n IH]; intros s a.
  - cbn [seq map fold_left]. rewrite Nat.add_0_r. ring.
  - cbn [seq map fold_left]. rewrite IH.
    replace (S s + n)%nat with (s + S n)%nat by lia. ring.
Qed.

Lemma Qsum_scale {I : Type} (u : I -> Qc) (c : Qc) (l0 : list I) : forall a,
  fold_left Qcplus (map (fun i => (u i * c)%Qc) l0) (a * c)%Qc
  = (fold_left Qcplus (map u l0) a * c)%Qc.
Proof.
  induction l0 as [|i l0 IH]; intros a; [reflexivity|].
  cbn [map fold_left]. rewrite <- IH. f_equal. ring.
Qed.

(** ** The adjustment in exact arithmetic *)

Lemma xltb_fin (p q : Qc) : xltb (XFin p) (XFin q) = true -> (p < q)%Qc.
Proof.
  unfold xltb. cbn [xcompare]. destruct (p ?= q)%Qc eqn:E; try discriminate.
  intros _. apply Qclt_alt. exact E.
Qed.

Lemma xltb_fin_intro (p q : Qc) : (p < q)%Qc -> xltb (XFin p) (XFin q) = true.
Proof.
  intros H. unfold xltb. cbn [xcompare].
  destruct (Qclt_alt p q) as [F _]. specialize (F H).
  rewrite F. reflexivity.
Qed.

Lemma xleb_fin (p q : Qc) : (p <= q)%Qc -> xleb (XFin p) (XFin q) = true.
Proof.
  intros H. unfold xleb. cbn [xcompare]. destruct (p ?= q)%Qc eqn:E; try reflexivity.
  apply Qcle_alt in H. exfalso. apply H. exact E.
Qed.

Lemma exact_abs_nonneg (v : xnum) : xisnan v = false -> xleb (XFin 0%Qc) (xabs v) = true.
Proof.
  destruct v as [|s|q]; try discriminate; intros _; [reflexivity|].
  cbn [xabs]. apply xleb_fin.
  destruct (Qc_negative_spec q) as [Hn Hp].
  destruct (Qc_negative q).
  - specialize (Hn eq_refl). qc_lra.
  - apply Hp. reflexivity.
Qed.

Lemma exact_abs_sub_pos (a : xnum) (p : Qc) :
  xltb a (XFin p) = true \/ xltb (XFin p) a = true ->
  xltb (XFin 0%Qc) (xabs (xsub a (XFin p))) = true.
Proof.
  destruct a as [|s|q]; cbn [xsub xabs].
  - intros [H|H]; discriminate.
  - intros _. reflexivity.
  - intros H.
    assert (Hne : (q - p)%Qc <> 0%Qc).
    { intros E. assert (q = p) by (rewrite <- (Qcplus_0_l p), <- E; ring). subst q.
      destruct H as [H|H]; apply xltb_fin in H; revert H; apply Qcle_not_lt, Qcle_refl. }
    destruct (Qc_negative_spec (q - p)) as [Hn Hp].
    destruct (Qc_negative (q - p)); apply xltb_fin_intro.
    + specialize (Hn eq_refl). qc_lra.
    + specialize (Hp eq_refl).
      destruct (Qcle_lt_or_eq _ _ Hp) as [G|G]; [exact G | congruence].
Qed.

(** In exact arithmetic too the level nearest to 50000 Pa is the level
    50000 Pa. *)
Lemma exact_reference_index (plev_array : list xnum) (i : nat) :
  strictly_increasing plev_array = true ->
  nth_error plev_array i = Some plev_FT ->
  nearest_level plev_array plev_FT = Ok i.
Proof.
  intros Hinc Hvi.
  destruct (nth_error_nth_nan _ _ _ Hvi) as [Hil Hiv].
  assert (Hne : plev_array <> []) by (intros E; rewrite E in Hvi; destruct i; discriminate).
  destruct (nearest_level_spec plev_array plev_FT Hne) as (r & Hr & Hrl & Hmin & Hfirst).
  rewrite Hr. f_equal.
  assert (Hdi : absv (nth i plev_array nan -^ plev_FT) = XFin 0%Qc).
  { rewrite Hiv. change (xabs (xsub (XFin (Qc_of_Z 50000)) (XFin (Qc_of_Z 50000))) = XFin 0%Qc).
    cbn [xsub xabs]. replace (Qc_of_Z 50000 - Qc_of_Z 50000)%Qc with 0%Qc by ring.
    reflexivity. }
  destruct (Nat.lt_trichotomy r i) as [H|[H|H]]; [exfalso|exact H|exfalso].
  - specialize (Hmin i Hil). rewrite Hdi in Hmin.
    assert (Hlt : (nth r plev_array nan <^? plev_FT) = true).
    { rewrite <- Hiv. apply (strictly_increasing_nth plev_array r i); assumption. }
    pose proof (exact_abs_sub_pos (nth r plev_array nan) (Qc_of_Z 50000) (or_introl Hlt)) as C.
    change (XFin 0%Qc <^? absv (nth r plev_array nan -^ plev_FT))
      with (xltb (XFin 0%Qc) (xabs (xsub (nth r plev_array nan) (XFin (Qc_of_Z 50000))))) in Hmin.
    congruence.
  - specialize (Hfirst i H). rewrite Hdi in Hfirst.
    assert (Hlt : (plev_FT <^? nth r plev_array nan) = true).
    { rewrite <- Hiv. apply (strictly_increasing_nth plev_array i r); assumption. }
    assert (Hn : xisnan (xsub (nth r plev_array nan) (XFin (Qc_of_Z 50000))) = false).
    { apply ltb_not_nan in Hlt. destruct Hlt as [_ Hn].
      destruct (nth r plev_array nan); [discriminate | reflexivity | reflexivity]. }
    apply exact_abs_nonneg in Hn.
    change (XFin 0%Qc <=^? absv (nth r plev_array nan -^ plev_FT))
      with (xleb (XFin 0%Qc) (xabs (xsub (nth r plev_array nan) (XFin (Qc_of_Z 50000))))) in Hfirst.
    congruence.
Qed.

Lemma Qc_of_Z_2_not_zero : Qc_is_zero (Qc_of_Z 2) = false.
Proof. reflexivity. Qed.

Lemma this_half (p : Qc) : (this (p / Qc_of_Z 2)%Qc == this p * (1 # 2))%Q.
Proof.
  unfold Qcdiv. rewrite this_mult.
  change (this (/ Qc_of_Z 2)%Qc) with (1 # 2)%Q. reflexivity.
Qed.

(** The trapezoid sum of numbers is a number: the sum of the terms as
    rationals. *)
Lemma exact_trapezoid (plev_array dhdp_col : list xnum) (X Y : nat -> Qc) (i k : nat) :
  (forall j, i <= j <= k ->
     nth j plev_array nan = XFin (X j) /\ nth j dhdp_col nan = XFin (Y j)) ->
  trapezoid plev_array dhdp_col i k
  = XFin (fold_left Qcplus
            (map (fun j => (((X (S j) - X j) * (Y (S j) + Y j)) / Qc_of_Z 2)%Qc)
                 (seq i (k - i))) 0%Qc).
Proof.
  intros H. unfold trapezoid. rewrite <- exact_np_sum_fin. f_equal.
  apply map_ext_in. intros j Hj. apply in_seq in Hj.
  destruct (H j ltac:(lia)) as [Ex Ey]. destruct (H (S j) ltac:(lia)) as [Ex' Ey'].
  rewrite Ex, Ey, Ex', Ey'.
  change (xdiv (XFin ((X (S j) - X j) * (Y (S j) + Y j))%Qc) (XFin (Qc_of_Z 2))
          = XFin (((X (S j) - X j) * (Y (S j) + Y j)) / Qc_of_Z 2)%Qc).
  cbn [xdiv]. rewrite Qc_of_Z_2_not_zero. reflexivity.
Qed.

(** ** Counting the kept points in binary64 *)

Lemma b64_masked_fraction_count (g : grid) (c : nat -> nat -> nat -> bool)
  (weights : nat -> spec_float) (landmask : field3) :
  (Z.of_nat (length (points g)) < 2 ^ 53)%Z ->
  (forall la, la < n_lat g -> weights la = one) ->
  xr_sum g (fun m la lo => where_ (c m la lo) (weights_3Darray weights landmask m la lo))
  /^ xr_sum g (weights_3Darray weights landmask)
  = of_Z (Z.of_nat (count_points g (fun m la lo => c m la lo && kept landmask m la lo)))
    /^ of_Z (Z.of_nat (count_points g (kept landmask))).
Proof.
  intros Hb Hw. unfold xr_sum, count_points.
  assert (W : forall pt, In pt (points g) ->
            at_point (weights_3Darray weights landmask) pt
            = where_ (let '(m, la, lo) := pt in kept landmask m la lo) (one (A := binary64))).
  { intros [[m la] lo] Hin. apply in_points in Hin. unfold at_point, kept.
    destruct (isnan (landmask m la lo)) eqn:K.
    - rewrite kept_weight by exact K. rewrite Hw by tauto. reflexivity.
    - rewrite flagged_weight by exact K. reflexivity. }
  f_equal.
  - transitivity (np_nansum (map (fun pt : nat * nat * nat =>
                    where_ (let '(m, la, lo) := pt in c m la lo && kept landmask m la lo)
                           (one (A := binary64)))
                    (points g))).
    + f_equal. apply map_ext_in.
      intros [[m la] lo] Hin. unfold at_point at 1.
      pose proof (W (m, la, lo) Hin) as E. unfold at_point in E. rewrite E.
      destruct (c m la lo), (kept landmask m la lo); reflexivity.
    + apply b64_nansum_count. exact Hb.
  - transitivity (np_nansum (map (fun pt : nat * nat * nat =>
                    where_ (let '(m, la, lo) := pt in kept landmask m la lo)
                           (one (A := binary64))) (points g))).
    + f_equal. apply map_ext_in. intros pt Hin. exact (W pt Hin).
    + apply b64_nansum_count. exact Hb.
Qed.

(** * The claims *)

(** ** The adjustment of a column *)

Lemma nearest_level_lt_length (plev_array : list spec_float) (p : spec_float) (k : nat) :
  nearest_level plev_array p = Ok k -> k < length plev_array.
Proof.
  intros H. destruct plev_array as [|a t] eqn:E; [discriminate|]. rewrite <- E in *.
  destruct (nearest_level_spec plev_array p) as (k' & Hk' & Hlt & _).
  { rewrite E. discriminate. }
  congruence.
Qed.

(** On a pressure axis the reference index of the notebook,
    [np.argmin(np.abs(plev_array - plev_FT))], is the position of the
    500 hPa level. *)
Lemma pressure_axis_reference (plev_array : list spec_float) (i : nat) :
  pressure_axis plev_array = true ->
  nth_error plev_array i = Some plev_FT ->
  strictly_increasing plev_array = true /\ nearest_level plev_array plev_FT = Ok i.
Proof.
  unfold pressure_axis. intros H Hvi. apply andb_true_iff in H. destruct H as [Hinc Hval].
  split; [exact Hinc|]. apply b64_reference_index; assumption.
Qed.

(** C1.  On a pressure axis that holds the 500 hPa level at position [i],
    the column's LCL level is the first level of least absolute difference
    to the LCL pressure: no level is strictly nearer and no earlier level
    is as near.  The integrand is restricted to the positions from the
    reference level to that level, both included; [np.trapz] is given this
    slice and the pressures of the same positions, and the column gets one
    value.  With fewer than eight trapezoids between the two levels that
    value is the trapezoidal rule in binary64, the areas
    [(p[j+1] - p[j]) * (y[j+1] + y[j]) / 2] added in turn.  In exact
    arithmetic, on numbers, it is the sum of these areas for any number of
    levels. *)
Theorem adjustment_nearest_level_trapezoid :
  (forall (plev_array dhdp_col : list spec_float) (lcli : spec_float) (i : nat),
     pressure_axis plev_array = true ->
     length dhdp_col = length plev_array ->
     nth_error plev_array i = Some plev_FT ->
     exists k,
       nearest_level plev_array lcli = Ok k /\ k < length plev_array /\
       (forall j, j < length plev_array ->
          (absv (nth j plev_array nan -^ lcli) <^? absv (nth k plev_array nan -^ lcli))
          = false) /\
       (forall j, j < k ->
          (absv (nth j plev_array nan -^ lcli) <=^? absv (nth k plev_array nan -^ lcli))
          = false) /\
       sel_plev plev_array dhdp_col plev_FT (nth k plev_array nan)
         = Ok (isel_slice dhdp_col i (k + 1)) /\
       adjustment plev_array dhdp_col lcli
         = np_trapz (isel_slice dhdp_col i (k + 1)) (isel_slice plev_array i (k + 1)) /\
       (exists v, adjustment plev_array dhdp_col lcli = Ok v) /\
       (k - i < 8 ->
        adjustment plev_array dhdp_col lcli
        = Ok (trapezoidal_rule plev_array dhdp_col i k))) /\
  (forall (plev_array dhdp_col : list xnum) (lcli : xnum) (X Y : nat -> Qc) (i : nat),
     strictly_increasing plev_array = true ->
     length dhdp_col = length plev_array ->
     nth_error plev_array i = Some plev_FT ->
     (forall j, j < length plev_array ->
        nth j plev_array nan = XFin (X j) /\ nth j dhdp_col nan = XFin (Y j)) ->
     exists k,
       nearest_level plev_array lcli = Ok k /\ k < length plev_array /\
       adjustment plev_array dhdp_col lcli
       = Ok (XFin (Qsum (fun j => (((X (S j) - X j) * (Y (S j) + Y j)) / Qc_of_Z 2)%Qc)
                        i (k - i)))).
Proof.
  split.
  - intros plev_array dhdp_col lcli i Hax Hlen Hvi.
    destruct (pressure_axis_reference plev_array i Hax Hvi) as [Hinc Hi].
    assert (Hne : plev_array <> []) by (intros E; rewrite E in Hi; discriminate).
    destruct (nearest_level_spec plev_array lcli Hne) as (k & Hk & Hlt & Hmin & Hfirst).
    pose proof (sel_plev_reference_to_level plev_array dhdp_col i k Hinc Hvi Hlt) as Hsel.
    pose proof (adjustment_trapezoid plev_array dhdp_col lcli i k
                  Hinc Hlen Hi Hvi Hk Hlt) as Hadj.
    exists k. repeat split; auto.
    + rewrite Nat.add_1_r. exact Hsel.
    + unfold adjustment. rewrite Hi, Hk. cbn [bind]. rewrite Hsel. cbn [bind].
      rewrite Nat.add_1_r. reflexivity.
    + eexists. exact Hadj.
    + intros _. rewrite Hadj, trapezoid_in_turn. reflexivity.
  - intros plev_array dhdp_col lcli X Y i Hinc Hlen Hvi H.
    pose proof (exact_reference_index plev_array i Hinc Hvi) as Hi.
    assert (Hne : plev_array <> []) by (intros E; rewrite E in Hvi; destruct i; discriminate).
    destruct (nearest_level_spec plev_array lcli Hne) as (k & Hk & Hlt & _).
    exists k. split; [exact Hk|]. split; [exact Hlt|].
    rewrite (adjustment_trapezoid plev_array dhdp_col lcli i k) by assumption.
    rewrite (exact_trapezoid plev_array dhdp_col X Y i k)
      by (intros j Hj; apply H; lia).
    reflexivity.
Qed.

(** For an LCL of 990 hPa among the levels 250, 500, 850 and 1000 hPa: two
    trapezoids, from 500 to 850 hPa and from 850 to 1000 hPa. *)
Lemma adjustment_nearest_level_trapezoid_witness :
  (exists k,
     nearest_level ex_plev (of_Z 99000) = Ok k /\
     sel_plev ex_plev ex_dhdp plev_FT (nth k ex_plev nan)
       = Ok (isel_slice ex_dhdp 1 (k + 1)) /\
     adjustment ex_plev ex_dhdp (of_Z 99000) = Ok (trapezoidal_rule ex_plev ex_dhdp 1 k)) /\
  (exists k,
     nearest_level ex_plev_exact (of_Z 99000) = Ok k /\
     adjustment ex_plev_exact ex_dhdp_exact (of_Z 99000)
     = Ok (XFin (Qsum (fun j => (((ex_levels (S j) - ex_levels j)
                                  * (ex_values (S j) + ex_values j)) / Qc_of_Z 2)%Qc)
                      1 (k - 1)))).
Proof.
  destruct adjustment_nearest_level_trapezoid as [H64 Hex]. split.
  - destruct (H64 ex_plev ex_dhdp (of_Z 99000) 1 eq_refl eq_refl eq_refl)
      as (k & Hk & _ & _ & _ & Hsel & _ & _ & Hv).
    exists k. split; [exact Hk|]. split; [exact Hsel|]. apply Hv.
    vm_compute in Hk. injection Hk as <-. vm_compute. lia.
  - destruct (Hex ex_plev_exact ex_dhdp_exact (of_Z 99000) ex_levels ex_values 1
                  eq_refl eq_refl eq_refl) as (k & Hk & _ & Hv).
    + intros j Hj. simpl in Hj.
      assert (E : j = 0 \/ j = 1 \/ j = 2 \/ j = 3) by lia.
      destruct E as [-> | [-> | [-> | ->]]]; split; reflexivity.
    + exists k. split; [exact Hk | exact Hv].
Defined.

(** The two areas are 87500 and 52500, in binary64 and as rationals. *)
Lemma two_trapezoids :
  nearest_level ex_plev (of_Z 99000) = Ok 3 /\
  trapezoidal_rule ex_plev ex_dhdp 1 3 = of_Z 140000 /\
  adjustment ex_plev ex_dhdp (of_Z 99000) = Ok (of_Z 140000) /\
  adjustment ex_plev_exact ex_dhdp_exact (of_Z 99000) = Ok (of_Z 140000).
Proof. vm_compute. repeat split; reflexivity. Qed.

(** The level chosen for an LCL of 900 hPa among 250, 500, 850 and 1000 hPa
    is 850 hPa, an interior level, and the adjustment is the one trapezoid
    between 500 and 850 hPa: (85000 - 50000) * (3 + 2) / 2. *)
Lemma nearest_level_is_interior :
  nearest_level ex_plev (of_Z 90000) = Ok 2 /\
  adjustment ex_plev ex_dhdp (of_Z 90000) = Ok (of_Z 87500).
Proof. vm_compute. split; reflexivity. Qed.

(** C9.  When the level nearest to the LCL is the 500 hPa level itself, the
    pressures integrated over are that one level and the adjustment is 0.0,
    whatever the integrand holds. *)
Theorem adjustment_zero_at_reference_level
  (plev_array dhdp_col : list spec_float) (lcli : spec_float) (k : nat) :
  pressure_axis plev_array = true ->
  nearest_level plev_array lcli = Ok k ->
  nth_error plev_array k = Some plev_FT ->
  isel_slice plev_array k (k + 1) = [plev_FT] /\
  adjustment plev_array dhdp_col lcli = Ok zero.
Proof.
  intros Hax Hk Hvk.
  destruct (pressure_axis_reference plev_array k Hax Hvk) as [Hinc Hi].
  destruct (nth_error_nth_nan _ _ _ Hvk) as [Hkl Hkv].
  split.
  - rewrite (isel_slice_nth nan) by lia.
    replace (k + 1 - k) with 1 by lia. cbn [seq map]. rewrite Hkv. reflexivity.
  - apply (adjustment_short plev_array dhdp_col lcli k k); auto.
Qed.

Lemma adjustment_zero_at_reference_level_witness :
  isel_slice ex_plev 1 (1 + 1) = [plev_FT] /\
  adjustment ex_plev ex_dhdp_nan (of_Z 60000) = Ok zero.
Proof.
  apply (adjustment_zero_at_reference_level ex_plev ex_dhdp_nan (of_Z 60000) 1);
    vm_compute; reflexivity.
Defined.

(** C10.  When the level nearest to the LCL has a lower pressure than the
    500 hPa level, the slice of the integrand and the slice of the axis are
    both empty and the adjustment is 0.0, a number and not NaN. *)
Theorem adjustment_zero_above_reference_level
  (plev_array dhdp_col : list spec_float) (lcli : spec_float) (i k : nat) :
  pressure_axis plev_array = true ->
  nth_error plev_array i = Some plev_FT ->
  nearest_level plev_array lcli = Ok k ->
  (nth k plev_array nan <^? plev_FT) = true ->
  sel_plev plev_array dhdp_col plev_FT (nth k plev_array nan) = Ok [] /\
  isel_slice plev_array i (k + 1) = [] /\
  adjustment plev_array dhdp_col lcli = Ok zero /\
  isnan (zero (A := binary64)) = false.
Proof.
  intros Hax Hvi Hk Hlow.
  destruct (pressure_axis_reference plev_array i Hax Hvi) as [Hinc Hi].
  destruct (nth_error_nth_nan _ _ _ Hvi) as [Hil Hiv].
  pose proof (nearest_level_lt_length _ _ _ Hk) as Hkl.
  assert (Hki : k < i).
  { destruct (Nat.lt_trichotomy k i) as [H|[H|H]]; [exact H|exfalso|exfalso].
    - subst k. rewrite Hiv, ltb_irrefl in Hlow. discriminate.
    - pose proof (strictly_increasing_nth _ i k Hinc H Hkl) as C. rewrite Hiv in C.
      pose proof (ltb_trans _ _ _ C Hlow) as C'. rewrite ltb_irrefl in C'. discriminate. }
  repeat split.
  - rewrite (sel_plev_reference_to_level _ _ i k Hinc Hvi Hkl).
    rewrite isel_slice_empty by lia. reflexivity.
  - apply isel_slice_empty. lia.
  - apply (adjustment_short plev_array dhdp_col lcli i k); auto. lia.
Qed.

Lemma adjustment_zero_above_reference_level_witness :
  sel_plev ex_plev ex_dhdp plev_FT (nth 0 ex_plev nan) = Ok [] /\
  isel_slice ex_plev 1 (0 + 1) = [] /\
  adjustment ex_plev ex_dhdp (of_Z 30000) = Ok zero /\
  isnan (zero (A := binary64)) = false.
Proof.
  apply (adjustment_zero_above_reference_level ex_plev ex_dhdp (of_Z 30000) 1 0);
    vm_compute; reflexivity.
Defined.

(** A column whose LCL pressure is NaN gets 0.0 too: [np.argmin] answers 0,
    the top of the axis. *)
Lemma adjustment_of_missing_lcl :
  nearest_level ex_plev nan = Ok 0 /\
  adjustment ex_plev ex_dhdp nan = Ok zero.
Proof. vm_compute. split; reflexivity. Qed.

(** C3, as stated, fails on a slice of one level: with the level nearest to
    the LCL equal to the 500 hPa level and the integrand NaN there, the
    restricted slice is [[NaN]] and the adjustment is 0.0. *)
Lemma nan_in_one_level_slice_gives_zero :
  nearest_level ex_plev (of_Z 60000) = Ok 1 /\
  sel_plev ex_plev ex_dhdp_nan plev_FT (nth 1 ex_plev nan) = Ok [nan] /\
  adjustment ex_plev ex_dhdp_nan (of_Z 60000) = Ok zero /\
  isnan (zero (A := binary64)) = false.
Proof. vm_compute. repeat split; reflexivity. Qed.

(** C3, amended.  When the restricted slice holds at least two levels, a
    NaN of the integrand at any level of the slice makes the adjustment
    NaN; and the integrand is NaN at a level where the saturation deficit
    or the pressure-weighted virtual temperature is NaN. *)
Theorem adjustment_nan_over_two_levels
  (Lv : spec_float) (log : spec_float -> spec_float)
  (plev_array : list spec_float) (lcli : spec_float) (i k j : nat) :
  pressure_axis plev_array = true ->
  nth_error plev_array i = Some plev_FT ->
  nearest_level plev_array lcli = Ok k ->
  i < k -> i <= j <= k ->
  (forall dhdp_col,
     length dhdp_col = length plev_array ->
     isnan (nth j dhdp_col nan) = true ->
     adjustment plev_array dhdp_col lcli = Ok nan) /\
  (forall virtual_temp tvw sat_def pfull ps,
     length pfull = length plev_array ->
     isnan (nth j sat_def nan) = true \/ isnan (nth j tvw nan) = true ->
     adjustment plev_array (dhdp Lv log virtual_temp tvw sat_def pfull ps) lcli = Ok nan).
Proof.
  intros Hax Hvi Hk Hik Hj.
  destruct (pressure_axis_reference plev_array i Hax Hvi) as [Hinc Hi].
  pose proof (nearest_level_lt_length _ _ _ Hk) as Hkl.
  assert (G : forall dhdp_col,
     length dhdp_col = length plev_array ->
     isnan (nth j dhdp_col nan) = true ->
     adjustment plev_array dhdp_col lcli = Ok nan).
  { intros dhdp_col Hlen Hn.
    rewrite (adjustment_trapezoid plev_array dhdp_col lcli i k) by assumption.
    f_equal. apply (trapezoid_nan plev_array dhdp_col i k j); assumption. }
  split; [exact G|].
  intros virtual_temp tvw sat_def pfull ps Hlen Hn.
  apply G.
  - rewrite length_dhdp. exact Hlen.
  - rewrite nth_dhdp by lia. rewrite dhdp_at_nan by exact Hn. reflexivity.
Qed.

Lemma adjustment_nan_over_two_levels_witness :
  (forall dhdp_col,
     length dhdp_col = length ex_plev ->
     isnan (nth 2 dhdp_col nan) = true ->
     adjustment ex_plev dhdp_col (of_Z 99000) = Ok nan) /\
  (forall virtual_temp tvw sat_def pfull ps,
     length pfull = length ex_plev ->
     isnan (nth 2 sat_def nan) = true \/ isnan (nth 2 tvw nan) = true ->
     adjustment ex_plev
       (dhdp (of_Z 2500000) (fun x => x) virtual_temp tvw sat_def pfull ps)
       (of_Z 99000) = Ok nan).
Proof.
  apply (adjustment_nan_over_two_levels (of_Z 2500000) (fun x => x)
           ex_plev (of_Z 99000) 1 3 2);
    try (vm_compute; reflexivity); lia.
Defined.

(** ** The bottom level of the pressure-weighted virtual temperature *)

(** The loop over the levels needs the axis in increasing order and no
    level beyond 100000 Pa: otherwise the slice of the last level is empty
    and taking its first value raises. *)
Lemma part_needs_increasing_axis :
  part ex_plev_decreasing ex_dhdp = Raise IndexError /\
  part ex_plev_beyond (map of_Z [1; 2; 3]%Z) = Raise IndexError.
Proof. vm_compute. split; reflexivity. Qed.

(** C4, as stated, fails in binary64 on each of its two counts.  For a
    virtual temperature of 290 K at a bottom level of 100000 Pa the ratio
    [(290/100000)/(1/100000)] is the double just below 290, not 290.  And
    the ratio of the bottom level is NaN when the virtual temperature is
    missing there, and when the pressure there is 0 Pa, where both values
    of the level are infinite. *)
Lemma bottom_level_ratio_rounds :
  (virtual_temperature_pressure_weighted ex_plev ex_virtual_temp ex_plev
   = Ok [S754_finite false 4611477236687904 (-44);
         S754_finite false 4772914769964562 (-44);
         S754_finite false 5006641055343257 (-44);
         S754_finite false 5101733952880639 (-44)] /\
   nth 3 ex_virtual_temp nan = S754_finite false 5101733952880640 (-44) /\
   (S754_finite false 5101733952880639 (-44) ==^? nth 3 ex_virtual_temp nan) = false) /\
  (part_at ex_plev (virtual_temp_by_p ex_virtual_temp_missing ex_plev) 3 = Ok nan /\
   exists tvw,
     virtual_temperature_pressure_weighted ex_plev ex_virtual_temp_missing ex_plev
       = Ok tvw /\
     isnan (nth 3 tvw nan) = true) /\
  (part_at ex_plev (virtual_temp_by_p ex_virtual_temp ex_pfull_zero) 3
     = Ok (S754_infinity false) /\
   part_at ex_plev (inv_pfull ex_pfull_zero) 3 = Ok (S754_infinity false) /\
   exists tvw,
     virtual_temperature_pressure_weighted ex_plev ex_virtual_temp ex_pfull_zero
       = Ok tvw /\
     isnan (nth 3 tvw nan) = true).
Proof.
  split; [|split].
  - vm_compute. repeat split; reflexivity.
  - split; [vm_compute; reflexivity|]. eexists. split; vm_compute; reflexivity.
  - split; [vm_compute; reflexivity|]. split; [vm_compute; reflexivity|].
    eexists. split; vm_compute; reflexivity.
Qed.

(** C4, amended.  On an increasing axis whose last level is at most
    100000 Pa, one level lies between the last level and the surface
    reference, and the loop stores the values of [T_v/p] and [1/p] of that
    level; the pressure-weighted virtual temperature of that level is their
    quotient.  In binary64 the quotient is not NaN when [T_v/p] is not NaN
    and [1/p] is finite and not zero; in exact arithmetic it is [T_v] when
    [T_v] and [p] are numbers and [p] is not zero. *)
Theorem bottom_level_ratio :
  (forall (plev_array virtual_temp pfull : list spec_float),
     strictly_increasing plev_array = true ->
     plev_array <> [] ->
     (last plev_array nan <=^? p_surface) = true ->
     length virtual_temp = length plev_array ->
     length pfull = length plev_array ->
     let b := length plev_array - 1 in
     let tv := nth b virtual_temp nan in
     let p := nth b pfull nan in
     sel_plev plev_array plev_array (nth b plev_array nan) p_surface
       = Ok [nth b plev_array nan] /\
     part_at plev_array (virtual_temp_by_p virtual_temp pfull) b = Ok (tv /^ p) /\
     part_at plev_array (inv_pfull pfull) b = Ok (one /^ p) /\
     exists tvw,
       virtual_temperature_pressure_weighted plev_array virtual_temp pfull = Ok tvw /\
       nth b tvw nan = (tv /^ p) /^ (one /^ p) /\
       (isnan (tv /^ p) = false -> b64_finite (one /^ p) = true ->
        isnan (nth b tvw nan) = false)) /\
  (forall (plev_array virtual_temp pfull : list xnum) (t q : Qc),
     strictly_increasing plev_array = true ->
     plev_array <> [] ->
     (last plev_array nan <=^? p_surface) = true ->
     length virtual_temp = length plev_array ->
     length pfull = length plev_array ->
     let b := length plev_array - 1 in
     nth b virtual_temp nan = XFin t ->
     nth b pfull nan = XFin q ->
     q <> 0%Qc ->
     exists tvw,
       virtual_temperature_pressure_weighted plev_array virtual_temp pfull = Ok tvw /\
       nth b tvw nan = XFin t).
Proof.
  split.
  - intros plev_array virtual_temp pfull Hinc Hne Hlast Htv Hp b tv p.
    destruct (bottom_level_generic plev_array virtual_temp pfull Hinc Hne Hlast Htv Hp)
      as (H1 & H2 & H3 & tvw & H4 & H5).
    repeat split; auto. exists tvw. repeat split; auto.
    fold b tv p in H5. rewrite H5. intros F1 F2.
    destruct (one /^ p) as [| | |s2 m2 e2]; try discriminate.
    destruct (tv /^ p) as [s1|s1| |s1 m1 e1]; try discriminate; try reflexivity.
    apply SFdiv_finite_not_nan.
  - intros plev_array virtual_temp pfull t q Hinc Hne Hlast Htv Hp b Et Eq Hq.
    destruct (bottom_level_generic plev_array virtual_temp pfull Hinc Hne Hlast Htv Hp)
      as (_ & _ & _ & tvw & H4 & H5).
    exists tvw. split; [exact H4|].
    fold b in H5. rewrite H5, Et, Eq. apply exact_bottom_ratio. exact Hq.
Qed.

Lemma bottom_level_ratio_witness :
  (exists tvw,
     virtual_temperature_pressure_weighted ex_plev ex_virtual_temp ex_plev = Ok tvw /\
     isnan (nth 3 tvw nan) = false) /\
  (exists tvw,
     virtual_temperature_pressure_weighted ex_plev_exact ex_virtual_temp_exact ex_plev_exact
       = Ok tvw /\
     nth 3 tvw nan = XFin (Qc_of_Z 290)).
Proof.
  destruct bottom_level_ratio as [H64 Hex]. split.
  - destruct (H64 ex_plev ex_virtual_temp ex_plev)
      as (_ & _ & _ & tvw & H & _ & Hn); try (vm_compute; reflexivity); [discriminate|].
    exists tvw. split; [exact H|]. apply Hn; vm_compute; reflexivity.
  - apply (Hex ex_plev_exact ex_virtual_temp_exact ex_plev_exact
               (Qc_of_Z 290) (Qc_of_Z 100000));
      try (vm_compute; reflexivity); discriminate.
Defined.

(** ** Fractions in exact arithmetic *)

Lemma exact_weight_cases (g : grid) (weights : nat -> xnum) (landmask : field3)
  (pt : nat * nat * nat) :
  (forall la, la < n_lat g -> exists q, weights la = XFin q /\ (0 <= q)%Qc) ->
  In pt (points g) ->
  at_point (weights_3Darray weights landmask) pt = XNaN \/
  exists q, at_point (weights_3Darray weights landmask) pt = XFin q /\ (0 <= q)%Qc.
Proof.
  intros Hw Hin. destruct pt as [[m la] lo]. apply in_points in Hin.
  destruct (Hw la ltac:(tauto)) as (q & Eq & Hq).
  unfold at_point, weights_3Darray, masked_weights, where_.
  destruct (isnan (landmask m la lo)); [right | left; reflexivity].
  exists q. rewrite Eq, exact_one. simpl. rewrite !Qcmult_1_r. auto.
Qed.

Lemma exact_fraction_unit (g : grid) (c : nat -> nat -> nat -> bool)
  (weights : nat -> xnum) (landmask : field3) :
  (forall la, la < n_lat g -> exists q, weights la = XFin q /\ (0 <= q)%Qc) ->
  xr_sum g (weights_3Darray weights landmask) <> zero ->
  exists q,
    xr_sum g (fun m la lo => where_ (c m la lo) (weights_3Darray weights landmask m la lo))
    /^ xr_sum g (weights_3Darray weights landmask) = XFin q /\
    (0 <= q)%Qc /\ (q <= 1)%Qc.
Proof.
  intros Hw Hden. unfold xr_sum in *.
  destruct (exact_fraction_sums (points g)
              (fun pt => let '(m, la, lo) := pt in c m la lo)
              (at_point (weights_3Darray weights landmask)))
    as (s1 & s2 & E1 & E2 & H0 & H12).
  { intros pt Hin. apply (exact_weight_cases g); assumption. }
  rewrite E2 in *.
  replace (map (at_point (fun m la lo =>
             where_ (c m la lo) (weights_3Darray weights landmask m la lo))) (points g))
    with (map (fun pt => where_ (let '(m, la, lo) := pt in c m la lo)
                           (at_point (weights_3Darray weights landmask) pt)) (points g)).
  - rewrite E1. apply exact_ratio_unit; assumption.
  - apply map_ext. intros [[m la] lo]. reflexivity.
Qed.





(** ** Fractions in binary64 *)

(** What [dual_annealing] is given: the doubles nearest to 0.1 and 0.2 as
    bounds, and 1000 iterations. *)
Lemma dual_annealing_arguments :
  ehat_bounds (A := binary64)
  = (S754_finite false 7205759403792794 (-56), S754_finite false 7205759403792794 (-55)) /\
  maxiter = 1000.
Proof. split; reflexivity. Qed.

Lemma b64_ltb_zero_r (x : spec_float) : (x <^? zero) = b64_negative x.
Proof. destruct x as [[|]|[|]| |[|] m e]; reflexivity. Qed.

Lemma b64_ltb_zero_l (x : spec_float) : (zero <^? x) = b64_positive x.
Proof. destruct x as [[|]|[|]| |[|] m e]; reflexivity. Qed.

(** C6.  A point adds its weight to the numerator of the vertical-velocity
    fraction exactly when its 500 hPa vertical velocity is negative, and to
    the numerator of the instability fraction exactly when the residual
    [hsfc - adjustment*ehat - hsat500] is positive, the product brought to
    the units of [hsfc]; a zero of either sign and NaN are neither.  With
    all weights 1.0, on a grid of fewer than [2 ^ 53] points, the two
    fractions are the numbers of kept points with a negative velocity and
    with a positive residual over the number of kept points, and the
    objective is the absolute difference of these two quotients. *)
Theorem ascent_predicates_strict
  (to_hsfc_units : spec_float -> spec_float)
  (g : grid) (weights : nat -> spec_float) (landmask : field3) (ehat : spec_float)
  (hsfc adjustment_f hsat500 wap500 : field3) :
  let residual := fun m la lo =>
    (hsfc m la lo -^ to_hsfc_units (adjustment_f m la lo *^ ehat)) -^ hsat500 m la lo in
  let rising := fun m la lo => b64_negative (wap500 m la lo) in
  let unstable := fun m la lo => b64_positive (residual m la lo) in
  (forall m la lo,
     ascent_weights wap500 weights landmask m la lo
     = if rising m la lo then weights_3Darray weights landmask m la lo else nan) /\
  (forall m la lo,
     instab_weights (entrained to_hsfc_units ehat hsfc adjustment_f) hsat500
       weights landmask m la lo
     = if unstable m la lo then weights_3Darray weights landmask m la lo else nan) /\
  ((Z.of_nat (length (points g)) < 2 ^ 53)%Z ->
   (forall la, la < n_lat g -> weights la = one) ->
   let n_kept := of_Z (Z.of_nat (count_points g (kept landmask))) in
   let n_rising := of_Z (Z.of_nat (count_points g
                     (fun m la lo => rising m la lo && kept landmask m la lo))) in
   let n_unstable := of_Z (Z.of_nat (count_points g
                       (fun m la lo => unstable m la lo && kept landmask m la lo))) in
   calc_ascent_frac g wap500 weights landmask = n_rising /^ n_kept /\
   proportion_overcome_conv_threshold g (entrained to_hsfc_units ehat hsfc adjustment_f)
     hsat500 weights landmask = n_unstable /^ n_kept /\
   func to_hsfc_units g weights landmask ehat hsfc adjustment_f hsat500 wap500
   = absv (n_rising /^ n_kept -^ n_unstable /^ n_kept)).
Proof.
  intros residual rising unstable.
  assert (Ha : forall m la lo,
            ascent_weights wap500 weights landmask m la lo
            = where_ (rising m la lo) (weights_3Darray weights landmask m la lo)).
  { intros m la lo. unfold ascent_weights, rising. rewrite b64_ltb_zero_r. reflexivity. }
  assert (Hi : forall m la lo,
            instab_weights (entrained to_hsfc_units ehat hsfc adjustment_f) hsat500
              weights landmask m la lo
            = where_ (unstable m la lo) (weights_3Darray weights landmask m la lo)).
  { intros m la lo. unfold instab_weights, unstable, residual, entrained.
    rewrite b64_ltb_zero_l. reflexivity. }
  split; [exact Ha|]. split; [exact Hi|].
  intros Hb Hw n_kept n_rising n_unstable.
  assert (E1 : calc_ascent_frac g wap500 weights landmask = n_rising /^ n_kept).
  { unfold calc_ascent_frac, n_rising, n_kept.
    rewrite <- (b64_masked_fraction_count g rising weights landmask Hb Hw).
    f_equal. unfold xr_sum. f_equal. apply map_ext.
    intros [[m la] lo]. apply Ha. }
  assert (E2 : proportion_overcome_conv_threshold g
                 (entrained to_hsfc_units ehat hsfc adjustment_f)
                 hsat500 weights landmask = n_unstable /^ n_kept).
  { unfold proportion_overcome_conv_threshold, n_unstable, n_kept.
    rewrite <- (b64_masked_fraction_count g unstable weights landmask Hb Hw).
    f_equal. unfold xr_sum. f_equal. apply map_ext.
    intros [[m la] lo]. apply Hi. }
  split; [exact E1|]. split; [exact E2|].
  unfold func. rewrite E1, E2. reflexivity.
Qed.

(** Two points with unit weights that the mask keeps: the first rises and
    is unstable at the lower bound of the entrainment rate, with a residual
    of [346 - 2.5 - 340] kJ/kg, the second sinks and is stable; both
    fractions are 1/2 and the objective is 0. *)
Lemma ascent_predicates_strict_witness :
  calc_ascent_frac ex_grid ex_wap_updown (fun _ => one) (fun _ _ _ => nan)
  = of_Z 1 /^ of_Z 2 /\
  proportion_overcome_conv_threshold ex_grid
    (entrained ex_to_kJ (fst ehat_bounds) ex_hsfc_kJ ex_adjustment_J)
    ex_hsat_kJ (fun _ => one) (fun _ _ _ => nan)
  = of_Z 1 /^ of_Z 2 /\
  func ex_to_kJ ex_grid (fun _ => one) (fun _ _ _ => nan) (fst ehat_bounds)
       ex_hsfc_kJ ex_adjustment_J ex_hsat_kJ ex_wap_updown
  = absv (of_Z 1 /^ of_Z 2 -^ of_Z 1 /^ of_Z 2).
Proof.
  exact (proj2 (proj2 (ascent_predicates_strict ex_to_kJ ex_grid (fun _ => one)
                         (fun _ _ _ => nan) (fst ehat_bounds)
                         ex_hsfc_kJ ex_adjustment_J ex_hsat_kJ ex_wap_updown))
           eq_refl (fun la _ => eq_refl)).
Defined.




(** * Further properties of the notebook *)

(** ** Slices by label on ordered axes *)

Section SliceFacts.
Context {num : Type} {A : Arith num} {L : ArithLaws A}.

(** A label that passes the test of a side lies below every label that
    fails it. *)
Lemma side_test_below (sd : side) (label a b : num) :
  (a <^? b) = true -> side_test sd label b = true -> side_test sd label a = true.
Proof.
  intros Hab Hb. destruct (isnan label) eqn:Hl.
  - rewrite side_test_nan in * by exact Hl. destruct sd; [|reflexivity].
    apply ltb_not_nan in Hab. destruct Hab as [Ha _]. rewrite Ha. reflexivity.
  - rewrite side_test_number in * by exact Hl. destruct sd.
    + eapply ltb_trans; eauto.
    + apply ltb_leb. eapply ltb_leb_trans; eauto.
Qed.

Lemma filter_none_above (sd : side) (label a : num) (t : list num) :
  strictly_increasing (a :: t) = true ->
  side_test sd label a = false ->
  filter (side_test sd label) t = [].
Proof.
  intros Hinc Ha. induction t as [|b t IH]; [reflexivity|].
  assert (Hab : (a <^? b) = true)
    by (apply (strictly_increasing_head a (b :: t) 0 Hinc); simpl; lia).
  cbn [filter]. destruct (side_test sd label b) eqn:Hb.
  - rewrite (side_test_below sd label a b Hab Hb) in Ha. discriminate.
  - apply IH. destruct t as [|c t]; [reflexivity|].
    cbn [strictly_increasing] in *.
    apply andb_true_iff in Hinc. destruct Hinc as [_ Hinc].
    apply andb_true_iff in Hinc. destruct Hinc as [Hbc Hinc].
    rewrite (ltb_trans _ _ _ Hab Hbc), Hinc. reflexivity.
Qed.

(** On an increasing axis [np.searchsorted] counts the labels below the
    one searched for. *)
Lemma searchsorted_increasing (axis : list num) (label : num) (sd : side) :
  strictly_increasing axis = true ->
  searchsorted axis label sd = length (filter (side_test sd label) axis).
Proof.
  induction axis as [|a t IH]; intros Hinc; [reflexivity|].
  cbn [searchsorted filter].
  destruct (side_test sd label a) eqn:Ha.
  - cbn [length]. f_equal. apply IH. eapply strictly_increasing_tail; eauto.
  - rewrite (filter_none_above sd label a t Hinc Ha). reflexivity.
Qed.

Lemma eqb_side_test (sd : side) (label a : num) :
  (a ==^? label) = true -> side_test sd label a = match sd with Left => false | Right => true end.
Proof.
  intros E. pose proof (eqb_not_nan _ _ E) as [_ Hl].
  rewrite side_test_number by exact Hl. destruct sd.
  - destruct (a <^? label) eqn:H; [|reflexivity].
    rewrite (ltb_not_eqb _ _ H) in E. discriminate.
  - rewrite leb_spec, E. apply orb_true_r.
Qed.

(** The position of a label that the axis holds is the number of labels
    below it. *)
Lemma get_loc_increasing (axis : list num) (label : num) (sd : side) (i : nat) :
  strictly_increasing axis = true ->
  get_loc axis label = Some i ->
  length (filter (side_test sd label) axis) = match sd with Left => i | Right => S i end.
Proof.
  intros Hinc Hloc.
  assert (Hl : isnan label = false).
  { destruct (get_loc_Some axis label i Hloc) as [_ He].
    apply eqb_not_nan in He. tauto. }
  revert i Hinc Hloc. induction axis as [|a t IH]; intros i Hinc Hloc; [discriminate|].
  cbn [get_loc] in Hloc. cbn [filter]. destruct (a ==^? label) eqn:E.
  - injection Hloc as <-. pose proof (eqb_side_test sd label a E) as Ht.
    destruct sd; rewrite Ht.
    + rewrite (filter_none_above Left label a t Hinc Ht). reflexivity.
    + cbn [length]. f_equal.
      assert (Hnone : forall b, In b t -> side_test Right label b = false).
      { intros b Hb. apply In_nth with (d := nan) in Hb. destruct Hb as (j & Hj & <-).
        pose proof (strictly_increasing_head a t j Hinc Hj) as Hab.
        rewrite side_test_number by exact Hl.
        destruct (nth j t nan <=^? label) eqn:Hle; [|reflexivity].
        pose proof (ltb_leb_trans _ _ _ Hab Hle) as C.
        rewrite (ltb_not_eqb _ _ C) in E. discriminate. }
      clear - Hnone. induction t as [|b t IH]; [reflexivity|].
      cbn [filter]. rewrite (Hnone b) by (left; reflexivity).
      apply IH. intros c Hc. apply Hnone. right. exact Hc.
  - destruct (get_loc t label) as [j|] eqn:Ej; [|discriminate].
    injection Hloc as <-.
    pose proof (strictly_increasing_tail a t Hinc) as Ht.
    assert (Ha : side_test sd label a = true).
    { destruct (get_loc_Some t label j Ej) as [Hj He].
      pose proof (strictly_increasing_head a t j Hinc Hj) as Hab.
      rewrite side_test_number by exact Hl. destruct sd.
      - eapply ltb_eqb_trans; eauto.
      - apply ltb_leb. eapply ltb_eqb_trans; eauto. }
    rewrite Ha. cbn [length]. rewrite (IH j Ht eq_refl). destruct sd; reflexivity.
Qed.

(** The bound of a slice on an increasing axis: the number of labels
    strictly below the label on the left side, and of those at or below it
    on the right side, whether the axis holds the label or not. *)
Lemma get_slice_bound_increasing (axis : list num) (label : num) (sd : side) :
  strictly_increasing axis = true ->
  get_slice_bound axis label sd = Ok (length (filter (side_test sd label) axis)).
Proof.
  intros Hinc. unfold get_slice_bound. destruct (get_loc axis label) as [i|] eqn:E.
  - rewrite (get_loc_increasing axis label sd i Hinc E). reflexivity.
  - unfold searchsorted_monotonic.
    rewrite (strictly_increasing_monotonic _ Hinc).
    rewrite searchsorted_increasing by exact Hinc. reflexivity.
Qed.

Lemma no_nan_cons (a : num) (t : list num) :
  no_nan (a :: t) = true -> isnan a = false /\ no_nan t = true.
Proof.
  unfold no_nan. cbn [forallb]. intros H. apply andb_true_iff in H.
  destruct H as [H1 H2]. split; [|exact H2]. destruct (isnan a); [discriminate | reflexivity].
Qed.

(** The positions between the two bounds hold the labels from [start] to
    [stop], both included. *)
Lemma slice_is_band {T : Type} (axis : list num) (row : list T) (start stop : num) :
  strictly_increasing axis = true ->
  no_nan axis = true ->
  isnan start = false ->
  isnan stop = false ->
  length row = length axis ->
  isel_slice row (length (filter (side_test Left start) axis))
                 (length (filter (side_test Right stop) axis))
  = map snd (filter (fun p => in_slice start stop (fst p)) (combine axis row)).
Proof.
  intros Hinc Hnn Hs Hp. revert row Hinc Hnn.
  induction axis as [|a t IH]; intros row Hinc Hnn Hlen.
  - destruct row; [reflexivity | discriminate].
  - destruct row as [|r rs]; [discriminate|].
    apply no_nan_cons in Hnn. destruct Hnn as [Ha Hnn].
    pose proof (strictly_increasing_tail a t Hinc) as Ht.
    injection Hlen as Hlen.
    specialize (IH rs Ht Hnn Hlen).
    cbn [filter combine fst]. unfold in_slice at 1.
    destruct (side_test Left start a) eqn:HL; destruct (side_test Right stop a) eqn:HR;
      pose proof HL as HL'; pose proof HR as HR';
      rewrite side_test_number in HL', HR' by assumption.
    + (* below the band *)
      cbn [length].
      assert (E : (start <=^? a) = false).
      { destruct (start <=^? a) eqn:E; [|reflexivity].
        apply leb_not_ltb in E. congruence. }
      rewrite E. cbn [andb]. rewrite <- IH. reflexivity.
    + rewrite (filter_none_above Right stop a t Hinc HR).
      cbn [length].
      assert (E : (start <=^? a) = false).
      { destruct (start <=^? a) eqn:E; [|reflexivity].
        apply leb_not_ltb in E. congruence. }
      rewrite E. cbn [andb]. rewrite <- IH.
      rewrite (filter_none_above Right stop a t Hinc HR). cbn [length].
      rewrite !isel_slice_empty by lia. reflexivity.
    + rewrite (filter_none_above Left start a t Hinc HL) in *.
      cbn [length] in *.
      rewrite (not_ltb_leb a start Ha Hs HL'), HR'. cbn [andb map snd].
      rewrite <- IH. unfold isel_slice. rewrite !Nat.sub_0_r. reflexivity.
    + rewrite (filter_none_above Left start a t Hinc HL) in *.
      rewrite (filter_none_above Right stop a t Hinc HR) in *.
      cbn [length] in *. rewrite HR', andb_false_r. rewrite <- IH.
      reflexivity.
Qed.

Lemma sel_plev_band {T : Type} (axis : list num) (row : list T) (start stop : num) :
  strictly_increasing axis = true ->
  no_nan axis = true ->
  isnan start = false ->
  isnan stop = false ->
  length row = length axis ->
  sel_plev axis row start stop
  = Ok (map snd (filter (fun p => in_slice start stop (fst p)) (combine axis row))).
Proof.
  intros Hinc Hnn Hs Hp Hlen. unfold sel_plev, slice_indexer.
  rewrite !get_slice_bound_increasing by exact Hinc. cbn [bind fst snd].
  rewrite slice_is_band by assumption. reflexivity.
Qed.

End SliceFacts.

(** ** Axes in decreasing order *)

Section DecreasingFacts.
Context {num : Type} {A : Arith num} {L : ArithLaws A}.

Lemma strictly_decreasing_tail (a : num) (axis : list num) :
  strictly_decreasing (a :: axis) = true -> strictly_decreasing axis = true.
Proof.
  destruct axis as [|b t]; [reflexivity|].
  cbn [strictly_decreasing]. intros H. apply andb_true_iff in H. tauto.
Qed.

Lemma strictly_decreasing_head (a : num) (axis : list num) (j : nat) :
  strictly_decreasing (a :: axis) = true -> j < length axis ->
  (nth j axis nan <^? a) = true.
Proof.
  revert a j. induction axis as [|b t IH]; intros a j H Hj; simpl in Hj; [lia|].
  cbn [strictly_decreasing] in H. apply andb_true_iff in H. destruct H as [Hab Ht].
  destruct j as [|j]; [exact Hab|].
  simpl. eapply ltb_trans; [|exact Hab]. apply IH; [exact Ht | lia].
Qed.

Lemma strictly_decreasing_In (a b : num) (axis : list num) :
  strictly_decreasing (a :: axis) = true -> In b axis -> (b <^? a) = true.
Proof.
  intros H Hb. apply In_nth with (d := nan) in Hb. destruct Hb as (j & Hj & <-).
  apply strictly_decreasing_head; assumption.
Qed.

Lemma strictly_increasing_snoc (axis : list num) (a : num) :
  strictly_increasing axis = true ->
  (forall b, In b axis -> (b <^? a) = true) ->
  strictly_increasing (axis ++ [a]) = true.
Proof.
  induction axis as [|b t IH]; intros H Ha; [reflexivity|].
  destruct t as [|c t].
  - simpl. rewrite (Ha b) by (left; reflexivity). reflexivity.
  - change ((b :: c :: t) ++ [a]) with (b :: (c :: t) ++ [a]).
    cbn [strictly_increasing] in H. apply andb_true_iff in H. destruct H as [Hbc Ht].
    change (strictly_increasing (b :: (c :: t) ++ [a]))
      with ((b <^? c) && strictly_increasing ((c :: t) ++ [a])).
    rewrite Hbc. cbn [andb]. apply IH; [exact Ht|].
    intros d Hd. apply Ha. right. exact Hd.
Qed.

(** Read backwards, a decreasing axis is increasing: this is the array
    that pandas hands to [np.searchsorted]. *)
Lemma strictly_decreasing_rev (axis : list num) :
  strictly_decreasing axis = true -> strictly_increasing (rev axis) = true.
Proof.
  induction axis as [|a t IH]; intros H; [reflexivity|].
  cbn [rev]. apply strictly_increasing_snoc.
  - apply IH. eapply strictly_decreasing_tail; eauto.
  - intros b Hb. apply in_rev in Hb. eapply strictly_decreasing_In; eauto.
Qed.

Lemma strictly_decreasing_not_increasing (axis : list num) :
  strictly_decreasing axis = true -> 2 <= length axis ->
  is_monotonic_increasing axis = false.
Proof.
  destruct axis as [|a [|b t]]; simpl; try lia. intros H _.
  apply andb_true_iff in H. destruct H as [Hba _].
  destruct (a <=^? b) eqn:E; [|reflexivity].
  apply leb_not_ltb in E. congruence.
Qed.

Lemma strictly_decreasing_monotonic (axis : list num) :
  strictly_decreasing axis = true -> is_monotonic_decreasing axis = true.
Proof.
  induction axis as [|a t IH]; [reflexivity|].
  destruct t as [|b t]; [reflexivity|].
  cbn [strictly_decreasing is_monotonic_decreasing].
  intros H. apply andb_true_iff in H. destruct H as [Hab Ht].
  rewrite (ltb_leb _ _ Hab). simpl. apply IH. exact Ht.
Qed.

Lemma strictly_decreasing_no_nan (axis : list num) :
  strictly_decreasing axis = true -> 2 <= length axis -> no_nan axis = true.
Proof.
  intros H H2. unfold no_nan. apply forallb_forall. intros x Hx.
  destruct axis as [|a [|b t]]; simpl in H2; try lia.
  destruct Hx as [<-|Hx].
  - assert (E : (b <^? a) = true)
      by (apply (strictly_decreasing_In a b (b :: t) H); left; reflexivity).
    apply ltb_not_nan in E. destruct E as [_ E]. rewrite E. reflexivity.
  - pose proof (strictly_decreasing_In a x (b :: t) H Hx) as E.
    apply ltb_not_nan in E. destruct E as [E _]. rewrite E. reflexivity.
Qed.

Lemma filter_none_below (sd : side) (label a : num) (t : list num) :
  strictly_decreasing (a :: t) = true ->
  above_test sd label a = false ->
  filter (above_test sd label) t = [].
Proof.
  intros Hdec Ha.
  assert (Hnone : forall b, In b t -> above_test sd label b = false).
  { intros b Hb. pose proof (strictly_decreasing_In a b t Hdec Hb) as Hba.
    destruct (above_test sd label b) eqn:E; [|reflexivity].
    destruct sd; simpl in *.
    - rewrite (ltb_trans _ _ _ E Hba) in Ha. discriminate.
    - rewrite leb_spec in E. apply orb_true_iff in E.
      assert (C : (label <^? a) = true).
      { destruct E as [E|E]; [eapply ltb_trans | eapply eqb_ltb_trans]; eauto. }
      rewrite (ltb_leb _ _ C) in Ha. discriminate. }
  clear - Hnone. induction t as [|b t IH]; [reflexivity|].
  cbn [filter]. rewrite (Hnone b) by (left; reflexivity).
  apply IH. intros c Hc. apply Hnone. right. exact Hc.
Qed.

Lemma get_loc_decreasing (axis : list num) (label : num) (sd : side) (i : nat) :
  strictly_decreasing axis = true ->
  get_loc axis label = Some i ->
  length (filter (above_test sd label) axis) = match sd with Left => i | Right => S i end.
Proof.
  revert i. induction axis as [|a t IH]; intros i Hdec Hloc; [discriminate|].
  cbn [get_loc] in Hloc. cbn [filter]. destruct (a ==^? label) eqn:E.
  - injection Hloc as <-.
    assert (HL : above_test Left label a = false).
    { simpl. destruct (label <^? a) eqn:C; [|reflexivity].
      rewrite eqb_sym in E. rewrite (ltb_not_eqb _ _ C) in E. discriminate. }
    destruct sd.
    + rewrite HL, (filter_none_below Left label a t Hdec HL). reflexivity.
    + assert (HR : above_test Right label a = true).
      { simpl. rewrite leb_spec, eqb_sym, E. apply orb_true_r. }
      rewrite HR. cbn [length]. f_equal.
      assert (Hnone : forall b, In b t -> above_test Right label b = false).
      { intros b Hb. pose proof (strictly_decreasing_In a b t Hdec Hb) as Hba.
        simpl. destruct (label <=^? b) eqn:Hle; [|reflexivity].
        rewrite leb_spec in Hle. apply orb_true_iff in Hle.
        assert (C : (label <^? a) = true).
        { destruct Hle as [H|H]; [eapply ltb_trans | eapply eqb_ltb_trans]; eauto. }
        pose proof (eqb_ltb_trans _ _ _ E C) as C'.
        rewrite ltb_irrefl in C'. discriminate. }
      clear - Hnone. induction t as [|b t IH]; [reflexivity|].
      cbn [filter]. rewrite (Hnone b) by (left; reflexivity).
      apply IH. intros c Hc. apply Hnone. right. exact Hc.
  - destruct (get_loc t label) as [j|] eqn:Ej; [|discriminate].
    injection Hloc as <-.
    pose proof (strictly_decreasing_tail a t Hdec) as Ht.
    assert (Ha : above_test sd label a = true).
    { destruct (get_loc_Some t label j Ej) as [Hj He].
      pose proof (strictly_decreasing_head a t j Hdec Hj) as Hab.
      rewrite eqb_sym in He.
      destruct sd; simpl.
      - eapply eqb_ltb_trans; eauto.
      - apply ltb_leb. eapply eqb_ltb_trans; eauto. }
    rewrite Ha. cbn [length]. rewrite (IH j Ht eq_refl). destruct sd; reflexivity.
Qed.

Lemma length_filter_negb {T : Type} (f g : T -> bool) (l : list T) :
  (forall x, In x l -> g x = negb (f x)) ->
  length (filter g l) = length l - length (filter f l).
Proof.
  induction l as [|a l IH]; intros H; [reflexivity|].
  cbn [filter]. rewrite (H a) by (left; reflexivity).
  assert (IH' := IH (fun x Hx => H x (or_intror Hx))).
  pose proof (filter_length_le f l) as Hle.
  destruct (f a); cbn [negb length]; lia.
Qed.

Lemma length_filter_le {T : Type} (f g : T -> bool) (l : list T) :
  (forall x, In x l -> f x = true -> g x = true) ->
  length (filter f l) <= length (filter g l).
Proof.
  induction l as [|a l IH]; intros H; [reflexivity|].
  assert (IH' := IH (fun x Hx => H x (or_intror Hx))).
  cbn [filter]. destruct (f a) eqn:E.
  - rewrite (H a (or_introl eq_refl) E). cbn [length]. lia.
  - destruct (g a); cbn [length]; lia.
Qed.

Lemma above_test_negb (sd : side) (label a : num) :
  isnan label = false -> isnan a = false ->
  above_test sd label a = negb (side_test (opposite sd) label a).
Proof.
  intros Hl Ha. rewrite side_test_number by exact Hl. destruct sd; simpl.
  - destruct (a <=^? label) eqn:E; simpl.
    + apply leb_not_ltb. exact E.
    + apply not_leb_ltb; assumption.
  - destruct (a <^? label) eqn:E; simpl.
    + destruct (label <=^? a) eqn:C; [|reflexivity].
      apply leb_not_ltb in C. congruence.
    + apply not_ltb_leb; assumption.
Qed.

(** The bound of a slice on a decreasing axis: the number of labels
    strictly above the label on the left side, and of those at or above it
    on the right side. *)
Lemma get_slice_bound_decreasing (axis : list num) (label : num) (sd : side) :
  strictly_decreasing axis = true -> 2 <= length axis ->
  isnan label = false ->
  get_slice_bound axis label sd = Ok (length (filter (above_test sd label) axis)).
Proof.
  intros Hdec H2 Hl. unfold get_slice_bound.
  destruct (get_loc axis label) as [i|] eqn:E.
  - rewrite (get_loc_decreasing axis label sd i Hdec E). reflexivity.
  - unfold searchsorted_monotonic.
    rewrite (strictly_decreasing_not_increasing _ Hdec H2).
    rewrite (strictly_decreasing_monotonic _ Hdec).
    rewrite searchsorted_increasing by (apply strictly_decreasing_rev; exact Hdec).
    f_equal.
    rewrite (length_filter_negb (side_test (opposite sd) label) (above_test sd label) axis).
    + f_equal. rewrite <- (length_rev (filter _ axis)), filter_rev. reflexivity.
    + intros x Hx. apply above_test_negb; [exact Hl|].
      pose proof (strictly_decreasing_no_nan _ Hdec H2) as Hnn.
      unfold no_nan in Hnn. rewrite forallb_forall in Hnn.
      specialize (Hnn x Hx). destruct (isnan x); [discriminate | reflexivity].
Qed.

(** On a decreasing axis a slice from a smaller label to a larger one
    selects nothing. *)
Lemma sel_plev_decreasing_empty {T : Type} (axis : list num) (row : list T)
  (start stop : num) :
  strictly_decreasing axis = true -> 2 <= length axis ->
  (start <^? stop) = true ->
  sel_plev axis row start stop = Ok [].
Proof.
  intros Hdec H2 Hlt. unfold sel_plev, slice_indexer.
  pose proof (ltb_not_nan _ _ Hlt) as [Hs Hp].
  rewrite !get_slice_bound_decreasing by assumption. cbn [bind fst snd].
  rewrite isel_slice_empty; [reflexivity|].
  apply length_filter_le. intros x _ Hx. simpl in *.
  eapply ltb_leb_trans; eauto.
Qed.

End DecreasingFacts.

(** ** The loop over the levels on an axis it was not written for *)

Section LoopFacts.
Context {num : Type} {A : Arith num} {L : ArithLaws A}.

Lemma leb_ltb_trans (a b c : num) :
  (a <=^? b) = true -> (b <^? c) = true -> (a <^? c) = true.
Proof.
  intros H1 H2. rewrite leb_spec in H1. apply orb_true_iff in H1. destruct H1.
  - eapply ltb_trans; eauto.
  - eapply eqb_ltb_trans; eauto.
Qed.

(** On an increasing axis a slice from a larger label to a smaller one
    selects nothing. *)
Lemma sel_plev_increasing_empty {T : Type} (axis : list num) (row : list T)
  (start stop : num) :
  strictly_increasing axis = true ->
  (stop <^? start) = true ->
  sel_plev axis row start stop = Ok [].
Proof.
  intros Hinc Hlt. unfold sel_plev, slice_indexer.
  pose proof (ltb_not_nan _ _ Hlt) as [Hp Hs].
  rewrite !get_slice_bound_increasing by assumption. cbn [bind fst snd].
  rewrite isel_slice_empty; [reflexivity|].
  apply length_filter_le. intros x _ Hx.
  rewrite side_test_number in * by assumption.
  eapply leb_ltb_trans; eauto.
Qed.

Lemma mapM_raise_last {T U : Type} (f : T -> outcome U) (l0 : list T) (y : T) (e : exn) :
  (forall x, In x l0 -> exists u, f x = Ok u) ->
  f y = Raise e ->
  mapM f (l0 ++ [y]) = Raise e.
Proof.
  induction l0 as [|a l0 IH]; intros H Hy.
  - simpl. rewrite Hy. reflexivity.
  - destruct (H a (or_introl eq_refl)) as (u & Hu).
    change ((a :: l0) ++ [y]) with (a :: (l0 ++ [y])).
    cbn [mapM]. rewrite Hu. cbn [bind].
    rewrite IH; [reflexivity | | exact Hy].
    intros x Hx. apply H. right. exact Hx.
Qed.

(** When the slice of the last level is empty, taking its first value
    raises, after the levels before it have been integrated. *)
Lemma part_raises (plev_array fld : list num) :
  plev_array <> [] ->
  isnan (last plev_array nan) = false ->
  (forall (T : Type) (row : list T),
     sel_plev plev_array row (last plev_array nan) p_surface = Ok []) ->
  (forall k, k < length plev_array - 1 ->
     (nth k plev_array nan ==^? last plev_array nan) = false /\
     forall (T : Type) (row : list T),
       exists r, sel_plev plev_array row (nth k plev_array nan) p_surface = Ok r) ->
  part plev_array fld = Raise IndexError.
Proof.
  intros Hne Hnan Hlast Hbefore. unfold part.
  assert (Hn : 0 < length plev_array) by (destruct plev_array; [congruence | simpl; lia]).
  replace (length plev_array) with (length plev_array - 1 + 1) at 1 by lia.
  rewrite seq_app. cbn [seq Nat.add].
  apply mapM_raise_last.
  - intros k Hk. apply in_seq in Hk. destruct (Hbefore k ltac:(lia)) as [Hneq Hsel].
    unfold part_at.
    destruct (Hsel num fld) as (r1 & E1). destruct (Hsel num plev_array) as (r2 & E2).
    rewrite E1, E2. cbn [bind]. rewrite Hneq. eexists. reflexivity.
  - unfold part_at. rewrite <- last_nth.
    rewrite !Hlast. cbn [bind]. rewrite eqb_refl by exact Hnan. reflexivity.
Qed.

Lemma part_raises_increasing (plev_array fld : list num) :
  strictly_increasing plev_array = true ->
  (p_surface <^? last plev_array nan) = true ->
  part plev_array fld = Raise IndexError.
Proof.
  intros Hinc Hlt.
  assert (Hne : plev_array <> []).
  { intros ->. simpl in Hlt. apply ltb_not_nan in Hlt. rewrite isnan_nan in Hlt.
    destruct Hlt. discriminate. }
  apply part_raises; [exact Hne | apply ltb_not_nan in Hlt; tauto | |].
  - intros T row. apply sel_plev_increasing_empty; assumption.
  - intros k Hk. split.
    + apply ltb_not_eqb. rewrite last_nth.
      apply strictly_increasing_nth; [exact Hinc | lia | lia].
    + intros T row. unfold sel_plev, slice_indexer.
      rewrite !get_slice_bound_increasing by assumption. cbn [bind]. eexists. reflexivity.
Qed.

Lemma part_raises_decreasing (plev_array fld : list num) :
  strictly_decreasing plev_array = true -> 2 <= length plev_array ->
  (last plev_array nan <^? p_surface) = true ->
  part plev_array fld = Raise IndexError.
Proof.
  intros Hdec H2 Hlt.
  assert (Hne : plev_array <> []) by (intros ->; simpl in H2; lia).
  pose proof (strictly_decreasing_no_nan _ Hdec H2) as Hnn.
  unfold no_nan in Hnn. rewrite forallb_forall in Hnn.
  assert (Hnth : forall k, k < length plev_array -> isnan (nth k plev_array nan) = false).
  { intros k Hk. specialize (Hnn _ (nth_In plev_array nan Hk)).
    destruct (isnan _); [discriminate | reflexivity]. }
  assert (Hrev : forall k, k < length plev_array - 1 ->
            (last plev_array nan <^? nth k plev_array nan) = true).
  { intros k Hk. rewrite last_nth.
    pose proof (strictly_increasing_nth (rev plev_array)
                  0 (length plev_array - 1 - k) (strictly_decreasing_rev _ Hdec)) as H.
    rewrite length_rev in H. specialize (H ltac:(lia) ltac:(lia)).
    rewrite !rev_nth in H by lia.
    replace (length plev_array - S 0) with (length plev_array - 1) in H by lia.
    replace (length plev_array - S (length plev_array - 1 - k)) with k in H by lia.
    exact H. }
  apply part_raises; [exact Hne | apply ltb_not_nan in Hlt; tauto | |].
  - intros T row. apply sel_plev_decreasing_empty; assumption.
  - intros k Hk. split.
    + rewrite eqb_sym. apply ltb_not_eqb. apply Hrev. exact Hk.
    + intros T row. unfold sel_plev, slice_indexer.
      rewrite !get_slice_bound_decreasing; try assumption.
      * cbn [bind]. eexists. reflexivity.
      * apply of_Z_not_nan.
      * apply Hnth. lia.
Qed.

End LoopFacts.

(** ** Sums over the grid and the points that the mask flags *)

Section MaskFacts.
Context {num : Type} {A : Arith num} {L : ArithLaws A}.

Lemma xr_sum_ext (g : grid) (f1 f2 : field3) :
  (forall m la lo, m < n_month g -> la < n_lat g -> lo < n_lon g ->
     f1 m la lo = f2 m la lo) ->
  xr_sum g f1 = xr_sum g f2.
Proof.
  intros H. unfold xr_sum. f_equal. apply map_ext_in.
  intros [[m la] lo] Hin. apply in_points in Hin. simpl. apply H; tauto.
Qed.

(** The weight of a point in a numerator depends on the field only where
    the mask keeps the point. *)
Lemma where_weight_ext (weights : nat -> num) (landmask : field3) (c1 c2 : bool)
  (m la lo : nat) :
  (isnan (landmask m la lo) = true -> c1 = c2) ->
  where_ c1 (weights_3Darray weights landmask m la lo)
  = where_ c2 (weights_3Darray weights landmask m la lo).
Proof.
  intros H. destruct (isnan (landmask m la lo)) eqn:E.
  - rewrite H by reflexivity. reflexivity.
  - rewrite flagged_weight by exact E. destruct c1, c2; reflexivity.
Qed.

Lemma func_ext (to_hsfc_units : num -> num)
  (g : grid) (weights : nat -> num) (landmask : field3) (ehat : num)
  (hsfc adj hsat wap hsfc' adj' hsat' wap' : field3) :
  (forall m la lo, m < n_month g -> la < n_lat g -> lo < n_lon g ->
     isnan (landmask m la lo) = true ->
     hsfc m la lo = hsfc' m la lo /\ adj m la lo = adj' m la lo /\
     hsat m la lo = hsat' m la lo /\ wap m la lo = wap' m la lo) ->
  calc_ascent_frac g wap weights landmask = calc_ascent_frac g wap' weights landmask /\
  proportion_overcome_conv_threshold g hsfc hsat weights landmask
    = proportion_overcome_conv_threshold g hsfc' hsat' weights landmask /\
  calc_prop g wap weights landmask = calc_prop g wap' weights landmask /\
  func to_hsfc_units g weights landmask ehat hsfc adj hsat wap
    = func to_hsfc_units g weights landmask ehat hsfc' adj' hsat' wap'.
Proof.
  intros H.
  assert (Ha : calc_ascent_frac g wap weights landmask
               = calc_ascent_frac g wap' weights landmask).
  { unfold calc_ascent_frac. f_equal. apply xr_sum_ext. intros m la lo Hm Hla Hlo.
    unfold ascent_weights. apply where_weight_ext. intros K.
    destruct (H m la lo Hm Hla Hlo K) as (_ & _ & _ & ->). reflexivity. }
  repeat split.
  - exact Ha.
  - unfold proportion_overcome_conv_threshold. f_equal. apply xr_sum_ext.
    intros m la lo Hm Hla Hlo. unfold instab_weights. apply where_weight_ext. intros K.
    destruct (H m la lo Hm Hla Hlo K) as (-> & _ & -> & _). reflexivity.
  - unfold calc_prop. f_equal. apply xr_sum_ext. intros m la lo Hm Hla Hlo.
    unfold coverage_weights. apply where_weight_ext. intros K.
    destruct (H m la lo Hm Hla Hlo K) as (_ & _ & _ & ->). reflexivity.
  - unfold func. rewrite Ha. do 2 f_equal.
    unfold proportion_overcome_conv_threshold. f_equal. apply xr_sum_ext.
    intros m la lo Hm Hla Hlo. unfold instab_weights, entrained.
    apply where_weight_ext. intros K.
    destruct (H m la lo Hm Hla Hlo K) as (-> & -> & -> & _). reflexivity.
Qed.

Lemma on_kept_kept (landmask f : field3) (m la lo : nat) :
  isnan (landmask m la lo) = true -> on_kept landmask f m la lo = f m la lo.
Proof. intros H. unfold on_kept, where_. rewrite H. reflexivity. Qed.

End MaskFacts.

(** X1.  The fractions and the objective read a field only at the points
    that the mask keeps: fields that agree there give the same values.  So
    the restriction of the four arguments of [dual_annealing] to the kept
    points changes nothing: the objective of the calibration is [func] on
    the fields as they are. *)
Theorem flagged_values_are_ignored
  (to_hsfc_units : spec_float -> spec_float)
  (g : grid) (weights : nat -> spec_float) (ehat : spec_float) :
  (forall (landmask hsfc adj hsat wap hsfc' adj' hsat' wap' : field3),
     (forall m la lo, m < n_month g -> la < n_lat g -> lo < n_lon g ->
        isnan (landmask m la lo) = true ->
        hsfc m la lo = hsfc' m la lo /\ adj m la lo = adj' m la lo /\
        hsat m la lo = hsat' m la lo /\ wap m la lo = wap' m la lo) ->
     calc_ascent_frac g wap weights landmask = calc_ascent_frac g wap' weights landmask /\
     proportion_overcome_conv_threshold g hsfc hsat weights landmask
       = proportion_overcome_conv_threshold g hsfc' hsat' weights landmask /\
     calc_prop g wap weights landmask = calc_prop g wap' weights landmask /\
     func to_hsfc_units g weights landmask ehat hsfc adj hsat wap
       = func to_hsfc_units g weights landmask ehat hsfc' adj' hsat' wap') /\
  (forall (land : nat -> nat -> spec_float)
          (hsfc_ctrl adjustment_ctrl hsat500_ctrl wap500_ctrl : field3),
     calibration_objective to_hsfc_units g weights land hsfc_ctrl adjustment_ctrl
       hsat500_ctrl wap500_ctrl ehat
     = func to_hsfc_units g weights (calibration_landmask land adjustment_ctrl) ehat
         hsfc_ctrl adjustment_ctrl hsat500_ctrl wap500_ctrl).
Proof.
  split.
  - intros. apply func_ext. assumption.
  - intros land hsfc_ctrl adjustment_ctrl hsat500_ctrl wap500_ctrl.
    unfold calibration_objective.
    apply (func_ext to_hsfc_units g weights (calibration_landmask land adjustment_ctrl) ehat).
    intros m la lo _ _ _ K. rewrite !on_kept_kept by exact K. auto.
Qed.

Lemma flagged_values_are_ignored_witness :
  calc_ascent_frac ex_grid ex_wap (fun _ => one) (fun m la lo => ex_coast la lo)
  = calc_ascent_frac ex_grid (fun _ _ _ => opp one) (fun _ => one)
      (fun m la lo => ex_coast la lo).
Proof.
  refine (proj1 (proj1 (flagged_values_are_ignored ex_to_kJ ex_grid (fun _ => one) zero)
                   (fun m la lo => ex_coast la lo) ex_ones ex_ones ex_ones ex_wap
                   ex_ones ex_ones ex_ones (fun _ _ _ => opp one) _)).
  intros m la lo Hm Hla Hlo K. repeat split.
  destruct lo as [|lo]; [discriminate K | reflexivity].
Defined.

(** ** The least value of the objective *)

Lemma b64_sub_self (x : spec_float) :
  SFsub prec64 emax64 x x = if b64_real x then S754_zero false else S754_nan.
Proof.
  destruct x as [[|]|[|]| |s m e]; try reflexivity.
  cbn [SFsub b64_real]. rewrite Z.sub_diag. reflexivity.
Qed.

(** X2.  When the two predicates agree at every point that the mask keeps,
    vertical velocity negative exactly where the residual
    [hsfc - adjustment*ehat - hsat500] is positive, the product brought to
    the units of [hsfc], the two fractions are one number and the
    objective is 0.0, its least value, provided that the fraction is a real
    number; it is NaN when the fraction is NaN or infinite. *)
Theorem objective_zero_when_predicates_agree
  (to_hsfc_units : spec_float -> spec_float)
  (g : grid) (weights : nat -> spec_float) (landmask : field3) (ehat : spec_float)
  (hsfc adjustment_f hsat500 wap500 : field3) :
  (forall m la lo, m < n_month g -> la < n_lat g -> lo < n_lon g ->
     isnan (landmask m la lo) = true ->
     (wap500 m la lo <^? zero)
     = (zero <^? (hsfc m la lo -^ to_hsfc_units (adjustment_f m la lo *^ ehat))
                 -^ hsat500 m la lo)) ->
  proportion_overcome_conv_threshold g
    (entrained to_hsfc_units ehat hsfc adjustment_f) hsat500 weights landmask
  = calc_ascent_frac g wap500 weights landmask /\
  func to_hsfc_units g weights landmask ehat hsfc adjustment_f hsat500 wap500
  = if b64_real (calc_ascent_frac g wap500 weights landmask) then zero else nan.
Proof.
  intros H.
  assert (E : proportion_overcome_conv_threshold g
                (entrained to_hsfc_units ehat hsfc adjustment_f)
                hsat500 weights landmask
              = calc_ascent_frac g wap500 weights landmask).
  { unfold proportion_overcome_conv_threshold, calc_ascent_frac. f_equal.
    apply xr_sum_ext. intros m la lo Hm Hla Hlo.
    unfold instab_weights, ascent_weights, entrained. apply where_weight_ext. intros K.
    symmetry. apply H; assumption. }
  split; [exact E|].
  unfold func. rewrite E.
  change (calc_ascent_frac g wap500 weights landmask
          -^ calc_ascent_frac g wap500 weights landmask)
    with (SFsub prec64 emax64 (calc_ascent_frac g wap500 weights landmask)
                              (calc_ascent_frac g wap500 weights landmask)).
  rewrite b64_sub_self. destruct (b64_real _); reflexivity.
Qed.

(** With 346 kJ/kg at the surface, an adjustment of 25000 J/kg and the
    entrainment rate 0.1, the residual is [346 - 2.5 - 340] kJ/kg, positive,
    where the air rises and [346 - 2.5 - 345] kJ/kg, negative, where it
    sinks. *)
Lemma objective_zero_when_predicates_agree_witness :
  func ex_to_kJ ex_grid (fun _ => one) (fun _ _ _ => nan) (fst ehat_bounds)
       ex_hsfc_kJ ex_adjustment_J ex_hsat_kJ ex_wap_updown
  = zero.
Proof.
  refine (eq_trans
    (proj2 (objective_zero_when_predicates_agree ex_to_kJ ex_grid (fun _ => one)
              (fun _ _ _ => nan) (fst ehat_bounds)
              ex_hsfc_kJ ex_adjustment_J ex_hsat_kJ ex_wap_updown _)) _).
  - intros m la lo Hm Hla Hlo _. simpl in Hlo.
    destruct lo as [|[|lo]]; [vm_compute; reflexivity | vm_compute; reflexivity | lia].
  - vm_compute. reflexivity.
Defined.

(** ** The range of the objective, in exact arithmetic *)

Lemma exact_abs_difference_unit (a b : Qc) :
  (0 <= a)%Qc -> (a <= 1)%Qc -> (0 <= b)%Qc -> (b <= 1)%Qc ->
  exists q, xabs (xsub (XFin a) (XFin b)) = XFin q /\ (0 <= q)%Qc /\ (q <= 1)%Qc.
Proof.
  intros Ha0 Ha1 Hb0 Hb1. cbn [xsub xabs].
  destruct (Qc_negative_spec (a - b)) as [Hn Hp].
  destruct (Qc_negative (a - b)); eexists; (split; [reflexivity|]).
  - specialize (Hn eq_refl). split.
    + apply Qclt_le_weak. apply Qclt_minus_iff in Hn.
      rewrite Qcplus_0_l in Hn. exact Hn.
    + replace (- (a - b))%Qc with (b + - a)%Qc by ring.
      replace 1%Qc with (1 + 0)%Qc by ring.
      apply Qcplus_le_compat; [exact Hb1|].
      apply Qcopp_le_compat in Ha0. replace (- 0)%Qc with 0%Qc in Ha0 by ring. exact Ha0.
  - specialize (Hp eq_refl). split; [exact Hp|].
    replace (a - b)%Qc with (a + - b)%Qc by ring.
    replace 1%Qc with (1 + 0)%Qc by ring.
    apply Qcplus_le_compat; [exact Ha1|].
    apply Qcopp_le_compat in Hb0. replace (- 0)%Qc with 0%Qc in Hb0 by ring. exact Hb0.
Qed.

(** X3.  In exact arithmetic, with weights that are nonnegative numbers
    and a sum of weights that is not zero, the objective is a number
    between 0 and 1 for every entrainment rate and all fields. *)
Theorem objective_unit_interval
  (to_hsfc_units : xnum -> xnum)
  (g : grid) (weights : nat -> xnum) (landmask : field3) (ehat : xnum)
  (hsfc adjustment_f hsat500 wap500 : field3) :
  (forall la, la < n_lat g -> exists q, weights la = XFin q /\ (0 <= q)%Qc) ->
  xr_sum g (weights_3Darray weights landmask) <> zero ->
  exists q, func to_hsfc_units g weights landmask ehat hsfc adjustment_f hsat500 wap500
            = XFin q /\
            (0 <= q)%Qc /\ (q <= 1)%Qc.
Proof.
  intros Hw Hden. unfold func.
  destruct (exact_fraction_unit g (fun m la lo => wap500 m la lo <^? zero)
              weights landmask Hw Hden) as (a & Ea & Ha0 & Ha1).
  destruct (exact_fraction_unit g
              (fun m la lo => zero <^? ((hsfc m la lo
                                         -^ to_hsfc_units (adjustment_f m la lo *^ ehat))
                                        -^ hsat500 m la lo))
              weights landmask Hw Hden) as (b & Eb & Hb0 & Hb1).
  unfold calc_ascent_frac, proportion_overcome_conv_threshold, ascent_weights,
    instab_weights, entrained.
  rewrite Ea, Eb. apply exact_abs_difference_unit; assumption.
Qed.

Lemma objective_unit_interval_witness :
  exists q, func (fun v => v /^ of_Z 1000) ex_grid ex_weights_exact (fun _ _ _ => nan)
              (of_Z 1 /^ of_Z 10)
              ex_wap_exact (fun _ _ _ => one) (fun _ _ _ => zero) ex_wap_exact = XFin q /\
            (0 <= q)%Qc /\ (q <= 1)%Qc.
Proof.
  apply (objective_unit_interval (fun v => v /^ of_Z 1000)
           ex_grid ex_weights_exact (fun _ _ _ => nan)
           (of_Z 1 /^ of_Z 10) ex_wap_exact (fun _ _ _ => one) (fun _ _ _ => zero)
           ex_wap_exact).
  - intros la _. exists 1%Qc. split; [reflexivity | discriminate].
  - vm_compute. discriminate.
Defined.

(** ** Counting the kept points in binary64 *)

(** X4.  In binary64, on a grid of fewer than [2 ^ 53] points and with all
    weights 1.0, each of the three fractions is a quotient of two counts:
    the kept points that satisfy its predicate (a value present for
    [calc_prop], a negative vertical velocity, a positive instability
    index) over the kept points.  A point that is kept and whose field is
    missing counts below the line and not above it. *)
Theorem unit_weight_fractions_count_kept_points
  (g : grid) (weights : nat -> spec_float) (landmask arr wap500 hsfc hsat500 : field3) :
  (Z.of_nat (length (points g)) < 2 ^ 53)%Z ->
  (forall la, la < n_lat g -> weights la = one) ->
  let n_kept := of_Z (Z.of_nat (count_points g (kept landmask))) in
  calc_prop g arr weights landmask
  = of_Z (Z.of_nat (count_points g
            (fun m la lo => negb (isnan (arr m la lo)) && kept landmask m la lo)))
    /^ n_kept /\
  calc_ascent_frac g wap500 weights landmask
  = of_Z (Z.of_nat (count_points g
            (fun m la lo => (wap500 m la lo <^? zero) && kept landmask m la lo)))
    /^ n_kept /\
  proportion_overcome_conv_threshold g hsfc hsat500 weights landmask
  = of_Z (Z.of_nat (count_points g
            (fun m la lo => (zero <^? (hsfc m la lo -^ hsat500 m la lo))
                            && kept landmask m la lo)))
    /^ n_kept.
Proof.
  intros Hb Hw n_kept. repeat split.
  - apply (b64_masked_fraction_count g (fun m la lo => negb (isnan (arr m la lo))));
      assumption.
  - apply (b64_masked_fraction_count g (fun m la lo => wap500 m la lo <^? zero));
      assumption.
  - apply (b64_masked_fraction_count g
             (fun m la lo => zero <^? (hsfc m la lo -^ hsat500 m la lo)));
      assumption.
Qed.

Lemma unit_weight_fractions_count_kept_points_witness :
  calc_prop ex_grid ex_wap (fun _ => one) (fun _ _ _ => nan) = of_Z 1 /^ of_Z 2 /\
  calc_ascent_frac ex_grid ex_wap (fun _ => one) (fun m la lo => ex_coast la lo)
  = of_Z 1 /^ of_Z 1.
Proof.
  split.
  - exact (proj1 (unit_weight_fractions_count_kept_points ex_grid (fun _ => one)
             (fun _ _ _ => nan) ex_wap ex_wap ex_hsfc ex_hsat
             eq_refl (fun la _ => eq_refl))).
  - exact (proj1 (proj2 (unit_weight_fractions_count_kept_points ex_grid (fun _ => one)
             (fun m la lo => ex_coast la lo) ex_wap ex_wap ex_hsfc ex_hsat
             eq_refl (fun la _ => eq_refl)))).
Defined.

(** ** Bounds and linearity of the adjustment, in exact arithmetic *)

Lemma exact_term_bounds (dx y0 y1 lo hi : Qc) :
  (0 <= dx)%Qc -> (lo <= y0)%Qc -> (y0 <= hi)%Qc -> (lo <= y1)%Qc -> (y1 <= hi)%Qc ->
  (lo * dx <= (dx * (y1 + y0)) / Qc_of_Z 2)%Qc /\
  ((dx * (y1 + y0)) / Qc_of_Z 2 <= hi * dx)%Qc.
Proof.
  intros Hd H1 H2 H3 H4.
  assert (G1 : (0 <= dx * (y0 - lo))%Qc).
  { rewrite <- (Qcmult_0_l (y0 - lo)). apply Qcmult_le_compat_r; [exact Hd | qc_lra]. }
  assert (G2 : (0 <= dx * (y1 - lo))%Qc).
  { rewrite <- (Qcmult_0_l (y1 - lo)). apply Qcmult_le_compat_r; [exact Hd | qc_lra]. }
  assert (G3 : (0 <= dx * (hi - y0))%Qc).
  { rewrite <- (Qcmult_0_l (hi - y0)). apply Qcmult_le_compat_r; [exact Hd | qc_lra]. }
  assert (G4 : (0 <= dx * (hi - y1))%Qc).
  { rewrite <- (Qcmult_0_l (hi - y1)). apply Qcmult_le_compat_r; [exact Hd | qc_lra]. }
  unfold Qcle in *. rewrite this_half.
  repeat match goal with
  | H : context [this (_ + _)%Qc] |- _ => rewrite this_plus in H
  | H : context [this (_ * _)%Qc] |- _ => rewrite this_mult in H
  | H : context [this (_ - _)%Qc] |- _ => rewrite this_minus in H
  | |- context [this (_ + _)%Qc] => rewrite this_plus
  | |- context [this (_ * _)%Qc] => rewrite this_mult
  | |- context [this (_ - _)%Qc] => rewrite this_minus
  end.
  change (this 0%Qc) with 0%Q in *. split; lra.
Qed.

(** X5.  In exact arithmetic, on an increasing axis of numbers, when the
    level nearest to the LCL lies at or below the 500 hPa level and the
    integrand lies between [lo] and [hi] at the levels from one to the
    other, the adjustment lies between [lo] and [hi] times the pressure
    difference of the two levels: a constant integrand is integrated
    exactly, and an integrand that is nowhere negative gives an adjustment
    that is not negative. *)
Theorem adjustment_between_bounds
  (plev_array dhdp_col : list xnum) (lcli : xnum) (X Y : nat -> Qc) (lo hi : Qc)
  (i k : nat) :
  strictly_increasing plev_array = true ->
  length dhdp_col = length plev_array ->
  nth_error plev_array i = Some plev_FT ->
  nearest_level plev_array lcli = Ok k ->
  i <= k ->
  (forall j, i <= j <= k ->
     nth j plev_array nan = XFin (X j) /\ nth j dhdp_col nan = XFin (Y j) /\
     (lo <= Y j)%Qc /\ (Y j <= hi)%Qc) ->
  exists q, adjustment plev_array dhdp_col lcli = Ok (XFin q) /\
            (lo * (X k - X i) <= q)%Qc /\ (q <= hi * (X k - X i))%Qc.
Proof.
  intros Hinc Hlen Hvi Hk Hik H.
  pose proof (exact_reference_index plev_array i Hinc Hvi) as Hi.
  assert (Hkl : k < length plev_array).
  { assert (Hne : plev_array <> []) by (intros E; rewrite E in Hvi; destruct i; discriminate).
    destruct (nearest_level_spec plev_array lcli Hne) as (k' & Hk' & Hlt & _). congruence. }
  rewrite (adjustment_trapezoid plev_array dhdp_col lcli i k) by assumption.
  rewrite (exact_trapezoid plev_array dhdp_col X Y i k)
    by (intros j Hj; destruct (H j Hj) as (? & ? & _); auto).
  eexists. split; [reflexivity|].
  assert (Hterms : forall j, In j (seq i (k - i)) ->
            (lo * (X (S j) - X j) <= ((X (S j) - X j) * (Y (S j) + Y j)) / Qc_of_Z 2)%Qc /\
            (((X (S j) - X j) * (Y (S j) + Y j)) / Qc_of_Z 2 <= hi * (X (S j) - X j))%Qc).
  { intros j Hj. apply in_seq in Hj.
    destruct (H j ltac:(lia)) as (Ex & _ & H1 & H2).
    destruct (H (S j) ltac:(lia)) as (Ex' & _ & H3 & H4).
    apply exact_term_bounds; try assumption.
    pose proof (strictly_increasing_nth plev_array j (S j) Hinc ltac:(lia) ltac:(lia)) as Hlt.
    rewrite Ex, Ex' in Hlt. apply xltb_fin in Hlt. qc_lra. }
  destruct (Qsum_bounds
    (fun j => (((X (S j) - X j) * (Y (S j) + Y j)) / Qc_of_Z 2)%Qc)
    (fun j => (X (S j) - X j)%Qc) lo hi (seq i (k - i)) Hterms 0%Qc 0%Qc) as [B1 B2].
  - rewrite Qcmult_0_r. apply Qcle_refl.
  - rewrite Qcmult_0_r. apply Qcle_refl.
  - rewrite Qsum_telescope in B1, B2. replace (i + (k - i)) with k in B1, B2 by lia.
    rewrite Qcplus_0_l in B1, B2. split; assumption.
Qed.

Lemma adjustment_between_bounds_witness :
  exists q, adjustment ex_plev_exact ex_dhdp_exact (of_Z 99000) = Ok (XFin q) /\
            (Qc_of_Z 2 * (ex_levels 3 - ex_levels 1) <= q)%Qc /\
            (q <= Qc_of_Z 4 * (ex_levels 3 - ex_levels 1))%Qc.
Proof.
  apply (adjustment_between_bounds ex_plev_exact ex_dhdp_exact (of_Z 99000)
           ex_levels ex_values (Qc_of_Z 2) (Qc_of_Z 4) 1 3);
    try (vm_compute; reflexivity); [lia|].
  intros j Hj.
  assert (E : j = 1 \/ j = 2 \/ j = 3) by lia.
  destruct E as [-> | [-> | ->]]; repeat split; vm_compute; discriminate.
Defined.

(** X6.  In exact arithmetic, on an increasing axis of numbers that holds
    the 500 hPa level, the adjustment is linear in the integrand: a column
    of numbers multiplied by the entrainment rate has the adjustment of the
    column multiplied by the entrainment rate, so the rate can be applied
    after the integration, as [func] does. *)
Theorem adjustment_is_linear
  (plev_array dhdp_col : list xnum) (lcli : xnum) (X Y : nat -> Qc) (ehat : Qc) (i : nat) :
  strictly_increasing plev_array = true ->
  length dhdp_col = length plev_array ->
  nth_error plev_array i = Some plev_FT ->
  (forall j, j < length plev_array ->
     nth j plev_array nan = XFin (X j) /\ nth j dhdp_col nan = XFin (Y j)) ->
  exists q, adjustment plev_array dhdp_col lcli = Ok (XFin q) /\
            adjustment plev_array (map (fun y => y *^ XFin ehat) dhdp_col) lcli
            = Ok (XFin q *^ XFin ehat).
Proof.
  intros Hinc Hlen Hvi H.
  pose proof (exact_reference_index plev_array i Hinc Hvi) as Hi.
  assert (Hne : plev_array <> []) by (intros E; rewrite E in Hvi; destruct i; discriminate).
  destruct (nearest_level_spec plev_array lcli Hne) as (k & Hk & Hkl & _).
  destruct (Nat.le_gt_cases k i) as [Hki|Hik].
  - exists 0%Qc.
    rewrite !(adjustment_short plev_array _ lcli i k) by assumption.
    rewrite exact_zero. split; [reflexivity|].
    cbn [mul exact xmul]. rewrite Qcmult_0_l. reflexivity.
  - rewrite (adjustment_trapezoid plev_array dhdp_col lcli i k) by assumption.
    rewrite (adjustment_trapezoid plev_array _ lcli i k);
      try assumption; [|rewrite length_map; exact Hlen].
    rewrite (exact_trapezoid plev_array dhdp_col X Y i k)
      by (intros j Hj; apply H; lia).
    rewrite (exact_trapezoid plev_array _ X (fun j => (Y j * ehat)%Qc) i k).
    + eexists. split; [reflexivity|]. cbn [mul exact xmul]. do 2 f_equal.
      rewrite <- Qsum_scale, Qcmult_0_l. f_equal. apply map_ext. intros j.
      unfold Qcdiv. ring.
    + intros j Hj. destruct (H j ltac:(lia)) as [Ex Ey]. split; [exact Ex|].
      rewrite (nth_indep _ nan (nan *^ XFin ehat)) by (rewrite length_map; lia).
      rewrite (map_nth (fun y => y *^ XFin ehat)), Ey. reflexivity.
Qed.

Lemma adjustment_is_linear_witness :
  exists q, adjustment ex_plev_exact ex_dhdp_exact (of_Z 99000) = Ok (XFin q) /\
            adjustment ex_plev_exact
              (map (fun y => y *^ XFin (Qc_of_Z 3)) ex_dhdp_exact) (of_Z 99000)
            = Ok (XFin q *^ XFin (Qc_of_Z 3)).
Proof.
  apply (adjustment_is_linear ex_plev_exact ex_dhdp_exact (of_Z 99000)
           ex_levels ex_values (Qc_of_Z 3) 1);
    try (vm_compute; reflexivity).
  intros j Hj. simpl in Hj.
  assert (E : j = 0 \/ j = 1 \/ j = 2 \/ j = 3) by lia.
  destruct E as [-> | [-> | [-> | ->]]]; split; reflexivity.
Defined.

(** ** The pressure-weighted virtual temperature above the bottom level *)

(** The integral of xarray over the positions from [lo] to the end of a
    slice, term by term. *)
Lemma xr_integrate_slices {num : Type} {A : Arith num} {L : ArithLaws A}
  (x y : list num) (lo hi : nat) :
  hi <= length x -> length y = length x ->
  xr_integrate (isel_slice y lo hi) (isel_slice x lo hi)
  = np_sum (map (fun i => ((nth (S i) x nan -^ nth i x nan) *^ half)
                          *^ (nth (S i) y nan +^ nth i y nan))
                (seq lo (hi - lo - 1))).
Proof.
  intros Hx Hy. unfold xr_integrate.
  rewrite !(isel_slice_nth nan) by lia.
  rewrite np_diff_map_seq, pair_sums_map_seq, map2_map_seq. reflexivity.
Qed.

Lemma exact_half : half (A := exact) = XFin (Qc_of_Z 1 / Qc_of_Z 2)%Qc.
Proof. reflexivity. Qed.

Lemma this_inv (p : Qc) : (this (/ p)%Qc == / this p)%Q.
Proof. unfold Qcinv, Q2Qc. cbn [this]. apply Qred_correct. Qed.

Lemma Qc_inv_pos (p : Qc) : (0 < p)%Qc -> (0 < / p)%Qc.
Proof.
  intros H. unfold Qclt in *. rewrite this_inv. apply Qinv_lt_0_compat. exact H.
Qed.

Lemma Qc_pos_not_zero (p : Qc) : (0 < p)%Qc -> p <> 0%Qc.
Proof. intros H E. subst p. revert H. apply Qcle_not_lt, Qcle_refl. Qed.

Lemma exact_mean_term_bounds (w r0 r1 t0 t1 lo hi : Qc) :
  (0 <= w)%Qc -> (0 <= r0)%Qc -> (0 <= r1)%Qc ->
  (lo <= t0)%Qc -> (t0 <= hi)%Qc -> (lo <= t1)%Qc -> (t1 <= hi)%Qc ->
  (lo * (w * (r1 + r0)) <= w * (t1 * r1 + t0 * r0))%Qc /\
  (w * (t1 * r1 + t0 * r0) <= hi * (w * (r1 + r0)))%Qc.
Proof.
  intros Hw Hr0 Hr1 H1 H2 H3 H4.
  assert (P : forall a b, (0 <= a)%Qc -> (0 <= b)%Qc -> (0 <= a * b)%Qc).
  { intros a b Ha Hb. rewrite <- (Qcmult_0_l b). apply Qcmult_le_compat_r; assumption. }
  assert (G1 : (0 <= w * ((t0 - lo) * r0))%Qc) by (apply P; [|apply P]; try assumption; qc_lra).
  assert (G2 : (0 <= w * ((t1 - lo) * r1))%Qc) by (apply P; [|apply P]; try assumption; qc_lra).
  assert (G3 : (0 <= w * ((hi - t0) * r0))%Qc) by (apply P; [|apply P]; try assumption; qc_lra).
  assert (G4 : (0 <= w * ((hi - t1) * r1))%Qc) by (apply P; [|apply P]; try assumption; qc_lra).
  clear P Hw Hr0 Hr1 H1 H2 H3 H4. split; qc_lra.
Qed.

Lemma exact_ratio_between (s1 s2 lo hi : Qc) :
  (0 < s2)%Qc -> (lo * s2 <= s1)%Qc -> (s1 <= hi * s2)%Qc ->
  exists q, xdiv (XFin s1) (XFin s2) = XFin q /\ (lo <= q)%Qc /\ (q <= hi)%Qc.
Proof.
  intros Hpos H1 H2. pose proof (Qc_pos_not_zero s2 Hpos) as Hne.
  exists (s1 / s2)%Qc. cbn [xdiv]. rewrite (Qc_is_zero_false _ Hne).
  split; [reflexivity|]. split.
  - apply (Qcmult_lt_0_le_reg_r _ _ s2 Hpos).
    rewrite (Qcmult_comm (s1 / s2)), Qcmult_div_r by exact Hne. exact H1.
  - apply (Qcmult_lt_0_le_reg_r _ _ s2 Hpos).
    rewrite (Qcmult_comm (s1 / s2)), Qcmult_div_r by exact Hne. exact H2.
Qed.

(** X7.  In exact arithmetic, on an increasing axis of numbers that ends
    at or below 100000 Pa, with positive pressures, the pressure-weighted
    virtual temperature exists at every level and lies between the least
    and the largest virtual temperature of the column: it is a weighted
    mean.  For a column of one temperature it is that temperature at every
    level. *)
Theorem pressure_weighted_temperature_is_a_mean
  (plev_array virtual_temp pfull : list xnum) (X P T : nat -> Qc) (lo hi : Qc) :
  strictly_increasing plev_array = true ->
  plev_array <> [] ->
  (last plev_array nan <=^? p_surface) = true ->
  length virtual_temp = length plev_array ->
  length pfull = length plev_array ->
  (forall k, k < length plev_array ->
     nth k plev_array nan = XFin (X k) /\
     nth k pfull nan = XFin (P k) /\ (0 < P k)%Qc /\
     nth k virtual_temp nan = XFin (T k) /\ (lo <= T k)%Qc /\ (T k <= hi)%Qc) ->
  exists tvw,
    virtual_temperature_pressure_weighted plev_array virtual_temp pfull = Ok tvw /\
    length tvw = length plev_array /\
    forall k, k < length plev_array ->
      exists q, nth k tvw nan = XFin q /\ (lo <= q)%Qc /\ (q <= hi)%Qc.
Proof.
  intros Hinc Hne Hlast Htv Hp H.
  set (n := length plev_array) in *.
  pose proof (axis_length_pos plev_array Hinc Hne Hlast n eq_refl) as Hn.
  set (f1 := virtual_temp_by_p virtual_temp pfull).
  set (f2 := inv_pfull pfull).
  assert (H1 : length f1 = n) by (unfold f1, virtual_temp_by_p; rewrite length_map2; lia).
  assert (H2 : length f2 = n) by (unfold f2, inv_pfull; rewrite length_map; exact Hp).
  assert (E1 : forall k, k < n -> nth k f1 nan = XFin (T k * / P k)%Qc).
  { intros k Hk. destruct (H k Hk) as (_ & EP & HP & ET & _).
    unfold f1, virtual_temp_by_p. rewrite (nth_map2 _ _ _ nan nan) by lia.
    rewrite ET, EP. cbn [div exact xdiv].
    rewrite (Qc_is_zero_false _ (Qc_pos_not_zero _ HP)). reflexivity. }
  assert (E2 : forall k, k < n -> nth k f2 nan = XFin (/ P k)%Qc).
  { intros k Hk. destruct (H k Hk) as (_ & EP & HP & _).
    unfold f2, inv_pfull.
    rewrite (nth_indep _ nan (one /^ nan)) by (rewrite length_map; lia).
    rewrite (map_nth (fun q => one /^ q)), EP, exact_one. cbn [div exact xdiv].
    rewrite (Qc_is_zero_false _ (Qc_pos_not_zero _ HP)). f_equal.
    unfold Qcdiv. apply Qcmult_1_l. }
  unfold virtual_temperature_pressure_weighted. fold f1 f2.
  rewrite (part_ok plev_array Hinc Hne Hlast n eq_refl f1 H1).
  rewrite (part_ok plev_array Hinc Hne Hlast n eq_refl f2 H2). cbn [bind].
  eexists. split; [reflexivity|]. split.
  { rewrite length_map2; rewrite !length_map, !length_seq; reflexivity. }
  intros k Hk.
  rewrite (nth_map2 _ _ _ nan nan) by (rewrite length_map, length_seq; exact Hk).
  rewrite (nth_indep _ nan (part_value plev_array f1 0))
    by (rewrite length_map, length_seq; exact Hk).
  rewrite (nth_indep (map (part_value plev_array f2) _) nan (part_value plev_array f2 0))
    by (rewrite length_map, length_seq; exact Hk).
  rewrite !map_nth, !seq_nth by exact Hk. cbn [Nat.add].
  unfold part_value. fold n.
  destruct (Nat.eqb_spec k (n - 1)) as [->|Hkb].
  - rewrite E1, E2 by lia. destruct (H (n - 1) ltac:(lia)) as (_ & _ & HP & _ & Hlo & Hhi).
    exists (T (n - 1)). split; [|split; assumption].
    cbn [div exact xdiv].
    pose proof (Qc_pos_not_zero _ (Qc_inv_pos _ HP)) as Hinv.
    rewrite (Qc_is_zero_false _ Hinv). f_equal.
    unfold Qcdiv. rewrite <- Qcmult_assoc, Qcmult_inv_r by exact Hinv. apply Qcmult_1_r.
  - rewrite !xr_integrate_slices by (fold n; lia).
    set (w := fun j => ((X (S j) - X j) * (Qc_of_Z 1 / Qc_of_Z 2))%Qc).
    set (u := fun j => (w j * (T (S j) * / P (S j) + T j * / P j))%Qc).
    set (v := fun j => (w j * (/ P (S j) + / P j))%Qc).
    assert (Eu : map (fun i => ((nth (S i) plev_array nan -^ nth i plev_array nan) *^ half)
                               *^ (nth (S i) f1 nan +^ nth i f1 nan))
                     (seq k (n - k - 1))
                 = map (fun j => XFin (u j)) (seq k (n - k - 1))).
    { apply map_ext_in. intros j Hj. apply in_seq in Hj.
      destruct (H j ltac:(lia)) as (Ex & _). destruct (H (S j) ltac:(lia)) as (Ex' & _).
      rewrite Ex, Ex', !E1, exact_half by lia. reflexivity. }
    assert (Ev : map (fun i => ((nth (S i) plev_array nan -^ nth i plev_array nan) *^ half)
                               *^ (nth (S i) f2 nan +^ nth i f2 nan))
                     (seq k (n - k - 1))
                 = map (fun j => XFin (v j)) (seq k (n - k - 1))).
    { apply map_ext_in. intros j Hj. apply in_seq in Hj.
      destruct (H j ltac:(lia)) as (Ex & _). destruct (H (S j) ltac:(lia)) as (Ex' & _).
      rewrite Ex, Ex', !E2, exact_half by lia. reflexivity. }
    rewrite Eu, Ev, !exact_np_sum_fin.
    assert (Hw : forall j, In j (seq k (n - k - 1)) -> (0 < w j)%Qc).
    { intros j Hj. apply in_seq in Hj.
      destruct (H j ltac:(lia)) as (Ex & _). destruct (H (S j) ltac:(lia)) as (Ex' & _).
      pose proof (strictly_increasing_nth plev_array j (S j) Hinc ltac:(lia) ltac:(fold n; lia))
        as Hlt.
      rewrite Ex, Ex' in Hlt. apply xltb_fin in Hlt. unfold w.
      assert (Hd : (0 < X (S j) - X j)%Qc) by qc_lra.
      rewrite <- (Qcmult_0_l (Qc_of_Z 1 / Qc_of_Z 2)).
      apply Qcmult_lt_compat_r; [reflexivity | exact Hd]. }
    assert (Hr : forall j, j < n -> (0 < / P j)%Qc).
    { intros j Hj. destruct (H j Hj) as (_ & _ & HP & _). apply Qc_inv_pos. exact HP. }
    destruct (Qsum_bounds u v lo hi (seq k (n - k - 1))) with (au := 0%Qc) (av := 0%Qc)
      as [B1 B2].
    + intros j Hj. pose proof (Hw j Hj) as Hwj. apply in_seq in Hj.
      destruct (H j ltac:(lia)) as (_ & _ & _ & _ & Hl0 & Hh0).
      destruct (H (S j) ltac:(lia)) as (_ & _ & _ & _ & Hl1 & Hh1).
      unfold u, v. apply exact_mean_term_bounds; try assumption;
        apply Qclt_le_weak; [exact Hwj | apply Hr; lia | apply Hr; lia].
    + rewrite Qcmult_0_r. apply Qcle_refl.
    + rewrite Qcmult_0_r. apply Qcle_refl.
    + apply exact_ratio_between; [|exact B1 | exact B2].
      apply Qsum_pos; [| apply Qcle_refl |].
      * intros j Hj. pose proof (Hw j Hj) as Hwj. apply in_seq in Hj. unfold v.
        pose proof (Hr j ltac:(lia)). pose proof (Hr (S j) ltac:(lia)).
        rewrite <- (Qcmult_0_r (w j)). rewrite !(Qcmult_comm (w j)).
        apply Qcmult_lt_compat_r; [exact Hwj | qc_lra].
      * left. destruct (n - k - 1) eqn:E; [lia | discriminate].
Qed.

Lemma pressure_weighted_temperature_is_a_mean_witness :
  exists tvw,
    virtual_temperature_pressure_weighted ex_plev_exact ex_virtual_temp_exact ex_plev_exact
      = Ok tvw /\
    length tvw = length ex_plev_exact /\
    forall k, k < length ex_plev_exact ->
      exists q, nth k tvw nan = XFin q /\ (Qc_of_Z 250 <= q)%Qc /\ (q <= Qc_of_Z 290)%Qc.
Proof.
  apply (pressure_weighted_temperature_is_a_mean ex_plev_exact ex_virtual_temp_exact
           ex_plev_exact ex_levels ex_levels ex_temps (Qc_of_Z 250) (Qc_of_Z 290));
    try (vm_compute; reflexivity); [discriminate|].
  intros k Hk. simpl in Hk.
  assert (E : k = 0 \/ k = 1 \/ k = 2 \/ k = 3) by lia.
  destruct E as [-> | [-> | [-> | ->]]]; repeat split; vm_compute; discriminate.
Defined.

(** ** Levels and latitudes selected by label *)

Lemma get_loc_None {num : Type} {A : Arith num} (axis : list num) (label : num) :
  get_loc axis label = None -> forall a, In a axis -> (a ==^? label) = false.
Proof.
  induction axis as [|b t IH]; intros H a Ha; [destruct Ha|].
  cbn [get_loc] in H. destruct (b ==^? label) eqn:E; [discriminate|].
  destruct (get_loc t label) eqn:Et; [discriminate|].
  destruct Ha as [<-|Ha]; [exact E | apply IH; [reflexivity | exact Ha]].
Qed.

(** A double that compares equal to a number other than zero is that
    number. *)
Lemma b64_eqb_finite (a : spec_float) (s : bool) (m : positive) (e : Z) :
  SFeqb a (S754_finite s m e) = true -> a = S754_finite s m e.
Proof.
  intros H. apply b64_eqb_key in H. destruct H as (_ & _ & H).
  destruct a as [[|]|[|]| |[|] ma ea], s; simpl in H; try discriminate;
    injection H as H1 H2; f_equal; lia.
Qed.

Lemma pressure_axis_levels (plev_array : list spec_float) (i k : nat) :
  pressure_axis plev_array = true ->
  nth_error plev_array i = Some plev_FT ->
  k < length plev_array ->
  strictly_increasing plev_array = true /\ isnan (nth k plev_array nan) = false.
Proof.
  intros Hax Hi Hk. destruct (pressure_axis_reference plev_array i Hax Hi) as [Hinc _].
  split; [exact Hinc|]. exact (level_not_nan plev_array i k Hinc Hi Hk).
Qed.

(** X8.  On a pressure axis, [arr.sel(plev = 50000.)] either raises
    [KeyError], when no level of the axis is 50000 Pa, or returns the value
    of the column at the index [plev_FT_index] from which the vertical
    integration starts: the fields at 500 hPa and the lower end of the
    integral belong to one level. *)
Theorem reference_level_selection (plev_array col : list spec_float) :
  pressure_axis plev_array = true ->
  (~ In plev_FT plev_array /\ sel_level plev_array col plev_FT = Raise KeyError) \/
  (exists i, nth_error plev_array i = Some plev_FT /\
             nearest_level plev_array plev_FT = Ok i /\
             sel_level plev_array col plev_FT = Ok (nth i col nan)).
Proof.
  intros Hax. unfold sel_level.
  destruct (get_loc plev_array plev_FT) as [i|] eqn:E.
  - right. exists i. apply get_loc_Some in E. destruct E as [Hi He].
    apply (b64_eqb_finite _ false 6871947673600000%positive (-37)%Z) in He.
    assert (Hn : nth_error plev_array i = Some plev_FT).
    { rewrite (nth_error_nth' plev_array nan Hi). f_equal. exact He. }
    split; [exact Hn|]. split; [|reflexivity].
    apply (pressure_axis_reference plev_array i Hax Hn).
  - left. split; [|reflexivity].
    intros Hin. pose proof (get_loc_None plev_array plev_FT E plev_FT Hin) as C.
    discriminate.
Qed.

(** An axis without the 500 hPa level raises; on the levels 250, 500, 850
    and 1000 hPa the value is that of the second level, where the
    integration starts. *)
Lemma reference_level_selection_witness :
  sel_level ex_plev_no_reference ex_dhdp plev_FT = Raise KeyError /\
  (exists i, nth_error ex_plev i = Some plev_FT /\
             nearest_level ex_plev plev_FT = Ok i /\
             sel_level ex_plev ex_dhdp plev_FT = Ok (nth i ex_dhdp nan)) /\
  sel_level ex_plev ex_dhdp plev_FT = Ok (of_Z 2).
Proof.
  split; [|split].
  - destruct (reference_level_selection ex_plev_no_reference ex_dhdp
                ltac:(vm_compute; reflexivity)) as [[_ H] | (i & _ & _ & H)];
      [exact H | vm_compute in H; discriminate H].
  - destruct (reference_level_selection ex_plev ex_dhdp
                ltac:(vm_compute; reflexivity)) as [[Hn _] | H]; [|exact H].
    exfalso. apply Hn. right. left. vm_compute. reflexivity.
  - destruct (reference_level_selection ex_plev ex_dhdp
                ltac:(vm_compute; reflexivity)) as [[Hn _] | (i & Hi & Hr & H)].
    + exfalso. apply Hn. right. left. vm_compute. reflexivity.
    + rewrite H. vm_compute in Hr. injection Hr as <-. reflexivity.
Defined.

(** X9.  On a pressure axis that holds the 500 hPa level, the moist static
    energy [hlcl] of a column is its value at the level nearest to the LCL:
    selecting by the label of that level finds the level again and never
    raises, whatever the LCL pressure. *)
Theorem hlcl_at_nearest_level (plev_array h_col : list spec_float) (lcli : spec_float)
  (i : nat) :
  pressure_axis plev_array = true ->
  nth_error plev_array i = Some plev_FT ->
  exists k, nearest_level plev_array lcli = Ok k /\ k < length plev_array /\
            sel_level plev_array h_col (nth k plev_array nan) = Ok (nth k h_col nan) /\
            hlcl plev_array h_col lcli = Ok (nth k h_col nan).
Proof.
  intros Hax Hi.
  assert (Hne : plev_array <> []) by (intros ->; destruct i; discriminate).
  destruct (nearest_level_spec plev_array lcli Hne) as (k & Hk & Hkl & _).
  destruct (pressure_axis_levels plev_array i k Hax Hi Hkl) as [Hinc Hnan].
  assert (Hsel : sel_level plev_array h_col (nth k plev_array nan) = Ok (nth k h_col nan)).
  { unfold sel_level. rewrite get_loc_nth by assumption. reflexivity. }
  exists k. repeat split; auto.
  unfold hlcl. rewrite Hk. cbn [bind]. exact Hsel.
Qed.

Lemma hlcl_at_nearest_level_witness :
  exists k, nearest_level ex_plev (of_Z 90000) = Ok k /\ k < length ex_plev /\
            sel_level ex_plev ex_dhdp (nth k ex_plev nan) = Ok (nth k ex_dhdp nan) /\
            hlcl ex_plev ex_dhdp (of_Z 90000) = Ok (nth k ex_dhdp nan).
Proof.
  apply (hlcl_at_nearest_level ex_plev ex_dhdp (of_Z 90000) 1); vm_compute; reflexivity.
Defined.

(** X10.  A column whose LCL pressure is NaN gets the adjustment 0.0, not
    NaN: every distance to the LCL is NaN, [np.argmin] answers the first
    level, and the slice from the 500 hPa level up to it holds at most one
    level. *)
Theorem nan_lcl_gives_zero_adjustment (plev_array dhdp_col : list spec_float) (i : nat) :
  pressure_axis plev_array = true ->
  nth_error plev_array i = Some plev_FT ->
  nearest_level plev_array nan = Ok 0 /\
  adjustment plev_array dhdp_col nan = Ok zero.
Proof.
  intros Hax Hi.
  destruct (pressure_axis_reference plev_array i Hax Hi) as [Hinc Href].
  assert (H0 : nearest_level plev_array nan = Ok 0).
  { destruct plev_array as [|a t]; [destruct i; discriminate|].
    unfold nearest_level. cbn [map np_argmin].
    change (a -^ nan) with (SFsub prec64 emax64 a S754_nan).
    rewrite (sub_nan_r (A := binary64) a : SFsub prec64 emax64 a S754_nan = S754_nan).
    reflexivity. }
  split; [exact H0|].
  apply (adjustment_short plev_array dhdp_col nan i 0); auto. lia.
Qed.

Lemma nan_lcl_gives_zero_adjustment_witness :
  nearest_level ex_plev nan = Ok 0 /\
  adjustment ex_plev ex_dhdp_nan nan = Ok zero.
Proof.
  apply (nan_lcl_gives_zero_adjustment ex_plev ex_dhdp_nan 1); vm_compute; reflexivity.
Defined.

(** X11.  On an increasing axis whose last level lies beyond 100000 Pa the
    slice [slice(pressure, 100000.)] of the last level is empty, its first
    value does not exist, and the loop over the levels raises [IndexError]:
    no pressure-weighted virtual temperature is produced. *)
Theorem level_beyond_surface_raises
  (plev_array fld virtual_temp pfull : list spec_float) :
  strictly_increasing plev_array = true ->
  (p_surface <^? last plev_array nan) = true ->
  sel_plev plev_array fld (last plev_array nan) p_surface = Ok [] /\
  part plev_array fld = Raise IndexError /\
  virtual_temperature_pressure_weighted plev_array virtual_temp pfull = Raise IndexError.
Proof.
  intros Hinc Hlt. split; [apply sel_plev_increasing_empty; assumption|]. split.
  - apply part_raises_increasing; assumption.
  - unfold virtual_temperature_pressure_weighted.
    rewrite part_raises_increasing by assumption. reflexivity.
Qed.

Lemma level_beyond_surface_raises_witness :
  sel_plev ex_plev_beyond ex_dhdp (last ex_plev_beyond nan) p_surface = Ok [] /\
  part ex_plev_beyond ex_dhdp = Raise IndexError /\
  virtual_temperature_pressure_weighted ex_plev_beyond ex_virtual_temp ex_plev_beyond
  = Raise IndexError.
Proof.
  apply (level_beyond_surface_raises ex_plev_beyond ex_dhdp ex_virtual_temp ex_plev_beyond);
    vm_compute; reflexivity.
Defined.

(** X12.  On an axis of two or more levels in decreasing order, from the
    surface upwards, whose last level lies below 100000 Pa, the slice of
    the last level is empty and the loop over the levels raises
    [IndexError]: the notebook needs the top of the atmosphere first. *)
Theorem decreasing_axis_raises
  (plev_array fld virtual_temp pfull : list spec_float) :
  strictly_decreasing plev_array = true ->
  2 <= length plev_array ->
  (last plev_array nan <^? p_surface) = true ->
  sel_plev plev_array fld (last plev_array nan) p_surface = Ok [] /\
  part plev_array fld = Raise IndexError /\
  virtual_temperature_pressure_weighted plev_array virtual_temp pfull = Raise IndexError.
Proof.
  intros Hdec H2 Hlt. split; [apply sel_plev_decreasing_empty; assumption|]. split.
  - apply part_raises_decreasing; assumption.
  - unfold virtual_temperature_pressure_weighted.
    rewrite part_raises_decreasing by assumption. reflexivity.
Qed.

Lemma decreasing_axis_raises_witness :
  sel_plev ex_plev_decreasing ex_dhdp (last ex_plev_decreasing nan) p_surface = Ok [] /\
  part ex_plev_decreasing ex_dhdp = Raise IndexError /\
  virtual_temperature_pressure_weighted ex_plev_decreasing ex_virtual_temp ex_plev_decreasing
  = Raise IndexError.
Proof.
  apply (decreasing_axis_raises ex_plev_decreasing ex_dhdp ex_virtual_temp ex_plev_decreasing);
    try (vm_compute; reflexivity). simpl. lia.
Defined.

(** X13.  A slice of labels on an increasing axis without NaN, from one
    number to another, selects the values whose labels lie between the two
    ends, both included, in the order of the axis, whether or not the ends
    are labels of the axis; so [arr.sel(lat = slice(-l, l))] keeps the
    latitudes from 20 S to 20 N. *)
Theorem label_slice_is_inclusive_band {T : Type}
  (axis : list spec_float) (row : list T) (start stop : spec_float) :
  strictly_increasing axis = true ->
  no_nan axis = true ->
  length row = length axis ->
  (isnan start = false -> isnan stop = false ->
   sel_plev axis row start stop
   = Ok (map snd (filter (fun p => in_slice start stop (fst p)) (combine axis row)))) /\
  sel_lat axis row
  = Ok (map snd (filter (fun p => in_slice (of_Z (-20)) (of_Z 20) (fst p))
                        (combine axis row))).
Proof.
  intros Hinc Hnn Hlen. split.
  - intros Hs Hp. apply sel_plev_band; assumption.
  - unfold sel_lat. apply sel_plev_band; try assumption; reflexivity.
Qed.

(** From 15 S to 15 N, ends that the axis lacks, and from 20 S to 20 N. *)
Lemma label_slice_is_inclusive_band_witness :
  sel_plev ex_lat ex_lat (of_Z (-15)) (of_Z 15) = Ok (map of_Z [-10; 0; 10]%Z) /\
  sel_lat ex_lat ex_lat = Ok (map of_Z [-20; -10; 0; 10; 20]%Z).
Proof.
  split.
  - refine (eq_trans
              (proj1 (label_slice_is_inclusive_band ex_lat ex_lat (of_Z (-15)) (of_Z 15)
                        _ _ _) _ _) _);
      vm_compute; reflexivity.
  - refine (eq_trans
              (proj2 (label_slice_is_inclusive_band ex_lat ex_lat zero zero _ _ _)) _);
      vm_compute; reflexivity.
Defined.

(** X14.  On a latitude axis of two or more labels in decreasing order, from
    north to south, [arr.sel(lat = slice(-l, l))] selects nothing and does
    not raise. *)
Theorem decreasing_latitudes_select_nothing {T : Type}
  (lat_axis : list spec_float) (row : list T) :
  strictly_decreasing lat_axis = true ->
  2 <= length lat_axis ->
  sel_lat lat_axis row = Ok [].
Proof.
  intros Hdec H2. unfold sel_lat. apply sel_plev_decreasing_empty; try assumption.
  reflexivity.
Qed.

Lemma decreasing_latitudes_select_nothing_witness :
  sel_lat ex_lat_decreasing ex_lat_decreasing = Ok [].
Proof.
  apply (decreasing_latitudes_select_nothing ex_lat_decreasing ex_lat_decreasing).
  - vm_compute. reflexivity.
  - simpl. lia.
Defined.

(** ** The loop over the levels on an axis that ends at the surface *)

(** X15.  On an increasing axis that ends at or below 100000 Pa the loop
    over the levels does not raise and gives one value for each level.
    Above the last level the slice [slice(pressure, 100000.)] runs from the
    level to the end of the axis.  With fewer than eight levels below the
    level, the value is the quotient of two integrals over these levels in
    binary64: the areas [(p[j+1] - p[j]) * 0.5 * (y[j+1] + y[j])] added in
    turn, with [y = virtual_temp/pfull] above the line and [y = 1/pfull]
    below it. *)
Theorem levels_above_bottom_integrate_to_the_end
  (plev_array virtual_temp pfull : list spec_float) :
  strictly_increasing plev_array = true ->
  plev_array <> [] ->
  (last plev_array nan <=^? p_surface) = true ->
  length virtual_temp = length plev_array ->
  length pfull = length plev_array ->
  let n := length plev_array in
  let area := fun (y : nat -> spec_float) (j : nat) =>
    ((nth (S j) plev_array nan -^ nth j plev_array nan) *^ half) *^ (y (S j) +^ y j) in
  exists tvw,
    virtual_temperature_pressure_weighted plev_array virtual_temp pfull = Ok tvw /\
    length tvw = n /\
    forall k, k < n - 1 ->
      sel_plev plev_array plev_array (nth k plev_array nan) p_surface
        = Ok (isel_slice plev_array k n) /\
      (n - k - 1 < 8 ->
       nth k tvw nan
       = sum_in_turn (area (fun i => nth i virtual_temp nan /^ nth i pfull nan))
                     k (n - k - 1)
         /^ sum_in_turn (area (fun i => one /^ nth i pfull nan)) k (n - k - 1)).
Proof.
  intros Hinc Hne Hlast Htv Hp n area.
  pose proof (axis_length_pos plev_array Hinc Hne Hlast n eq_refl) as Hn.
  set (f1 := virtual_temp_by_p virtual_temp pfull).
  set (f2 := inv_pfull pfull).
  assert (H1 : length f1 = n) by (unfold f1, virtual_temp_by_p; rewrite length_map2; lia).
  assert (H2 : length f2 = n) by (unfold f2, inv_pfull; rewrite length_map; exact Hp).
  assert (E1 : forall k, k < n -> nth k f1 nan = nth k virtual_temp nan /^ nth k pfull nan).
  { intros k Hk. unfold f1, virtual_temp_by_p. apply nth_map2; lia. }
  assert (E2 : forall k, k < n -> nth k f2 nan = one /^ nth k pfull nan).
  { intros k Hk. unfold f2, inv_pfull.
    rewrite (nth_indep _ nan (one /^ nan)) by (rewrite length_map; lia).
    apply (map_nth (fun q => one /^ q)). }
  unfold virtual_temperature_pressure_weighted. fold f1 f2.
  rewrite (part_ok plev_array Hinc Hne Hlast n eq_refl f1 H1).
  rewrite (part_ok plev_array Hinc Hne Hlast n eq_refl f2 H2). cbn [bind].
  eexists. split; [reflexivity|]. split.
  { rewrite length_map2; rewrite !length_map, !length_seq; reflexivity. }
  intros k Hk. split.
  { unfold sel_plev.
    rewrite (slice_to_surface plev_array Hinc Hne Hlast n eq_refl k) by lia.
    reflexivity. }
  intros _.
  rewrite (nth_map2 _ _ _ nan nan) by (rewrite length_map, length_seq; lia).
  rewrite (nth_indep _ nan (part_value plev_array f1 0))
    by (rewrite length_map, length_seq; lia).
  rewrite (nth_indep (map (part_value plev_array f2) _) nan (part_value plev_array f2 0))
    by (rewrite length_map, length_seq; lia).
  rewrite !map_nth, !seq_nth by lia. cbn [Nat.add].
  unfold part_value. fold n.
  destruct (Nat.eqb_spec k (n - 1)) as [E|_]; [lia|].
  rewrite !xr_integrate_slices by (fold n; lia).
  rewrite <- !np_sum_in_turn.
  unfold area. f_equal; f_equal; apply map_ext_in; intros j Hj; apply in_seq in Hj.
  - rewrite !E1 by lia. reflexivity.
  - rewrite !E2 by lia. reflexivity.
Qed.

(** Four levels: three, two and one trapezoid below the first, the second
    and the third. *)
Lemma levels_above_bottom_integrate_to_the_end_witness :
  exists tvw,
    virtual_temperature_pressure_weighted ex_plev ex_virtual_temp ex_plev = Ok tvw /\
    length tvw = 4 /\
    forall k, k < 4 - 1 ->
      sel_plev ex_plev ex_plev (nth k ex_plev nan) p_surface
        = Ok (isel_slice ex_plev k 4) /\
      nth k tvw nan
      = sum_in_turn
          (fun j => ((nth (S j) ex_plev nan -^ nth j ex_plev nan) *^ half)
                    *^ (nth (S j) ex_virtual_temp nan /^ nth (S j) ex_plev nan
                        +^ nth j ex_virtual_temp nan /^ nth j ex_plev nan))
          k (4 - k - 1)
        /^ sum_in_turn
             (fun j => ((nth (S j) ex_plev nan -^ nth j ex_plev nan) *^ half)
                       *^ (one /^ nth (S j) ex_plev nan +^ one /^ nth j ex_plev nan))
             k (4 - k - 1).
Proof.
  pose proof (levels_above_bottom_integrate_to_the_end ex_plev ex_virtual_temp ex_plev
     ltac:(vm_compute; reflexivity) ltac:(discriminate) ltac:(vm_compute; reflexivity)
     eq_refl eq_refl) as H.
  cbv zeta in H.
  destruct H as (tvw & H1 & H2 & H3).
  exists tvw. split; [exact H1|]. split; [exact H2|].
  intros k Hk. destruct (H3 k Hk) as [Hs Hv]. split; [exact Hs|].
  apply Hv. change (length ex_plev) with 4. lia.
Defined.

(** ** The loop over the columns *)

Lemma mapM_ext {T U : Type} (f g : T -> outcome U) (l0 : list T) :
  (forall x, In x l0 -> f x = g x) -> mapM f l0 = mapM g l0.
Proof.
  induction l0 as [|a l0 IH]; intros H; [reflexivity|].
  cbn [mapM]. rewrite (H a) by (left; reflexivity).
  rewrite IH by (intros x Hx; apply H; right; exact Hx). reflexivity.
Qed.

Lemma mapM_all_ok {T U : Type} (f : T -> outcome U) (l0 : list T) :
  (forall x, In x l0 -> exists y, f x = Ok y) ->
  exists r, mapM f l0 = Ok r /\ length r = length l0.
Proof.
  induction l0 as [|a l0 IH]; intros H.
  - exists []. split; reflexivity.
  - destruct (H a (or_introl eq_refl)) as (y & Hy).
    destruct (IH (fun x Hx => H x (or_intror Hx))) as (r & Hr & Hl).
    exists (y :: r). cbn [mapM]. rewrite Hy. cbn [bind]. rewrite Hr. cbn [bind length].
    split; [reflexivity | lia].
Qed.

Lemma mapM_ok_inv {T U : Type} (f : T -> outcome U) (l0 : list T) (r : list U) :
  mapM f l0 = Ok r -> forall x, In x l0 -> exists y, f x = Ok y.
Proof.
  revert r. induction l0 as [|a l0 IH]; intros r H x Hx; [destruct Hx|].
  cbn [mapM] in H. destruct (f a) as [y|e] eqn:Ea; [|discriminate].
  cbn [bind] in H. destruct (mapM f l0) as [r'|e] eqn:Er; [|discriminate].
  destruct Hx as [<-|Hx]; [exists y; exact Ea | exact (IH r' eq_refl x Hx)].
Qed.

Lemma get_loc_Z_months (m : nat) :
  m < 12 -> get_loc_Z months (Z.of_nat m + 1) = Some m.
Proof.
  intros H. do 12 (destruct m as [|m]; [reflexivity|]). lia.
Qed.

Lemma get_loc_Z_None (axis : list Z) (label : Z) :
  ~ In label axis -> get_loc_Z axis label = None.
Proof.
  induction axis as [|a t IH]; intros H; [reflexivity|].
  cbn [get_loc_Z]. destruct (Z.eqb_spec a label) as [E|E].
  - exfalso. apply H. left. exact E.
  - rewrite IH; [reflexivity|]. intros Hin. apply H. right. exact Hin.
Qed.

Lemma no_nan_nth {num : Type} {A : Arith num} (axis : list num) (k : nat) :
  no_nan axis = true -> k < length axis -> isnan (nth k axis nan) = false.
Proof.
  intros H Hk. unfold no_nan in H. rewrite forallb_forall in H.
  specialize (H _ (nth_In axis nan Hk)). destruct (isnan _); [discriminate | reflexivity].
Qed.

(** X16.  When the month axis of the data carries the labels 1 to 12, the
    latitude and longitude axes are increasing without NaN, and the
    pressure axis holds the 500 hPa level, the loop over the columns
    pairs each LCL pressure, read at the position [month], with the columns
    selected by the label [month+1] at the same place: it computes the
    adjustment and the moist static energy at the LCL of every column of
    the grid, raises nothing, and gives [12 * len(lat) * len(lon)] pairs
    of values. *)
Theorem column_loop_pairs_lcl_with_its_column
  (lat lon plev_array : list spec_float)
  (dhdp_cols h_cols : nat -> nat -> nat -> list spec_float) (lcl_p : field3) (i : nat) :
  strictly_increasing lat = true -> no_nan lat = true ->
  strictly_increasing lon = true -> no_nan lon = true ->
  pressure_axis plev_array = true ->
  nth_error plev_array i = Some plev_FT ->
  (forall m la lo, length (dhdp_cols m la lo) = length plev_array) ->
  let g := {| n_month := 12; n_lat := length lat; n_lon := length lon |} in
  column_loop months lat lon plev_array dhdp_cols h_cols lcl_p
  = mapM (fun pt : nat * nat * nat =>
            let '(m, la, lo) := pt in
            a <- adjustment plev_array (dhdp_cols m la lo) (lcl_p m la lo) ;;
            h <- hlcl plev_array (h_cols m la lo) (lcl_p m la lo) ;;
            Ok (a, h))
         (points g) /\
  exists values,
    column_loop months lat lon plev_array dhdp_cols h_cols lcl_p = Ok values /\
    length values = 12 * length lat * length lon.
Proof.
  intros Hlat Hnlat Hlon Hnlon Hax Hvi Hlen g.
  destruct (pressure_axis_reference plev_array i Hax Hvi) as [Hinc Hi].
  assert (Hne : plev_array <> []) by (intros ->; destruct i; discriminate).
  assert (E : column_loop months lat lon plev_array dhdp_cols h_cols lcl_p
              = mapM (fun pt : nat * nat * nat =>
                        let '(m, la, lo) := pt in
                        a <- adjustment plev_array (dhdp_cols m la lo) (lcl_p m la lo) ;;
                        h <- hlcl plev_array (h_cols m la lo) (lcl_p m la lo) ;;
                        Ok (a, h))
                     (points g)).
  { unfold column_loop. rewrite Hi. cbn [bind]. apply mapM_ext.
    intros [[m la] lo] Hin. apply in_points in Hin. cbn [n_month n_lat n_lon g] in Hin.
    destruct Hin as (Hm & Hla & Hlo).
    unfold column_at, adjustment, hlcl. rewrite Hi. cbn [bind].
    replace (m <? length months) with true
      by (symmetry; apply Nat.ltb_lt; exact Hm).
    cbn [bind]. rewrite (get_loc_Z_months m Hm).
    rewrite (get_loc_nth lat la Hlat Hla (no_nan_nth lat la Hnlat Hla)).
    rewrite (get_loc_nth lon lo Hlon Hlo (no_nan_nth lon lo Hnlon Hlo)).
    destruct (nearest_level plev_array (lcl_p m la lo)) as [k|e]; [|reflexivity].
    cbn [bind located].
    destruct (sel_plev plev_array (dhdp_cols m la lo) plev_FT (nth k plev_array nan))
      as [sl|e]; [|reflexivity].
    cbn [bind]. destruct (np_trapz sl (isel_slice plev_array i (k + 1))); reflexivity. }
  split; [exact E|]. rewrite E.
  assert (Hpts : length (points g) = 12 * length lat * length lon).
  { unfold points. cbn [n_month n_lat n_lon g].
    assert (F : forall (T : Type) (f : nat -> list T) (c : nat) (l0 : list nat),
              (forall x, In x l0 -> length (f x) = c) ->
              length (flat_map f l0) = length l0 * c).
    { intros T f c l0. induction l0 as [|x l0 IH]; intros H; [reflexivity|].
      cbn [flat_map]. rewrite length_app, (H x (or_introl eq_refl)).
      rewrite IH by (intros y Hy; apply H; right; exact Hy). cbn [length]. lia. }
    rewrite (F _ _ (length lat * length lon)).
    - rewrite length_seq. lia.
    - intros m _. rewrite (F _ _ (length lon)).
      + rewrite length_seq. reflexivity.
      + intros la _. rewrite length_map, length_seq. reflexivity. }
  rewrite <- Hpts. apply mapM_all_ok.
  intros [[m la] lo] _.
  destruct (nearest_level_spec plev_array (lcl_p m la lo) Hne) as (k & Hk & Hkl & _).
  rewrite (adjustment_trapezoid plev_array _ _ i k); auto. cbn [bind].
  unfold hlcl, sel_level. rewrite Hk. cbn [bind].
  rewrite get_loc_nth; [eexists; reflexivity | exact Hinc | exact Hkl |].
  exact (level_not_nan plev_array i k Hinc Hvi Hkl).
Qed.

(** One latitude and two longitudes: 24 columns, those of the first
    longitude without an LCL. *)
Lemma column_loop_pairs_lcl_with_its_column_witness :
  exists values,
    column_loop months ex_lat_one ex_lon ex_plev (fun _ _ _ => ex_dhdp)
      (fun _ _ _ => ex_virtual_temp)
      (fun m _ lo => if lo =? 0 then nan else of_Z 90000) = Ok values /\
    length values = 12 * length ex_lat_one * length ex_lon.
Proof.
  apply (column_loop_pairs_lcl_with_its_column ex_lat_one ex_lon ex_plev
           (fun _ _ _ => ex_dhdp) (fun _ _ _ => ex_virtual_temp)
           (fun m _ lo => if lo =? 0 then nan else of_Z 90000) 1);
    vm_compute; reflexivity.
Defined.

(** X17.  When one of the labels 1 to 12 is missing from the month axis of
    the data, as on an axis numbered from 0 or on a record of fewer than
    twelve months, and the grid has a point, the loop over the columns
    does not complete: it raises and returns no arrays. *)
Theorem column_loop_needs_the_twelve_months
  (month_axis : list Z) (lat lon plev_array : list spec_float)
  (dhdp_cols h_cols : nat -> nat -> nat -> list spec_float) (lcl_p : field3) (m : nat) :
  m < 12 ->
  ~ In (Z.of_nat m + 1)%Z month_axis ->
  lat <> [] -> lon <> [] ->
  exists e, column_loop month_axis lat lon plev_array dhdp_cols h_cols lcl_p = Raise e.
Proof.
  intros Hm Hin Hlat Hlon.
  destruct (column_loop month_axis lat lon plev_array dhdp_cols h_cols lcl_p)
    as [values|e] eqn:H; [exfalso | exists e; reflexivity].
  unfold column_loop in H.
  destruct (nearest_level plev_array plev_FT) as [i|e]; [|discriminate].
  cbn [bind] in H.
  assert (Hpt : In (m, 0, 0)
                  (points {| n_month := 12; n_lat := length lat; n_lon := length lon |})).
  { apply in_points. cbn [n_month n_lat n_lon].
    destruct lat; [congruence|]. destruct lon; [congruence|]. simpl. lia. }
  destruct (mapM_ok_inv _ _ _ H _ Hpt) as (y & Hy).
  unfold column_at in Hy.
  destruct (m <? length month_axis); [|discriminate].
  cbn [bind] in Hy.
  destruct (nearest_level plev_array (lcl_p m 0 0)); [|discriminate].
  cbn [bind] in Hy. rewrite (get_loc_Z_None _ _ Hin) in Hy. discriminate.
Qed.

(** Months numbered from 0 to 11: the label 12 is missing. *)
Lemma column_loop_needs_the_twelve_months_witness :
  exists e,
    column_loop ex_months_from_zero ex_lat_one ex_lon ex_plev (fun _ _ _ => ex_dhdp)
      (fun _ _ _ => ex_virtual_temp) (fun _ _ _ => of_Z 90000) = Raise e.
Proof.
  apply (column_loop_needs_the_twelve_months ex_months_from_zero ex_lat_one ex_lon ex_plev
           (fun _ _ _ => ex_dhdp) (fun _ _ _ => ex_virtual_temp)
           (fun _ _ _ => of_Z 90000) 11).
  - lia.
  - vm_compute. intros H.
    repeat (destruct H as [H|H]; [discriminate H|]). exact H.
  - discriminate.
  - discriminate.
Defined.

(** ** The objective when the mask keeps no point *)

(** X18.  When every point of the grid is land or lacks the control
    adjustment, the weights sum to 0.0, both ascent fractions are 0/0,
    which is NaN, and the objective returns NaN for every entrainment
    rate: neither the three fractions nor [func] test the denominator or
    raise. *)
Theorem all_flagged_objective_is_nan
  (to_hsfc_units : spec_float -> spec_float)
  (g : grid) (weights : nat -> spec_float) (land : nat -> nat -> spec_float)
  (hsfc_ctrl adjustment_ctrl hsat500_ctrl wap500_ctrl : field3) (ehat : spec_float) :
  (forall m la lo, m < n_month g -> la < n_lat g -> lo < n_lon g ->
     isnan (land la lo) = false \/ isnan (adjustment_ctrl m la lo) = true) ->
  let landmask := calibration_landmask land adjustment_ctrl in
  xr_sum g (weights_3Darray weights landmask) = zero /\
  calc_ascent_frac g (on_kept landmask wap500_ctrl) weights landmask = nan /\
  proportion_overcome_conv_threshold g
    (entrained to_hsfc_units ehat (on_kept landmask hsfc_ctrl)
               (on_kept landmask adjustment_ctrl))
    (on_kept landmask hsat500_ctrl) weights landmask = nan /\
  calibration_objective to_hsfc_units g weights land
    hsfc_ctrl adjustment_ctrl hsat500_ctrl wap500_ctrl ehat
  = nan.
Proof.
  intros H landmask.
  destruct (all_flagged_generic to_hsfc_units g weights landmask ehat
              (on_kept landmask hsfc_ctrl) (on_kept landmask adjustment_ctrl)
              (on_kept landmask hsat500_ctrl) (on_kept landmask wap500_ctrl))
    as (H1 & H2 & H3 & H4).
  - intros m la lo Hm Hla Hlo. apply calibration_landmask_flags. apply H; assumption.
  - rewrite div_zero_zero in H2, H3. repeat split; assumption.
Qed.

Lemma all_flagged_objective_is_nan_witness :
  xr_sum ex_grid
    (weights_3Darray (fun _ => one) (calibration_landmask ex_land ex_ones)) = zero /\
  calibration_objective ex_to_kJ ex_grid (fun _ => one) ex_land
    ex_ones ex_ones ex_ones ex_wap (snd ehat_bounds) = nan.
Proof.
  destruct (all_flagged_objective_is_nan ex_to_kJ ex_grid (fun _ => one) ex_land
              ex_ones ex_ones ex_ones ex_wap (snd ehat_bounds)) as (H1 & _ & _ & H4).
  - intros m la lo _ _ _. left. reflexivity.
  - split; [exact H1 | exact H4].
Defined.
